(** * Jeffail/shutdown: the Signaller, embedded in Rocq

    The Go package has one type, [Signaller]: three channels, each closed at
    most once behind a [sync.Once], with queries, channel accessors and three
    constructors of derived contexts whose watcher goroutine cancels the
    derived context when the parent context or the Signaller's channel fires.

    The embedding is shallow.  Go objects with identity (channels, Signallers,
    cancellable contexts) live in stores and are named by their index; the
    methods of [signaller.go] are functions in a state-and-panic monad over
    the stores; goroutines blocked in their [select] sit in a pool and are run
    one at a time by scheduler steps, in any order. *)

From stdpp Require Import base list.
From Stdlib Require Import Lia.

(** ** Go runtime: panics, channels *)

Inductive panic :=
| CloseOfNilChannel
| CloseOfClosedChannel
| NilDereference
| NilParentContext.

Inductive result (A : Type) :=
| Ok (a : A)
| Panic (p : panic).
Arguments Ok {A} a.
Arguments Panic {A} p.

(** A [chan struct{}] on which nothing is ever sent: all that can be observed
    is whether it has been closed. *)
Inductive chanState := Open | Closed.

(** A channel value is [nil] or a reference to a channel made by [make]. *)
Abbreviation chan := (option nat) (only parsing).

(** [sync.Once]: its [done] flag. *)
Abbreviation Once := bool (only parsing).

(** ** The data of signaller.go *)

Record Signaller := mkSignaller {
  softStopChan : chan;
  softStopOnce : Once;
  hardStopChan : chan;
  hardStopOnce : Once;
  hasStoppedChan : chan;
  hasStoppedOnce : Once
}.

(** [*Signaller]: an index into the store of Signallers. *)
Abbreviation ptr := nat (only parsing).

(** ** Go's context package, as far as signaller.go uses it

    The package [context] belongs to Go's standard library, not to this
    repository.  It is modelled after its documentation: [WithCancel] returns
    a child context whose Done channel is closed when the returned cancel
    function is called or when the parent's Done channel is closed, whichever
    happens first; after its first call a cancel function does nothing.

    A [context.Context] is nil, [context.Background()] or a context made by
    [context.WithCancel]; the latter has a parent and a Done channel.  A
    context that its owner cancels for any reason, a deadline included, is
    one whose cancel function is called. *)
Inductive Context :=
| nilContext
| Background
| cancelCtxRef (id : nat).

Record cancelCtx := mkCancelCtx {
  parent : Context;
  done : chan
}.

(** A [context.CancelFunc] made by [WithCancel]: the closure that cancels
    context [id]. *)
Inductive CancelFunc :=
| cancelOf (id : nat).

(** The channel field of the Signaller a watcher goroutine selects on. *)
Inductive stopField := onSoftStop | onHardStop | onHasStopped.

#[global] Instance stopField_eq_dec : EqDecision stopField.
Proof. solve_decision. Defined.

Definition fieldChan (f : stopField) (x : Signaller) : chan :=
  match f with
  | onSoftStop => softStopChan x
  | onHardStop => hardStopChan x
  | onHasStopped => hasStoppedChan x
  end.

(** The goroutine started by SoftStopCtx, HardStopCtx and HasStoppedCtx,
    blocked in
    [select { case <-ctx.Done(): case <-s.<field>: }], with [cancel()] to
    run afterwards.  It captured [ctx], [s] and [cancel]. *)
Record watcher := mkWatcher {
  w_ctx : Context;
  w_sig : ptr;
  w_field : stopField;
  w_cancel : CancelFunc
}.

(** ** The world: the stores and the goroutine pool *)

Record World := mkWorld {
  chans : list chanState;
  sigs : list Signaller;
  ctxs : list cancelCtx;
  gos : list watcher
}.

Definition empty : World := mkWorld [] [] [] [].

Definition set_chans (h : list chanState) (w : World) : World :=
  mkWorld h (sigs w) (ctxs w) (gos w).
Definition set_sigs (l : list Signaller) (w : World) : World :=
  mkWorld (chans w) l (ctxs w) (gos w).
Definition set_ctxs (l : list cancelCtx) (w : World) : World :=
  mkWorld (chans w) (sigs w) l (gos w).
Definition set_gos (l : list watcher) (w : World) : World :=
  mkWorld (chans w) (sigs w) (ctxs w) l.

(** ** The monad: state passing over the world, with panics *)

Definition M (A : Type) : Type := World -> result (A * World).

Definition ret {A} (a : A) : M A := fun w => Ok (a, w).

Definition bind {A B} (m : M A) (k : A -> M B) : M B :=
  fun w => match m w with
           | Ok (a, w') => k a w'
           | Panic p => Panic p
           end.

Definition throw {A} (p : panic) : M A := fun _ => Panic p.

Notation "x <- m ;; k" := (bind m (fun x => k))
  (at level 100, m at next level, right associativity).
Notation "m ;;; k" := (bind m (fun _ => k))
  (at level 100, right associativity).

(** ** Channel operations *)

Definition isClosed (h : list chanState) (n : nat) : bool :=
  match h !! n with
  | Some Closed => true
  | _ => false
  end.

(** [make(chan struct{})] *)
Definition make_chan : M chan :=
  fun w => Ok (Some (length (chans w)), set_chans (chans w ++ [Open]) w).

(** [close(c)]: panics on a nil channel and on a closed one.  A reference
    outside the store cannot be formed in Go; the model treats it as nil. *)
Definition close (c : chan) : M unit :=
  fun w => match c with
           | None => Panic CloseOfNilChannel
           | Some n =>
             match chans w !! n with
             | Some Open => Ok (tt, set_chans (<[n:=Closed]> (chans w)) w)
             | Some Closed => Panic CloseOfClosedChannel
             | None => Panic CloseOfNilChannel
             end
           end.

(** Whether [case <-c] of a select can proceed: receiving from a closed
    channel succeeds at once, receiving from an open channel nobody sends on,
    or from a nil channel, blocks. *)
Definition signalled (h : list chanState) (c : chan) : bool :=
  match c with
  | Some n => isClosed h n
  | None => false
  end.

Definition ready (c : chan) : M bool :=
  fun w => Ok (signalled (chans w) c, w).

(** ** Signaller store *)

Definition load (s : ptr) : M Signaller :=
  fun w => match sigs w !! s with
           | Some x => Ok (x, w)
           | None => Panic NilDereference
           end.

Definition store (s : ptr) (f : Signaller -> Signaller) : M unit :=
  fun w => match sigs w !! s with
           | Some x => Ok (tt, set_sigs (<[s:=f x]> (sigs w)) w)
           | None => Panic NilDereference
           end.

Definition alloc (x : Signaller) : M ptr :=
  fun w => Ok (length (sigs w), set_sigs (sigs w ++ [x]) w).

Definition set_softStopOnce (b : Once) (x : Signaller) : Signaller :=
  mkSignaller (softStopChan x) b (hardStopChan x) (hardStopOnce x)
              (hasStoppedChan x) (hasStoppedOnce x).
Definition set_hardStopOnce (b : Once) (x : Signaller) : Signaller :=
  mkSignaller (softStopChan x) (softStopOnce x) (hardStopChan x) b
              (hasStoppedChan x) (hasStoppedOnce x).
Definition set_hasStoppedOnce (b : Once) (x : Signaller) : Signaller :=
  mkSignaller (softStopChan x) (softStopOnce x) (hardStopChan x)
              (hardStopOnce x) (hasStoppedChan x) b.

(** [once.Do(f)] on the Once field read by [get] and written by [set] of the
    Signaller [s]: runs [f] unless the Once is done, and marks it done.  The
    mutex of sync.Once makes the whole call one atomic step for every other
    caller of the same Once. *)
Definition Do (get : Signaller -> Once) (set : Once -> Signaller -> Signaller)
    (s : ptr) (f : M unit) : M unit :=
  x <- load s ;;
  if get x then ret tt
  else f ;;; store s (set true).

(** ** signaller.go *)

Definition NewSignaller : M ptr :=
  soft <- make_chan ;;
  hard <- make_chan ;;
  stopped <- make_chan ;;
  alloc (mkSignaller soft false hard false stopped false).

Definition TriggerSoftStop (s : ptr) : M unit :=
  Do softStopOnce set_softStopOnce s
     (x <- load s ;; close (softStopChan x)).

Definition TriggerHardStop (s : ptr) : M unit :=
  TriggerSoftStop s ;;;
  Do hardStopOnce set_hardStopOnce s
     (x <- load s ;; close (hardStopChan x)).

Definition TriggerHasStopped (s : ptr) : M unit :=
  Do hasStoppedOnce set_hasStoppedOnce s
     (x <- load s ;; close (hasStoppedChan x)).

Definition SoftStopChan (s : ptr) : M chan :=
  x <- load s ;; ret (softStopChan x).

Definition HardStopChan (s : ptr) : M chan :=
  x <- load s ;; ret (hardStopChan x).

Definition HasStoppedChan (s : ptr) : M chan :=
  x <- load s ;; ret (hasStoppedChan x).

Definition IsSoftStopSignalled (s : ptr) : M bool :=
  c <- SoftStopChan s ;;
  r <- ready c ;;
  if r then ret true else ret false.

Definition IsHardStopSignalled (s : ptr) : M bool :=
  c <- HardStopChan s ;;
  r <- ready c ;;
  if r then ret true else ret false.

Definition IsHasStoppedSignalled (s : ptr) : M bool :=
  c <- HasStoppedChan s ;;
  r <- ready c ;;
  if r then ret true else ret false.

(** ** context.WithCancel and cancel functions *)

(** [ctx.Done()]: Background's Done channel is nil. *)
Definition Done (ctx : Context) : M chan :=
  fun w => match ctx with
           | nilContext => Panic NilDereference
           | Background => Ok (None, w)
           | cancelCtxRef id =>
             match ctxs w !! id with
             | Some c => Ok (done c, w)
             | None => Panic NilDereference
             end
           end.

(** The store after [close(c)] of a channel that is open. *)
Definition closed_at (c : chan) (h : list chanState) : list chanState :=
  match c with
  | Some n => <[n:=Closed]> h
  | None => h
  end.

Definition parentClosed (cs : list cancelCtx) (h : list chanState)
    (c : cancelCtx) : bool :=
  match parent c with
  | cancelCtxRef p =>
    match cs !! p with
    | Some pc => signalled h (done pc)
    | None => false
    end
  | _ => false
  end.

(** Cancelling a context cancels its children, and theirs.  Contexts are
    numbered in the order of their creation, a parent before its children:
    one pass over the later contexts in that order closes the Done channel of
    each one whose parent's is closed. *)
Fixpoint cancelChildren (cs rest : list cancelCtx) (h : list chanState)
    : list chanState :=
  match rest with
  | [] => h
  | c :: rest' =>
    cancelChildren cs rest'
      (if parentClosed cs h c then closed_at (done c) h else h)
  end.

(** The cancel function of context [id]: nothing if the context is cancelled
    already, else its Done channel is closed and its children are
    cancelled. *)
Definition cancel (id : nat) : M unit :=
  fun w => match ctxs w !! id with
           | None => Panic NilDereference
           | Some c =>
             if signalled (chans w) (done c) then Ok (tt, w)
             else Ok (tt, set_chans
                            (cancelChildren (ctxs w) (drop (S id) (ctxs w))
                               (closed_at (done c) (chans w))) w)
           end.

Definition call (f : CancelFunc) : M unit :=
  match f with cancelOf id => cancel id end.

Definition alloc_ctx (c : cancelCtx) : M nat :=
  fun w => Ok (length (ctxs w), set_ctxs (ctxs w ++ [c]) w).

(** [context.WithCancel(parent)]: panics on a nil parent; the child of a
    parent that is cancelled already is cancelled at once. *)
Definition WithCancel (p : Context) : M (Context * CancelFunc) :=
  match p with
  | nilContext => throw NilParentContext
  | _ =>
    pd <- Done p ;;
    d <- make_chan ;;
    id <- alloc_ctx (mkCancelCtx p d) ;;
    r <- ready pd ;;
    (if r then cancel id else ret tt) ;;;
    ret (cancelCtxRef id, cancelOf id)
  end.

(** ** Derived contexts *)

(** [go func() { select {...}; cancel() }()] *)
Definition go (g : watcher) : M unit :=
  fun w => Ok (tt, set_gos (gos w ++ [g]) w).

Definition SoftStopCtx (s : ptr) (ctx : Context) : M (Context * CancelFunc) :=
  r <- WithCancel ctx ;;
  go (mkWatcher (fst r) s onSoftStop (snd r)) ;;;
  ret r.

Definition HardStopCtx (s : ptr) (ctx : Context) : M (Context * CancelFunc) :=
  r <- WithCancel ctx ;;
  go (mkWatcher (fst r) s onHardStop (snd r)) ;;;
  ret r.

Definition HasStoppedCtx (s : ptr) (ctx : Context) : M (Context * CancelFunc) :=
  r <- WithCancel ctx ;;
  go (mkWatcher (fst r) s onHasStopped (snd r)) ;;;
  ret r.

(** One attempt of a watcher at its select: if one of the two channels is
    ready it calls [cancel] and is finished ([true]), else it stays
    blocked. *)
Definition watch (g : watcher) : M bool :=
  d <- Done (w_ctx g) ;;
  x <- load (w_sig g) ;;
  r1 <- ready d ;;
  r2 <- ready (fieldChan (w_field g) x) ;;
  if r1 || r2 then call (w_cancel g) ;;; ret true
  else ret false.

Definition exit (i : nat) : M unit :=
  fun w => Ok (tt, set_gos (delete i (gos w)) w).

(** The scheduler runs the [i]-th goroutine of the pool. *)
Definition schedule (i : nat) : M unit :=
  fun w => match gos w !! i with
           | None => Ok (tt, w)
           | Some g => (fin <- watch g ;; if fin then exit i else ret tt) w
           end.

(** ** Programs: sequences of calls and scheduler steps

    What a program does with a Signaller is a sequence of calls of the
    package's functions, of [context.WithCancel] and of cancel functions (by
    the owners of parent contexts and of derived ones), interleaved with the
    steps of the watcher goroutines.  The fields of a Signaller are private
    and the accessors return receive-only channels, which a caller can
    neither close nor send on: the channels change through the triggers
    only.  Calls made by several goroutines appear in the sequence in the
    order in which they take effect. *)

Inductive op :=
| opNewSignaller
| opTriggerSoftStop (s : ptr)
| opTriggerHardStop (s : ptr)
| opTriggerHasStopped (s : ptr)
| opIsSoftStopSignalled (s : ptr)
| opIsHardStopSignalled (s : ptr)
| opIsHasStoppedSignalled (s : ptr)
| opSoftStopChan (s : ptr)
| opHardStopChan (s : ptr)
| opHasStoppedChan (s : ptr)
| opSoftStopCtx (s : ptr) (ctx : Context)
| opHardStopCtx (s : ptr) (ctx : Context)
| opHasStoppedCtx (s : ptr) (ctx : Context)
| opWithCancel (ctx : Context)
| opCall (f : CancelFunc)
| opSchedule (i : nat).

Definition skip {A} (m : M A) : M unit := m ;;; ret tt.

Definition exec (o : op) : M unit :=
  match o with
  | opNewSignaller => skip NewSignaller
  | opTriggerSoftStop s => TriggerSoftStop s
  | opTriggerHardStop s => TriggerHardStop s
  | opTriggerHasStopped s => TriggerHasStopped s
  | opIsSoftStopSignalled s => skip (IsSoftStopSignalled s)
  | opIsHardStopSignalled s => skip (IsHardStopSignalled s)
  | opIsHasStoppedSignalled s => skip (IsHasStoppedSignalled s)
  | opSoftStopChan s => skip (SoftStopChan s)
  | opHardStopChan s => skip (HardStopChan s)
  | opHasStoppedChan s => skip (HasStoppedChan s)
  | opSoftStopCtx s ctx => skip (SoftStopCtx s ctx)
  | opHardStopCtx s ctx => skip (HardStopCtx s ctx)
  | opHasStoppedCtx s ctx => skip (HasStoppedCtx s ctx)
  | opWithCancel ctx => skip (WithCancel ctx)
  | opCall f => call f
  | opSchedule i => schedule i
  end.

Fixpoint run (os : list op) : M unit :=
  match os with
  | [] => ret tt
  | o :: os' => exec o ;;; run os'
  end.

(** ** What the tests observe *)

(** The three queries of a Signaller, in the order soft-stop, hard-stop,
    has-stopped. *)
Definition queries (s : ptr) : M (bool * bool * bool) :=
  soft <- IsSoftStopSignalled s ;;
  hard <- IsHardStopSignalled s ;;
  stopped <- IsHasStoppedSignalled s ;;
  ret (soft, hard, stopped).

(** [assertOpen] and [assertClosed] of the tests: whether a receive from
    the channel proceeds. *)
Definition isReady (c : M chan) : M bool :=
  ch <- c ;; ready ch.

(** ** Worlds used as examples *)

(** The world a computation ends in. *)
Definition final {A} (r : result (A * World)) : World :=
  match r with
  | Ok (_, w) => w
  | Panic _ => empty
  end.

Definition w_new : World :=
  final (run [opNewSignaller] empty).

Definition w_stopped : World :=
  final (run [opNewSignaller; opTriggerHasStopped 0] empty).

Definition w_soft : World :=
  final (run [opNewSignaller; opTriggerSoftStop 0] empty).

Definition w_hard : World :=
  final (run [opNewSignaller; opTriggerHardStop 0] empty).

Definition w_two : World :=
  final (run [opNewSignaller; opTriggerHardStop 0; opNewSignaller] empty).

Definition w_later : World :=
  final (run [opTriggerHasStopped 0; opWithCancel Background;
              opSoftStopCtx 0 (cancelCtxRef 0); opSchedule 0;
              opTriggerHardStop 0; opNewSignaller] w_soft).

Definition w_parent : World :=
  final (run [opNewSignaller; opWithCancel Background] empty).

Definition w_hardctx : World :=
  final (HardStopCtx 0 (cancelCtxRef 0) w_parent).

Definition w_hardctx_soft : World :=
  final (run ([] ++ opTriggerSoftStop 0 :: [opSchedule 0]) w_hardctx).

Definition w_softctx : World :=
  final (SoftStopCtx 0 (cancelCtxRef 0) w_parent).

Definition w_softctx_stopped : World :=
  final (run ([] ++ opTriggerHasStopped 0 :: [opSchedule 0]) w_softctx).

Definition w_softctx_released : World :=
  final (run [opTriggerSoftStop 0; opSchedule 0; opCall (cancelOf 1)]
             w_softctx).

(** * Notions used in the statements

    Everything below is defined on top of the embedding, to state and prove
    properties of it. *)

(** ** Observations *)

Definition onceOf (f : stopField) (x : Signaller) : Once :=
  match f with
  | onSoftStop => softStopOnce x
  | onHardStop => hardStopOnce x
  | onHasStopped => hasStoppedOnce x
  end.

Definition setOnce (f : stopField) (b : Once) (x : Signaller) : Signaller :=
  match f with
  | onSoftStop => set_softStopOnce b x
  | onHardStop => set_hardStopOnce b x
  | onHasStopped => set_hasStoppedOnce b x
  end.

(** The flag [f] of Signaller [s]: whether its channel is closed. *)
Definition flag (f : stopField) (s : ptr) (w : World) : bool :=
  match sigs w !! s with
  | Some x => signalled (chans w) (fieldChan f x)
  | None => false
  end.

(** Whether a context is cancelled: whether its Done channel is closed. *)
Definition cancelled (w : World) (ctx : Context) : bool :=
  match ctx with
  | cancelCtxRef id =>
    match ctxs w !! id with
    | Some c => signalled (chans w) (done c)
    | None => false
    end
  | _ => false
  end.

(** The calls that set flag [f] of Signaller [s]. *)
Definition fires (f : stopField) (s : ptr) (o : op) : bool :=
  match o, f with
  | opTriggerSoftStop s', onSoftStop => bool_decide (s' = s)
  | opTriggerHardStop s', onSoftStop => bool_decide (s' = s)
  | opTriggerHardStop s', onHardStop => bool_decide (s' = s)
  | opTriggerHasStopped s', onHasStopped => bool_decide (s' = s)
  | _, _ => false
  end.

(** The world after the Once of field [f] of Signaller [s] has run. *)
Definition mark (f : stopField) (s : ptr) (w : World) : World :=
  match sigs w !! s with
  | Some x =>
    mkWorld (closed_at (fieldChan f x) (chans w))
            (<[s:=setOnce f true x]> (sigs w)) (ctxs w) (gos w)
  | None => w
  end.

(** All goroutines of the pool are blocked in their select. *)
Definition quiescent (w : World) : Prop :=
  forall g, g ∈ gos w -> watch g w = Ok (false, w).

(** How many calls of a run set flag [f] of Signaller [s], that is close its
    channel. *)
Fixpoint transitions (f : stopField) (s : ptr) (os : list op) (w : World)
    : nat :=
  match os with
  | [] => 0
  | o :: os' =>
    match exec o w with
    | Ok (_, w') =>
      (if negb (flag f s w) && flag f s w' then 1 else 0)
      + transitions f s os' w'
    | Panic _ => 0
    end
  end.

(** A channel value that refers to a channel of the store. *)
Definition valid (h : list chanState) (c : chan) : Prop :=
  exists n, c = Some n /\ n < length h.

(** ** The worlds the functions lead to *)

(** The world after [NewSignaller]. *)
Definition born (w : World) : World :=
  mkWorld (chans w ++ [Open; Open; Open])
          (sigs w ++ [mkSignaller (Some (length (chans w))) false
                                  (Some (S (length (chans w)))) false
                                  (Some (S (S (length (chans w))))) false])
          (ctxs w) (gos w).

(** The world after [WithCancel p]. *)
Definition child (p : Context) (w : World) : World :=
  mkWorld (chans w ++ [if cancelled w p then Closed else Open])
          (sigs w)
          (ctxs w ++ [mkCancelCtx p (Some (length (chans w)))])
          (gos w).

(** A context [WithCancel] accepts as parent: Background or a context of
    the store. *)
Definition known (w : World) (p : Context) : Prop :=
  match p with
  | nilContext => False
  | Background => True
  | cancelCtxRef id => id < length (ctxs w)
  end.

(** ** Well-formed worlds

    What holds of the stores of every world a program can reach: a Signaller
    has three channels of its own, its Onces are done exactly when their
    channel is closed; a context has a Done channel of its own, was made
    after its parent, and is cancelled if its parent is; a watcher holds a
    context made by [WithCancel] and that context's cancel function. *)

Record wf (w : World) : Prop := mk_wf {
  wf_sig_valid : forall s x f,
    sigs w !! s = Some x -> valid (chans w) (fieldChan f x);
  wf_sig_once : forall s x f,
    sigs w !! s = Some x ->
    onceOf f x = signalled (chans w) (fieldChan f x);
  wf_sig_inj : forall s s' x x' f f',
    sigs w !! s = Some x -> sigs w !! s' = Some x' ->
    fieldChan f x = fieldChan f' x' -> s = s' /\ f = f';
  wf_ctx_valid : forall j c,
    ctxs w !! j = Some c -> valid (chans w) (done c);
  wf_ctx_inj : forall j j' c c',
    ctxs w !! j = Some c -> ctxs w !! j' = Some c' ->
    done c = done c' -> j = j';
  wf_sig_ctx : forall s x f j c,
    sigs w !! s = Some x -> ctxs w !! j = Some c ->
    fieldChan f x <> done c;
  wf_parent : forall j c,
    ctxs w !! j = Some c ->
    match parent c with
    | nilContext => False
    | Background => True
    | cancelCtxRef p => p < j
    end;
  wf_propagated : forall j c,
    ctxs w !! j = Some c ->
    parentClosed (ctxs w) (chans w) c = true ->
    signalled (chans w) (done c) = true;
  wf_gos : forall g,
    g ∈ gos w ->
    exists d, w_ctx g = cancelCtxRef d /\ w_cancel g = cancelOf d /\
              d < length (ctxs w)
}.

(** What a cancel function does to the world: it closes Done channels only,
    of the context itself and of later contexts whose parent is cancelled
    afterwards. *)
Record cancel_post (id : nat) (w w' : World) : Prop := mk_cancel_post {
  cp_sigs : sigs w' = sigs w;
  cp_ctxs : ctxs w' = ctxs w;
  cp_gos : gos w' = gos w;
  cp_length : length (chans w') = length (chans w);
  cp_mono : forall ch,
    signalled (chans w) ch = true -> signalled (chans w') ch = true;
  cp_self : forall c,
    ctxs w !! id = Some c -> signalled (chans w') (done c) = true;
  cp_new : forall ch,
    signalled (chans w') ch = true -> signalled (chans w) ch = false ->
    exists j cj, id <= j /\ ctxs w !! j = Some cj /\ done cj = ch /\
      (j = id \/ parentClosed (ctxs w) (chans w') cj = true);
  cp_again : cancelled w (cancelCtxRef id) = true -> w' = w
}.

(** The three constructors of derived contexts are one function of the
    channel field watched. *)
Definition stopCtx (f : stopField) (s : ptr) (ctx : Context)
    : M (Context * CancelFunc) :=
  r <- WithCancel ctx ;;
  go (mkWatcher (fst r) s f (snd r)) ;;;
  ret r.

(** The watcher started for the derived context [d]. *)
Definition watcherOf (f : stopField) (s : ptr) (d : nat) : watcher :=
  mkWatcher (cancelCtxRef d) s f (cancelOf d).

(** ** What one step of a program does to a well-formed world *)

(** The world after [SoftStopCtx], [HardStopCtx] or [HasStoppedCtx]. *)
Definition derived (f : stopField) (s : ptr) (p : Context) (w : World)
    : World :=
  set_gos (gos w ++ [watcherOf f s (length (ctxs w))]) (child p w).

(** The watcher [g] of context [d] finds a channel ready, cancels [d] and
    leaves the pool. *)
Definition fired (i : nat) (w w' : World) : Prop :=
  exists g d w1,
    gos w !! i = Some g /\ w_ctx g = cancelCtxRef d /\
    is_Some (sigs w !! w_sig g) /\
    cancelled w (cancelCtxRef d) || flag (w_field g) (w_sig g) w = true /\
    cancel d w = Ok (tt, w1) /\
    w' = set_gos (delete i (gos w)) w1.

(** The step [o] as a relation between worlds. *)
Definition effect (o : op) (w w' : World) : Prop :=
  match o with
  | opNewSignaller => w' = born w
  | opTriggerSoftStop s =>
    is_Some (sigs w !! s) /\ w' = mark onSoftStop s w
  | opTriggerHardStop s =>
    is_Some (sigs w !! s) /\ w' = mark onHardStop s (mark onSoftStop s w)
  | opTriggerHasStopped s =>
    is_Some (sigs w !! s) /\ w' = mark onHasStopped s w
  | opIsSoftStopSignalled s | opIsHardStopSignalled s
  | opIsHasStoppedSignalled s | opSoftStopChan s | opHardStopChan s
  | opHasStoppedChan s => is_Some (sigs w !! s) /\ w' = w
  | opSoftStopCtx s p => known w p /\ w' = derived onSoftStop s p w
  | opHardStopCtx s p => known w p /\ w' = derived onHardStop s p w
  | opHasStoppedCtx s p => known w p /\ w' = derived onHasStopped s p w
  | opWithCancel p => known w p /\ w' = child p w
  | opCall (cancelOf id) => cancel id w = Ok (tt, w')
  | opSchedule i => w' = w \/ fired i w w'
  end.

(** The escalation invariant, on the queries. *)
Definition escalated (w : World) : Prop :=
  forall s, IsHardStopSignalled s w = Ok (true, w) ->
            IsSoftStopSignalled s w = Ok (true, w).

(** A trigger call, by the flag it is named after. *)
Definition triggerOp (s : ptr) (t : stopField) : op :=
  match t with
  | onSoftStop => opTriggerSoftStop s
  | onHardStop => opTriggerHardStop s
  | onHasStopped => opTriggerHasStopped s
  end.

#[global] Instance CancelFunc_eq_dec : EqDecision CancelFunc.
Proof. solve_decision. Defined.

(** ** A derived context and its watcher *)

Definition is_call (r : CancelFunc) (o : op) : bool :=
  match o with
  | opCall r' => bool_decide (r' = r)
  | _ => false
  end.

(** The steps that neither set flag [f] of Signaller [s] nor call the
    cancel function [release]. *)
Definition quiet (f : stopField) (s : ptr) (release : CancelFunc) (o : op)
    : bool :=
  negb (fires f s o) && negb (is_call release o).

(** What holds, from its creation on, of the context [d] derived for field
    [f] of Signaller [s]: it is in the store, the only watchers holding it
    are the one started with it, and that watcher is in the pool unless the
    context is cancelled. *)
Record scope (f : stopField) (s : ptr) (d : nat) (cd : cancelCtx)
    (w : World) : Prop := mk_scope {
  sc_wf : wf w;
  sc_ctx : ctxs w !! d = Some cd;
  sc_only : forall g,
    g ∈ gos w -> w_ctx g = cancelCtxRef d -> g = watcherOf f s d;
  sc_pool :
    cancelled w (cancelCtxRef d) = true \/ watcherOf f s d ∈ gos w
}.

(** * Notions used in the further properties *)

(** The functions of the package by the field they work on. *)
Definition trigger (f : stopField) (s : ptr) : M unit :=
  match f with
  | onSoftStop => TriggerSoftStop s
  | onHardStop => TriggerHardStop s
  | onHasStopped => TriggerHasStopped s
  end.

Definition query (f : stopField) (s : ptr) : M bool :=
  match f with
  | onSoftStop => IsSoftStopSignalled s
  | onHardStop => IsHardStopSignalled s
  | onHasStopped => IsHasStoppedSignalled s
  end.

Definition accessor (f : stopField) (s : ptr) : M chan :=
  match f with
  | onSoftStop => SoftStopChan s
  | onHardStop => HardStopChan s
  | onHasStopped => HasStoppedChan s
  end.

(** The constructor of derived contexts for field [f], called on Signaller
    [s] with parent [p] in world [w0], returns the context [ctx] and the
    cancel function [release] and leads to world [w1]. *)
Definition derives (f : stopField) (s : ptr) (p : Context) (w0 : World)
    (ctx : Context) (release : CancelFunc) (w1 : World) : Prop :=
  match f with
  | onSoftStop => SoftStopCtx s p w0 = Ok ((ctx, release), w1)
  | onHardStop => HardStopCtx s p w0 = Ok ((ctx, release), w1)
  | onHasStopped => HasStoppedCtx s p w0 = Ok ((ctx, release), w1)
  end.

(** A constructor call, by the field its goroutine waits for. *)
Definition stopCtxOp (f : stopField) (s : ptr) (p : Context) : op :=
  match f with
  | onSoftStop => opSoftStopCtx s p
  | onHardStop => opHardStopCtx s p
  | onHasStopped => opHasStoppedCtx s p
  end.

(** The world after the trigger of field [t] on Signaller [s]. *)
Definition triggered (t : stopField) (s : ptr) (w : World) : World :=
  match t with
  | onSoftStop => mark onSoftStop s w
  | onHardStop => mark onHardStop s (mark onSoftStop s w)
  | onHasStopped => mark onHasStopped s w
  end.

(** The zero value of the struct: [Signaller{}], with nil channels. *)
Definition zeroSignaller : Signaller :=
  mkSignaller None false None false None false.

(** More example worlds. *)

Definition w_zero : World := mkWorld [] [zeroSignaller] [] [].

Definition w_busy : World :=
  final (run [opNewSignaller; opTriggerHardStop 1; opWithCancel Background;
              opSoftStopCtx 1 (cancelCtxRef 0); opCall (cancelOf 0);
              opSchedule 0] w_new).

Definition w_softctx_fired : World :=
  final (run [opTriggerSoftStop 0; opSchedule 0] w_softctx).

Definition w_softctx_cut : World :=
  final (run [opCall (cancelOf 1)] w_softctx).

Definition w_hasctx : World :=
  final (HasStoppedCtx 0 (cancelCtxRef 0) w_parent).

Definition w_hasctx_stops : World :=
  final (run ([] ++ opTriggerSoftStop 0 :: opTriggerHardStop 0
                 :: [opSchedule 0]) w_hasctx).

Definition w_nested : World :=
  final (HardStopCtx 0 (cancelCtxRef 1) w_softctx).

Definition w_nested_soft : World :=
  final (run [opTriggerSoftStop 0; opSchedule 0; opSchedule 0] w_nested).

Definition w_softctx_ready : World :=
  final (run [opTriggerSoftStop 0] w_softctx).

(** * The scenarios of the test suite, computed

    Where a test waits for a watcher goroutine ([assertClosed] waits up to
    100ms), the program below runs it with a scheduler step. *)

Example TestSignallerNotClosed :
  exists w,
    (s <- NewSignaller ;;
     q0 <- queries s ;;
     TriggerHasStopped s ;;;
     q1 <- queries s ;;
     ret (q0, q1)) empty
    = Ok (((false, false, false), (false, false, true)), w).
Proof. eexists. vm_compute. reflexivity. Qed.

Example TestSignallerAtLeisure :
  exists w,
    (s <- NewSignaller ;;
     TriggerSoftStop s ;;;
     q0 <- queries s ;;
     TriggerHasStopped s ;;;
     q1 <- queries s ;;
     ret (q0, q1)) empty
    = Ok (((true, false, false), (true, false, true)), w).
Proof. eexists. vm_compute. reflexivity. Qed.

Example TestSignallerNow :
  exists w,
    (s <- NewSignaller ;;
     TriggerHardStop s ;;;
     q0 <- queries s ;;
     TriggerHasStopped s ;;;
     q1 <- queries s ;;
     ret (q0, q1)) empty
    = Ok (((true, true, false), (true, true, true)), w).
Proof. eexists. vm_compute. reflexivity. Qed.

Example TestSignallerAtLeisureCtx_parent :
  exists w,
    (s <- NewSignaller ;;
     inCtx <- WithCancel Background ;;
     r <- SoftStopCtx s (fst inCtx) ;;
     before <- isReady (Done (fst r)) ;;
     call (snd inCtx) ;;;
     after <- isReady (Done (fst r)) ;;
     call (snd r) ;;;
     ret (before, after)) empty
    = Ok ((false, true), w).
Proof. eexists. vm_compute. reflexivity. Qed.

Example TestSignallerAtLeisureCtx_release :
  exists w,
    (s <- NewSignaller ;;
     inCtx <- WithCancel Background ;;
     r <- SoftStopCtx s (fst inCtx) ;;
     before <- isReady (Done (fst r)) ;;
     call (snd r) ;;;
     after <- isReady (Done (fst r)) ;;
     parent <- isReady (Done (fst inCtx)) ;;
     call (snd inCtx) ;;;
     ret (before, after, parent)) empty
    = Ok ((false, true, false), w).
Proof. eexists. vm_compute. reflexivity. Qed.

Example TestSignallerAtLeisureCtx_soft :
  exists w,
    (s <- NewSignaller ;;
     inCtx <- WithCancel Background ;;
     r <- SoftStopCtx s (fst inCtx) ;;
     before <- isReady (Done (fst r)) ;;
     TriggerSoftStop s ;;;
     schedule 0 ;;;
     after <- isReady (Done (fst r)) ;;
     call (snd r) ;;;
     call (snd inCtx) ;;;
     ret (before, after)) empty
    = Ok ((false, true), w).
Proof. eexists. vm_compute. reflexivity. Qed.

Example TestSignallerAtLeisureCtx_hard :
  exists w,
    (s <- NewSignaller ;;
     inCtx <- WithCancel Background ;;
     r <- SoftStopCtx s (fst inCtx) ;;
     before <- isReady (Done (fst r)) ;;
     TriggerHardStop s ;;;
     schedule 0 ;;;
     after <- isReady (Done (fst r)) ;;
     call (snd r) ;;;
     call (snd inCtx) ;;;
     ret (before, after)) empty
    = Ok ((false, true), w).
Proof. eexists. vm_compute. reflexivity. Qed.

Example TestSignallerNowCtx_soft_then_release :
  exists w,
    (s <- NewSignaller ;;
     inCtx <- WithCancel Background ;;
     r <- HardStopCtx s (fst inCtx) ;;
     before <- isReady (Done (fst r)) ;;
     TriggerSoftStop s ;;;
     schedule 0 ;;;
     still <- isReady (Done (fst r)) ;;
     call (snd r) ;;;
     after <- isReady (Done (fst r)) ;;
     call (snd inCtx) ;;;
     ret (before, still, after)) empty
    = Ok ((false, false, true), w).
Proof. eexists. vm_compute. reflexivity. Qed.

Example TestSignallerNowCtx_hard :
  exists w,
    (s <- NewSignaller ;;
     inCtx <- WithCancel Background ;;
     r <- HardStopCtx s (fst inCtx) ;;
     before <- isReady (Done (fst r)) ;;
     TriggerHardStop s ;;;
     schedule 0 ;;;
     after <- isReady (Done (fst r)) ;;
     call (snd r) ;;;
     call (snd inCtx) ;;;
     ret (before, after)) empty
    = Ok ((false, true), w).
Proof. eexists. vm_compute. reflexivity. Qed.

Example TestSignallerHasClosedCtx_stopped :
  exists w,
    (s <- NewSignaller ;;
     inCtx <- WithCancel Background ;;
     r <- HasStoppedCtx s (fst inCtx) ;;
     before <- isReady (Done (fst r)) ;;
     TriggerHasStopped s ;;;
     schedule 0 ;;;
     after <- isReady (Done (fst r)) ;;
     call (snd r) ;;;
     call (snd inCtx) ;;;
     ret (before, after)) empty
    = Ok ((false, true), w).
Proof. eexists. vm_compute. reflexivity. Qed.

(** * A derived context under a derived context *)

(** A context derived by HardStopCtx from a SoftStopCtx context of the same
    Signaller is cancelled through its parent once TriggerSoftStop has been
    called and the parent's watcher has run: a derived context is cancelled
    with its parent, whatever cancelled the parent. *)
Example HardStopCtx_of_SoftStopCtx :
  exists w,
    (s <- NewSignaller ;;
     outer <- SoftStopCtx s Background ;;
     inner <- HardStopCtx s (fst outer) ;;
     TriggerSoftStop s ;;;
     schedule 0 ;;;
     hard <- IsHardStopSignalled s ;;
     parent <- isReady (Done (fst outer)) ;;
     derived <- isReady (Done (fst inner)) ;;
     ret (hard, parent, derived)) empty
    = Ok ((false, true, true), w).
Proof. eexists. vm_compute. reflexivity. Qed.

(** * Proofs *)

Ltac decide_fires f s s' :=
  destruct f; simpl; destruct (decide (s' = s)) as [->|?];
  repeat first
    [ rewrite bool_decide_eq_true_2 by (repeat split; reflexivity)
    | rewrite bool_decide_eq_false_2 by (try intros [? ?]; congruence) ];
  reflexivity.

(** ** The monad *)

Lemma bind_Ok {A B} (m : M A) (k : A -> M B) w b w2 :
  bind m k w = Ok (b, w2) <->
  exists a w1, m w = Ok (a, w1) /\ k a w1 = Ok (b, w2).
Proof.
  unfold bind. split.
  - destruct (m w) as [[a w1]|p]; [eauto | discriminate].
  - intros (a & w1 & -> & Hk). exact Hk.
Qed.

Lemma skip_Ok {A} (m : M A) w w' :
  skip m w = Ok (tt, w') <-> exists a, m w = Ok (a, w').
Proof.
  unfold skip. rewrite bind_Ok. split.
  - intros (a & w1 & Hm & Hr). injection Hr as <-. eauto.
  - intros (a & Hm). eauto.
Qed.

Lemma run_cons o os w w2 :
  run (o :: os) w = Ok (tt, w2) <->
  exists w1, exec o w = Ok (tt, w1) /\ run os w1 = Ok (tt, w2).
Proof.
  simpl. rewrite bind_Ok. split.
  - intros ([] & w1 & H1 & H2). eauto.
  - intros (w1 & H1 & H2). eauto.
Qed.

(** ** Channels *)

Lemma length_closed_at c h : length (closed_at c h) = length h.
Proof. destruct c; simpl; [apply length_insert | reflexivity]. Qed.

Lemma valid_closed_at c h c' : valid (closed_at c h) c' <-> valid h c'.
Proof. unfold valid. rewrite length_closed_at. reflexivity. Qed.

Lemma isClosed_lt h n : isClosed h n = true -> n < length h.
Proof.
  unfold isClosed. destruct (h !! n) eqn:E; [|discriminate].
  intros _. eapply lookup_lt_Some, E.
Qed.

Lemma signalled_valid h c : signalled h c = true -> valid h c.
Proof.
  destruct c as [n|]; simpl; [|discriminate].
  intros H. exists n. split; [reflexivity | apply isClosed_lt, H].
Qed.

Lemma signalled_closed_at h c c' :
  signalled (closed_at c h) c' = true <->
  signalled h c' = true \/ (c' = c /\ valid h c).
Proof.
  destruct c as [a|]; simpl.
  - destruct c' as [n|]; simpl.
    + unfold isClosed. destruct (decide (a = n)) as [->|Hne].
      * destruct (decide (n < length h)) as [Hlt|Hge].
        -- rewrite list_lookup_insert_eq by exact Hlt.
           split; [intros _; right; split; [reflexivity | exists n; auto]
                  | reflexivity].
        -- rewrite list_insert_ge by lia.
           split; [auto | intros [H | [_ (m & [= <-] & Hm)]]; [exact H | lia]].
      * rewrite list_lookup_insert_ne by exact Hne.
        split; [auto | intros [H | [[= ->] _]]; [exact H | congruence]].
    + split; [discriminate | intros [H | [H _]]; discriminate].
  - split; [auto | intros [H | [_ (m & H & _)]]; [exact H | discriminate]].
Qed.

Lemma signalled_closed_at_mono h c c' :
  signalled h c' = true -> signalled (closed_at c h) c' = true.
Proof. intros H. apply signalled_closed_at. auto. Qed.

Lemma signalled_closed_at_same h c :
  valid h c -> signalled (closed_at c h) c = true.
Proof. intros H. apply signalled_closed_at. auto. Qed.

Lemma signalled_closed_at_ne h c c' :
  c' <> c -> signalled (closed_at c h) c' = signalled h c'.
Proof.
  intros Hne. apply eq_true_iff_eq. rewrite signalled_closed_at.
  split; [intros [H | [H _]]; [exact H | contradiction] | auto].
Qed.

Lemma signalled_app h l c : valid h c -> signalled (h ++ l) c = signalled h c.
Proof.
  intros (n & -> & Hn). simpl. unfold isClosed.
  rewrite lookup_app_l by exact Hn. reflexivity.
Qed.

Lemma signalled_app_mono h l c :
  signalled h c = true -> signalled (h ++ l) c = true.
Proof.
  intros H. rewrite signalled_app; [exact H | apply signalled_valid, H].
Qed.

Lemma valid_app h l c : valid h c -> valid (h ++ l) c.
Proof.
  intros (n & -> & Hn). exists n. split; [reflexivity|].
  rewrite length_app. lia.
Qed.

Lemma closed_at_id h c : signalled h c = true -> closed_at c h = h.
Proof.
  destruct c as [n|]; simpl; [|reflexivity].
  unfold isClosed. destruct (h !! n) as [[]|] eqn:E; try discriminate.
  intros _. apply list_insert_id, E.
Qed.

(** ** What the functions of the package compute *)

Lemma NewSignaller_eq w :
  NewSignaller w =
  Ok (length (sigs w),
      mkWorld (chans w ++ [Open; Open; Open])
              (sigs w ++ [mkSignaller (Some (length (chans w))) false
                                      (Some (S (length (chans w)))) false
                                      (Some (S (S (length (chans w))))) false])
              (ctxs w) (gos w)).
Proof.
  unfold NewSignaller, bind, make_chan, alloc, set_chans, set_sigs. simpl.
  rewrite !length_app, <- !app_assoc. simpl.
  repeat f_equal; lia.
Qed.

Lemma setOnce_id f x : onceOf f x = true -> setOnce f true x = x.
Proof. destruct x, f; simpl; intros ->; reflexivity. Qed.

Lemma mark_id f s w x :
  sigs w !! s = Some x -> onceOf f x = true ->
  signalled (chans w) (fieldChan f x) = true -> mark f s w = w.
Proof.
  intros Hs Ho Hc. unfold mark. rewrite Hs, closed_at_id by exact Hc.
  rewrite setOnce_id by exact Ho. rewrite list_insert_id by exact Hs.
  destruct w; reflexivity.
Qed.

Lemma Do_eq f s w x :
  sigs w !! s = Some x ->
  valid (chans w) (fieldChan f x) ->
  onceOf f x = signalled (chans w) (fieldChan f x) ->
  Do (onceOf f) (setOnce f) s (y <- load s ;; close (fieldChan f y)) w =
  Ok (tt, mark f s w).
Proof.
  intros Hs (n & Hn & Hlt) Ho. unfold Do, bind, load. rewrite Hs.
  destruct (onceOf f x) eqn:E.
  - unfold ret. erewrite mark_id; eauto.
  - rewrite Hs. unfold close, mark. rewrite Hs, Hn.
    rewrite Hn in Ho. simpl in Ho. unfold isClosed in Ho.
    destruct (lookup_lt_is_Some_2 _ _ Hlt) as [st Hst]. rewrite Hst in *.
    destruct st; [|discriminate].
    unfold store, set_chans, set_sigs. simpl. rewrite Hs. reflexivity.
Qed.

Lemma query_eq f s w x :
  sigs w !! s = Some x ->
  (c <- (y <- load s ;; ret (fieldChan f y)) ;;
   r <- ready c ;; if r then ret true else ret false) w =
  Ok (flag f s w, w).
Proof.
  intros Hs. unfold bind, load, ret, ready, flag. rewrite Hs.
  destruct (signalled _ _); reflexivity.
Qed.

Lemma cancelChildren_length cs rest h :
  length (cancelChildren cs rest h) = length h.
Proof.
  revert h. induction rest as [|c rest IH]; intros h; simpl; [reflexivity|].
  rewrite IH. destruct (parentClosed cs h c);
    [apply length_closed_at | reflexivity].
Qed.

Lemma insert_last_closed (h : list chanState) :
  <[length h:=Closed]> (h ++ [Open]) = h ++ [Closed].
Proof. induction h as [|a h IH]; simpl; [reflexivity | f_equal; exact IH]. Qed.

Lemma isClosed_snoc_open h n : isClosed (h ++ [Open]) n = isClosed h n.
Proof.
  unfold isClosed. destruct (decide (n < length h)) as [Hlt|Hge].
  - rewrite lookup_app_l by exact Hlt. reflexivity.
  - rewrite (lookup_ge_None_2 h) by lia.
    destruct (decide (n = length h)) as [->|Hne].
    + rewrite lookup_app_r by lia. rewrite Nat.sub_diag. reflexivity.
    + rewrite lookup_ge_None_2; [reflexivity|]. rewrite length_app. simpl. lia.
Qed.

Lemma signalled_snoc_open h c : signalled (h ++ [Open]) c = signalled h c.
Proof. destruct c; simpl; [apply isClosed_snoc_open | reflexivity]. Qed.

Lemma Done_Ok ctx w c w' :
  Done ctx w = Ok (c, w') ->
  w' = w /\ signalled (chans w) c = cancelled w ctx /\
  match ctx with
  | nilContext => False
  | Background => c = None
  | cancelCtxRef id => exists x, ctxs w !! id = Some x /\ c = done x
  end.
Proof.
  unfold Done, cancelled. destruct ctx as [| |id]; [discriminate| |].
  - intros [= <- <-]. auto.
  - destruct (ctxs w !! id) as [x|]; [|discriminate].
    intros [= <- <-]. eauto.
Qed.

(** [WithCancel] makes the next context, with a fresh Done channel that is
    closed from the start if the parent is cancelled already. *)
Lemma WithCancel_Ok p w r w' :
  WithCancel p w = Ok (r, w') ->
  r = (cancelCtxRef (length (ctxs w)), cancelOf (length (ctxs w))) /\
  w' = child p w /\
  match p with
  | nilContext => False
  | Background => True
  | cancelCtxRef id => id < length (ctxs w)
  end.
Proof.
  intros H.
  assert (exists pd, Done p w = Ok (pd, w) /\
            signalled (chans w) pd = cancelled w p /\
            (r <- ready pd ;;
             (if r then cancel (length (ctxs w)) else ret tt) ;;;
             ret (cancelCtxRef (length (ctxs w)), cancelOf (length (ctxs w))))
              (mkWorld (chans w ++ [Open]) (sigs w)
                 (ctxs w ++ [mkCancelCtx p (Some (length (chans w)))]) (gos w))
            = Ok (r, w')) as (pd & HD & Hsig & H').
  { destruct p as [| |id]; [discriminate| |]; unfold WithCancel in H;
      apply bind_Ok in H as (pd & w1 & HD & H);
      destruct (Done_Ok _ _ _ _ HD) as (-> & Hsig & _);
      exists pd; (split; [exact HD|]); (split; [exact Hsig|]); exact H. }
  assert (Hp : match p with
               | nilContext => False
               | Background => True
               | cancelCtxRef id => id < length (ctxs w)
               end).
  { destruct (Done_Ok _ _ _ _ HD) as (_ & _ & Hp).
    destruct p as [| |id]; [exact Hp | exact I|].
    destruct Hp as (x & Hx & _). eapply lookup_lt_Some, Hx. }
  unfold bind, ready in H'. simpl in H'.
  rewrite signalled_snoc_open, Hsig in H'.
  unfold child. destruct (cancelled w p); simpl in H'.
  - unfold cancel in H'. simpl in H'.
    rewrite lookup_app_r in H' by lia. rewrite Nat.sub_diag in H'.
    simpl in H'. rewrite isClosed_snoc_open in H'.
    destruct (isClosed (chans w) (length (chans w))) eqn:Hc;
      [apply isClosed_lt in Hc; lia|].
    rewrite drop_ge in H' by (rewrite length_app; simpl; lia).
    simpl in H'. rewrite insert_last_closed in H'.
    injection H' as <- <-. auto.
  - injection H' as <- <-. auto.
Qed.

Lemma wf_empty : wf empty.
Proof.
  split; simpl; intros; try (rewrite lookup_nil in *; discriminate).
  exfalso. eapply not_elem_of_nil; eassumption.
Qed.

(** ** Cancellation *)

Lemma parentClosed_mono cs h h' c :
  (forall ch, signalled h ch = true -> signalled h' ch = true) ->
  parentClosed cs h c = true -> parentClosed cs h' c = true.
Proof.
  intros Hm. unfold parentClosed. destruct (parent c) as [| |p]; auto.
  destruct (cs !! p); auto.
Qed.

Lemma cancelChildren_mono cs rest h ch :
  signalled h ch = true -> signalled (cancelChildren cs rest h) ch = true.
Proof.
  revert h. induction rest as [|c rest IH]; intros h H; simpl; [exact H|].
  apply IH. destruct (parentClosed cs h c); [|exact H].
  apply signalled_closed_at_mono, H.
Qed.

(** A channel closed by the pass is the Done channel of one of the contexts
    passed over, and that context's parent is cancelled. *)
Lemma cancelChildren_new cs rest h ch :
  signalled (cancelChildren cs rest h) ch = true ->
  signalled h ch = false ->
  exists c, c ∈ rest /\ done c = ch /\
            parentClosed cs (cancelChildren cs rest h) c = true.
Proof.
  revert h. induction rest as [|c rest IH]; intros h H1 H0; simpl in *.
  - congruence.
  - destruct (parentClosed cs h c) eqn:Hp.
    + destruct (signalled (closed_at (done c) h) ch) eqn:E.
      * apply signalled_closed_at in E as [E | [-> _]]; [congruence|].
        exists c. split; [left|]. split; [reflexivity|].
        eapply parentClosed_mono; [|exact Hp].
        intros ch' Hch'. apply cancelChildren_mono, signalled_closed_at_mono, Hch'.
      * destruct (IH _ H1 E) as (c' & Hin & Hd & Hpc).
        exists c'. split; [right; exact Hin | auto].
    + destruct (IH _ H1 H0) as (c' & Hin & Hd & Hpc).
      exists c'. split; [right; exact Hin | auto].
Qed.

Lemma drop_cons_inv {A} (l : list A) m x rest :
  drop m l = x :: rest -> l !! m = Some x /\ drop (S m) l = rest.
Proof.
  intros H. assert (Hx : l !! m = Some x).
  { rewrite <- (Nat.add_0_r m), <- lookup_drop, H. reflexivity. }
  split; [exact Hx|]. rewrite (drop_S _ _ _ Hx) in H. congruence.
Qed.

Lemma elem_of_drop_lookup {A} (l : list A) m x :
  x ∈ drop m l -> exists j, m <= j /\ l !! j = Some x.
Proof.
  intros H. apply list_elem_of_lookup in H as [i Hi].
  rewrite lookup_drop in Hi. exists (m + i). split; [lia | exact Hi].
Qed.

(** After the pass over the contexts from [m] on, each of them whose parent
    is cancelled is cancelled. *)
Lemma cancelChildren_complete cs :
  (forall j j' c c', cs !! j = Some c -> cs !! j' = Some c' ->
     done c = done c' -> j = j') ->
  (forall j c, cs !! j = Some c ->
     match parent c with
     | nilContext => False
     | Background => True
     | cancelCtxRef p => p < j
     end) ->
  forall rest m h,
    drop m cs = rest ->
    (forall j c, cs !! j = Some c -> valid h (done c)) ->
    forall j c, m <= j -> cs !! j = Some c ->
      parentClosed cs (cancelChildren cs rest h) c = true ->
      signalled (cancelChildren cs rest h) (done c) = true.
Proof.
  intros Hinj Hpar. induction rest as [|c0 rest IH]; intros m h Hdrop Hval j c Hj Hc Hp.
  - apply drop_nil_inv in Hdrop. apply lookup_lt_Some in Hc. lia.
  - apply drop_cons_inv in Hdrop as [Hm Hdrop]. simpl in *.
    set (h1 := if parentClosed cs h c0 then closed_at (done c0) h else h) in *.
    assert (Hval1 : forall j c, cs !! j = Some c -> valid h1 (done c)).
    { intros j' c' Hc'. subst h1. destruct (parentClosed cs h c0); [|eauto].
      apply valid_closed_at. eauto. }
    destruct (decide (j = m)) as [->|Hne].
    + assert (c = c0) by congruence. subst c0.
      apply cancelChildren_mono.
      destruct (parentClosed cs h c) eqn:Hp0; subst h1.
      { apply signalled_closed_at_same. eauto. }
      exfalso. unfold parentClosed in Hp, Hp0. specialize (Hpar _ _ Hc).
      destruct (parent c) as [| |p]; try discriminate.
      destruct (cs !! p) as [pc|] eqn:Hpc; [|discriminate].
      destruct (cancelChildren_new _ _ _ _ Hp Hp0) as (c' & Hin & Hd & _).
      rewrite <- Hdrop in Hin.
      apply elem_of_drop_lookup in Hin as (j' & Hj' & Hc').
      pose proof (Hinj _ _ _ _ Hc' Hpc Hd). lia.
    + apply (IH (S m) h1 Hdrop Hval1 j c); [lia | exact Hc | exact Hp].
Qed.

Lemma cancel_Ok id w w' :
  wf w -> cancel id w = Ok (tt, w') -> cancel_post id w w'.
Proof.
  intros Hwf. unfold cancel. destruct (ctxs w !! id) as [c|] eqn:Hc;
    [|discriminate].
  destruct (signalled (chans w) (done c)) eqn:Hs.
  - intros [= <-]. split; auto.
    + intros c' Hc'. rewrite Hc in Hc'. injection Hc' as <-. exact Hs.
    + intros ch H1 H0. congruence.
  - intros [= <-]. split; simpl; auto.
    + rewrite cancelChildren_length. apply length_closed_at.
    + intros ch H. apply cancelChildren_mono, signalled_closed_at_mono, H.
    + intros c' Hc'. rewrite Hc in Hc'. injection Hc' as <-.
      apply cancelChildren_mono, signalled_closed_at_same.
      eapply wf_ctx_valid; eassumption.
    + intros ch H1 H0.
      destruct (signalled (closed_at (done c) (chans w)) ch) eqn:E.
      * apply signalled_closed_at in E as [E | [-> _]]; [congruence|].
        exists id, c. auto.
      * destruct (cancelChildren_new _ _ _ _ H1 E) as (c' & Hin & Hd & Hp).
        apply elem_of_drop_lookup in Hin as (j & Hj & Hcj).
        exists j, c'. repeat split; auto. lia.
    + unfold cancelled. rewrite Hc, Hs. discriminate.
Qed.

Lemma cancel_total id w :
  id < length (ctxs w) -> exists w', cancel id w = Ok (tt, w').
Proof.
  intros Hlt. destruct (lookup_lt_is_Some_2 _ _ Hlt) as [c Hc].
  unfold cancel. rewrite Hc. destruct (signalled _ _); eauto.
Qed.

Lemma cancel_propagated id w w' :
  wf w -> cancel id w = Ok (tt, w') ->
  forall j c, ctxs w !! j = Some c ->
    parentClosed (ctxs w) (chans w') c = true ->
    signalled (chans w') (done c) = true.
Proof.
  intros Hwf H j c Hc Hp.
  pose proof (cancel_Ok _ _ _ Hwf H) as Hpost.
  destruct (cancelled w (cancelCtxRef id)) eqn:Hcan.
  { rewrite (cp_again _ _ _ Hpost Hcan) in *. eapply wf_propagated; eauto. }
  destruct (decide (j <= id)) as [Hle|Hgt].
  - destruct (decide (j = id)) as [->|Hne]; [eapply cp_self; eauto|].
    eapply cp_mono; [eassumption|]. eapply wf_propagated; [eassumption..|].
    unfold parentClosed in *. pose proof (wf_parent _ Hwf _ _ Hc) as Hpar.
    destruct (parent c) as [| |p]; try discriminate.
    destruct (ctxs w !! p) as [pc|] eqn:Hpc; [|discriminate].
    destruct (signalled (chans w) (done pc)) eqn:E; [reflexivity|].
    destruct (cp_new _ _ _ Hpost _ Hp E) as (j' & cj & Hj' & Hcj & Hd & _).
    pose proof (wf_ctx_inj _ Hwf _ _ _ _ Hcj Hpc Hd). lia.
  - revert Hp. unfold cancel in H.
    destruct (ctxs w !! id) as [c0|] eqn:Hc0; [|discriminate].
    unfold cancelled in Hcan. rewrite Hc0 in Hcan. rewrite Hcan in H.
    injection H as <-. simpl.
    apply (cancelChildren_complete (ctxs w) (wf_ctx_inj _ Hwf)
             (wf_parent _ Hwf) _ (S id) _ eq_refl) with (j := j);
      [|lia|exact Hc].
    intros j' c' Hc'. apply valid_closed_at. eapply wf_ctx_valid; eassumption.
Qed.

Lemma cancel_wf id w w' : wf w -> cancel id w = Ok (tt, w') -> wf w'.
Proof.
  intros Hwf H. pose proof (cancel_Ok _ _ _ Hwf H) as Hpost.
  pose proof (cancel_propagated _ _ _ Hwf H) as Hprop.
  destruct Hpost as [Hs Hc Hg Hl Hm _ Hnew _].
  split; rewrite ?Hs, ?Hc, ?Hg.
  - intros s x f Hx. destruct (wf_sig_valid _ Hwf s x f Hx) as (n & ? & ?).
    exists n. split; [assumption|lia].
  - intros s x f Hx. rewrite (wf_sig_once _ Hwf s x f Hx).
    destruct (signalled (chans w) (fieldChan f x)) eqn:E.
    + symmetry. apply Hm, E.
    + destruct (signalled (chans w') (fieldChan f x)) eqn:E'; [|reflexivity].
      destruct (Hnew _ E' E) as (j & cj & _ & Hcj & Hd & _).
      exfalso. eapply (wf_sig_ctx _ Hwf); eauto.
  - apply (wf_sig_inj _ Hwf).
  - intros j c Hj. destruct (wf_ctx_valid _ Hwf j c Hj) as (n & ? & ?).
    exists n. split; [assumption|lia].
  - apply (wf_ctx_inj _ Hwf).
  - apply (wf_sig_ctx _ Hwf).
  - apply (wf_parent _ Hwf).
  - exact Hprop.
  - apply (wf_gos _ Hwf).
Qed.

(** ** Well-formedness is kept by every step *)

Lemma signalled_ge h n : length h <= n -> signalled h (Some n) = false.
Proof.
  intros Hn. simpl. unfold isClosed. rewrite lookup_ge_None_2 by exact Hn.
  reflexivity.
Qed.

Lemma signalled_app_opens h l c :
  Forall (eq Open) l -> signalled (h ++ l) c = signalled h c.
Proof.
  intros Hl. destruct c as [m|]; [|reflexivity].
  destruct (decide (m < length h)) as [Hlt|Hge].
  - apply signalled_app. exists m. auto.
  - rewrite (signalled_ge h) by lia. simpl. unfold isClosed.
    rewrite lookup_app_r by lia.
    destruct (l !! (m - length h)) as [st|] eqn:E; [|reflexivity].
    rewrite Forall_lookup in Hl. rewrite <- (Hl _ _ E). reflexivity.
Qed.

Lemma parentClosed_app cs cl h h' c j :
  cs !! j = Some c ->
  match parent c with cancelCtxRef p => p < j | _ => True end ->
  (forall i x, cs !! i = Some x -> signalled h' (done x) = signalled h (done x)) ->
  parentClosed (cs ++ cl) h' c = parentClosed cs h c.
Proof.
  intros Hc Hp Hs. unfold parentClosed. destruct (parent c) as [| |p]; auto.
  apply lookup_lt_Some in Hc. rewrite lookup_app_l by lia.
  destruct (cs !! p) eqn:E; [eauto | reflexivity].
Qed.

Lemma wf_parent_lt w j c :
  wf w -> ctxs w !! j = Some c ->
  match parent c with cancelCtxRef p => p < j | _ => True end.
Proof.
  intros Hwf Hc. pose proof (wf_parent _ Hwf _ _ Hc).
  destruct (parent c); auto.
Qed.

Lemma wf_NewSignaller w :
  wf w ->
  wf (mkWorld (chans w ++ [Open; Open; Open])
        (sigs w ++ [mkSignaller (Some (length (chans w))) false
                                (Some (S (length (chans w)))) false
                                (Some (S (S (length (chans w))))) false])
        (ctxs w) (gos w)).
Proof.
  intros Hwf.
  assert (Hop : Forall (eq Open) [Open; Open; Open]) by (repeat constructor).
  set (n := length (chans w)).
  assert (Hold : forall s x f, sigs w !! s = Some x ->
            exists m, fieldChan f x = Some m /\ m < n).
  { intros s x f Hx. exact (wf_sig_valid _ Hwf s x f Hx). }
  assert (Hctx : forall j c, ctxs w !! j = Some c ->
            exists m, done c = Some m /\ m < n).
  { intros j c Hc. exact (wf_ctx_valid _ Hwf j c Hc). }
  split; simpl.
  - intros s x f Hx. apply lookup_snoc_Some in Hx as [[_ Hx] | [_ <-]].
    + apply valid_app. eapply wf_sig_valid; eassumption.
    + unfold valid. rewrite length_app. simpl. fold n.
      destruct f; simpl; eexists; (split; [reflexivity | lia]).
  - intros s x f Hx. rewrite signalled_app_opens by exact Hop.
    apply lookup_snoc_Some in Hx as [[_ Hx] | [_ <-]].
    + eapply wf_sig_once; eassumption.
    + destruct f; simpl; symmetry; apply (signalled_ge (chans w)); fold n; lia.
  - intros s s' x x' f f' Hx Hx' Heq.
    apply lookup_snoc_Some in Hx as [[_ Hx] | [-> <-]];
      apply lookup_snoc_Some in Hx' as [[_ Hx'] | [-> <-]].
    + eapply wf_sig_inj; eassumption.
    + exfalso. destruct (Hold _ _ f Hx) as (m & Hm & Hlt). rewrite Hm in Heq.
      destruct f'; simpl in Heq; injection Heq as ->; lia.
    + exfalso. destruct (Hold _ _ f' Hx') as (m & Hm & Hlt). rewrite Hm in Heq.
      destruct f; simpl in Heq; injection Heq as <-; lia.
    + split; [reflexivity|].
      destruct f, f'; simpl in Heq; try reflexivity; injection Heq; lia.
  - intros j c Hc. apply valid_app. eapply wf_ctx_valid; eassumption.
  - apply (wf_ctx_inj _ Hwf).
  - intros s x f j c Hx Hc.
    apply lookup_snoc_Some in Hx as [[_ Hx] | [_ <-]].
    + eapply wf_sig_ctx; eassumption.
    + destruct (Hctx _ _ Hc) as (m & Hm & Hlt). rewrite Hm.
      destruct f; simpl; intros [= <-]; lia.
  - apply (wf_parent _ Hwf).
  - intros j c Hc. rewrite signalled_app_opens by exact Hop.
    rewrite <- (app_nil_r (ctxs w)) at 1.
    rewrite (parentClosed_app _ _ (chans w) _ _ j Hc (wf_parent_lt _ _ _ Hwf Hc)).
    + eapply wf_propagated; eassumption.
    + intros. apply signalled_app_opens, Hop.
  - apply (wf_gos _ Hwf).
Qed.

Lemma fieldChan_setOnce g f b x : fieldChan g (setOnce f b x) = fieldChan g x.
Proof. destruct g, f; reflexivity. Qed.

Lemma onceOf_setOnce g f x :
  onceOf g (setOnce f true x) = if decide (g = f) then true else onceOf g x.
Proof. destruct g, f; reflexivity. Qed.

Lemma mark_sigs_lookup f s w s' x' :
  sigs (mark f s w) !! s' = Some x' ->
  exists x0, sigs w !! s' = Some x0 /\
    (forall g, fieldChan g x' = fieldChan g x0) /\
    (forall g, onceOf g x' =
       if decide (s' = s /\ g = f) then true else onceOf g x0).
Proof.
  unfold mark. destruct (sigs w !! s) as [x|] eqn:Hs; simpl.
  - intros H. apply list_lookup_insert_Some in H as [(-> & <- & _) | (Hne & H)].
    + exists x. split; [exact Hs|]. split.
      * intros g. apply fieldChan_setOnce.
      * intros g. rewrite onceOf_setOnce.
        destruct (decide (g = f)), (decide (s' = s' /\ g = f)); tauto.
    + exists x'. split; [exact H|]. split; [reflexivity|].
      intros g. destruct (decide (s' = s /\ g = f)) as [[-> _]|]; congruence.
  - intros H. exists x'. split; [exact H|]. split; [reflexivity|].
    intros g. destruct (decide (s' = s /\ g = f)) as [[-> _]|]; congruence.
Qed.

Lemma mark_chans f s w x :
  sigs w !! s = Some x ->
  chans (mark f s w) = closed_at (fieldChan f x) (chans w).
Proof. intros Hs. unfold mark. rewrite Hs. reflexivity. Qed.

Lemma mark_ctxs f s w : ctxs (mark f s w) = ctxs w.
Proof. unfold mark. destruct (sigs w !! s); reflexivity. Qed.

Lemma mark_gos f s w : gos (mark f s w) = gos w.
Proof. unfold mark. destruct (sigs w !! s); reflexivity. Qed.

Lemma mark_sigs_length f s w : length (sigs (mark f s w)) = length (sigs w).
Proof.
  unfold mark. destruct (sigs w !! s); simpl; [apply length_insert|reflexivity].
Qed.

(** The flags after a Once has run. *)
Lemma flag_mark f s w g s' :
  wf w -> is_Some (sigs w !! s) ->
  flag g s' (mark f s w) =
  flag g s' w || bool_decide (s' = s /\ g = f).
Proof.
  intros Hwf [x Hs]. unfold flag.
  destruct (sigs (mark f s w) !! s') as [x'|] eqn:Hx'.
  - destruct (mark_sigs_lookup _ _ _ _ _ Hx') as (x0 & Hx0 & Hch & _).
    rewrite Hx0, Hch, (mark_chans _ _ _ _ Hs).
    apply eq_true_iff_eq. rewrite signalled_closed_at, orb_true_iff,
      bool_decide_eq_true.
    split; (intros [H|H]; [left; exact H | right]).
    + destruct H as [Heq _]. eapply wf_sig_inj; eassumption.
    + destruct H as [-> ->]. split; [congruence|].
      eapply wf_sig_valid; eassumption.
  - destruct (sigs w !! s') as [x0|] eqn:Hx0.
    + exfalso. apply lookup_ge_None in Hx'. apply lookup_lt_Some in Hx0.
      rewrite mark_sigs_length in Hx'. lia.
    + symmetry. apply bool_decide_eq_false. intros [-> _]. congruence.
Qed.

Lemma mark_signalled_ctx f s w j c :
  wf w -> ctxs w !! j = Some c ->
  signalled (chans (mark f s w)) (done c) = signalled (chans w) (done c).
Proof.
  intros Hwf Hc. unfold mark. destruct (sigs w !! s) as [x|] eqn:Hs;
    [|reflexivity]. simpl.
  apply signalled_closed_at_ne. intros Heq.
  eapply (wf_sig_ctx _ Hwf); eauto.
Qed.

Lemma mark_wf f s w : wf w -> wf (mark f s w).
Proof.
  intros Hwf. destruct (sigs w !! s) as [x|] eqn:Hs;
    [|unfold mark; rewrite Hs; exact Hwf].
  assert (Hlen : length (chans (mark f s w)) = length (chans w)).
  { rewrite (mark_chans _ _ _ _ Hs). apply length_closed_at. }
  split; rewrite ?mark_ctxs, ?mark_gos.
  - intros s' x' g Hx'.
    destruct (mark_sigs_lookup _ _ _ _ _ Hx') as (x0 & Hx0 & Hch & _).
    rewrite Hch. destruct (wf_sig_valid _ Hwf _ _ g Hx0) as (m & ? & ?).
    exists m. split; [assumption | lia].
  - intros s' x' g Hx'.
    pose proof (flag_mark f s w g s' Hwf (ex_intro _ x Hs)) as Hfl.
    unfold flag in Hfl. rewrite Hx' in Hfl. rewrite Hfl.
    destruct (mark_sigs_lookup _ _ _ _ _ Hx') as (x0 & Hx0 & _ & Ho).
    rewrite Hx0, Ho, <- (wf_sig_once _ Hwf _ _ g Hx0).
    destruct (decide (s' = s /\ g = f)) as [H|H].
    + rewrite bool_decide_eq_true_2 by exact H. rewrite orb_true_r. reflexivity.
    + rewrite bool_decide_eq_false_2 by exact H. rewrite orb_false_r. reflexivity.
  - intros s1 s2 x1 x2 g1 g2 H1 H2.
    destruct (mark_sigs_lookup _ _ _ _ _ H1) as (y1 & Hy1 & Hc1 & _).
    destruct (mark_sigs_lookup _ _ _ _ _ H2) as (y2 & Hy2 & Hc2 & _).
    rewrite Hc1, Hc2. eapply wf_sig_inj; eassumption.
  - intros j c Hc. destruct (wf_ctx_valid _ Hwf _ _ Hc) as (m & ? & ?).
    exists m. split; [assumption | lia].
  - apply (wf_ctx_inj _ Hwf).
  - intros s' x' g j c Hx' Hc.
    destruct (mark_sigs_lookup _ _ _ _ _ Hx') as (x0 & Hx0 & Hch & _).
    rewrite Hch. eapply wf_sig_ctx; eassumption.
  - apply (wf_parent _ Hwf).
  - intros j c Hc. rewrite (mark_signalled_ctx _ _ _ _ _ Hwf Hc).
    rewrite <- (app_nil_r (ctxs w)) at 1.
    rewrite (parentClosed_app _ _ (chans w) _ _ j Hc (wf_parent_lt _ _ _ Hwf Hc)).
    + eapply wf_propagated; eassumption.
    + intros i y Hy. eapply mark_signalled_ctx; eassumption.
  - apply (wf_gos _ Hwf).
Qed.

Lemma cancelled_child_old p w id :
  wf w -> id < length (ctxs w) ->
  cancelled (child p w) (cancelCtxRef id) = cancelled w (cancelCtxRef id).
Proof.
  intros Hwf Hlt. unfold cancelled, child. simpl.
  rewrite lookup_app_l by exact Hlt.
  destruct (ctxs w !! id) as [c|] eqn:Hc; [|reflexivity].
  apply signalled_app. eapply wf_ctx_valid; eassumption.
Qed.

Lemma signalled_snoc_new h st :
  signalled (h ++ [st]) (Some (length h)) =
  match st with Closed => true | Open => false end.
Proof.
  simpl. unfold isClosed. rewrite lookup_app_r by lia.
  rewrite Nat.sub_diag. destruct st; reflexivity.
Qed.

Lemma wf_child p w : wf w -> known w p -> wf (child p w).
Proof.
  intros Hwf Hp. set (n := length (chans w)).
  assert (Hctx : forall j c, ctxs w !! j = Some c ->
            exists m, done c = Some m /\ m < n).
  { intros j c Hc. exact (wf_ctx_valid _ Hwf j c Hc). }
  assert (Hsig : forall s x f, sigs w !! s = Some x ->
            exists m, fieldChan f x = Some m /\ m < n).
  { intros s x f Hx. exact (wf_sig_valid _ Hwf s x f Hx). }
  assert (Hpc : forall j c, (ctxs w ++ [mkCancelCtx p (Some n)]) !! j = Some c ->
            parentClosed (ctxs (child p w)) (chans (child p w)) c = true ->
            signalled (chans (child p w)) (done c) = true).
  { intros j c Hc. apply lookup_snoc_Some in Hc as [[_ Hc] | [_ <-]].
    - unfold child. simpl.
      rewrite (parentClosed_app _ _ (chans w) _ _ j Hc
                 (wf_parent_lt _ _ _ Hwf Hc)).
      + intros H. apply signalled_app_mono. eapply wf_propagated; eassumption.
      + intros i y Hy. apply signalled_app. eapply wf_ctx_valid; eassumption.
    - unfold parentClosed. simpl. destruct p as [| |id]; try discriminate.
      simpl in Hp. rewrite lookup_app_l by exact Hp.
      destruct (ctxs w !! id) as [pc|] eqn:Hpc; [|discriminate].
      rewrite signalled_app by (eapply wf_ctx_valid; eassumption).
      intros H. unfold cancelled. rewrite Hpc, H.
      apply (signalled_snoc_new (chans w) Closed). }
  split; simpl.
  - intros s x f Hx. apply valid_app. eapply wf_sig_valid; eassumption.
  - intros s x f Hx.
    rewrite signalled_app by (eapply wf_sig_valid; eassumption).
    eapply wf_sig_once; eassumption.
  - apply (wf_sig_inj _ Hwf).
  - intros j c Hc. apply lookup_snoc_Some in Hc as [[_ Hc] | [_ <-]].
    + apply valid_app. eapply wf_ctx_valid; eassumption.
    + exists n. split; [reflexivity|]. rewrite length_app. simpl. lia.
  - intros j j' c c' Hc Hc' Heq.
    apply lookup_snoc_Some in Hc as [[_ Hc] | [-> <-]];
      apply lookup_snoc_Some in Hc' as [[_ Hc'] | [-> <-]].
    + eapply wf_ctx_inj; eassumption.
    + exfalso. destruct (Hctx _ _ Hc) as (m & Hm & Hlt). rewrite Hm in Heq.
      simpl in Heq. injection Heq as ->. lia.
    + exfalso. destruct (Hctx _ _ Hc') as (m & Hm & Hlt). rewrite Hm in Heq.
      simpl in Heq. injection Heq as <-. lia.
    + reflexivity.
  - intros s x f j c Hx Hc. apply lookup_snoc_Some in Hc as [[_ Hc] | [_ <-]].
    + eapply wf_sig_ctx; eassumption.
    + destruct (Hsig _ _ f Hx) as (m & Hm & Hlt). rewrite Hm. simpl.
      intros [= ->]. lia.
  - intros j c Hc. apply lookup_snoc_Some in Hc as [[_ Hc] | [-> <-]].
    + eapply wf_parent; eassumption.
    + simpl. destruct p; simpl in Hp; auto.
  - exact Hpc.
  - intros g Hg. destruct (wf_gos _ Hwf g Hg) as (d & ? & ? & ?).
    exists d. rewrite length_app. simpl. repeat split; auto. lia.
Qed.

Lemma wf_set_gos w l :
  wf w ->
  (forall g, g ∈ l ->
     exists d, w_ctx g = cancelCtxRef d /\ w_cancel g = cancelOf d /\
               d < length (ctxs w)) ->
  wf (set_gos l w).
Proof. intros [] Hl. split; simpl; auto. Qed.

Lemma SoftStopCtx_stopCtx : SoftStopCtx = stopCtx onSoftStop.
Proof. reflexivity. Qed.
Lemma HardStopCtx_stopCtx : HardStopCtx = stopCtx onHardStop.
Proof. reflexivity. Qed.
Lemma HasStoppedCtx_stopCtx : HasStoppedCtx = stopCtx onHasStopped.
Proof. reflexivity. Qed.

Lemma stopCtx_Ok f s p w r w' :
  stopCtx f s p w = Ok (r, w') ->
  r = (cancelCtxRef (length (ctxs w)), cancelOf (length (ctxs w))) /\
  w' = set_gos (gos w ++ [watcherOf f s (length (ctxs w))]) (child p w) /\
  known w p.
Proof.
  unfold stopCtx. intros H. apply bind_Ok in H as (r0 & w1 & HW & H).
  apply WithCancel_Ok in HW as (-> & -> & Hp).
  unfold bind, go, ret in H. simpl in H. injection H as <- <-. auto.
Qed.

Lemma stopCtx_total f s p w :
  known w p -> exists r w', stopCtx f s p w = Ok (r, w').
Proof.
  intros Hp. unfold stopCtx, bind, go, ret.
  assert (exists r w1, WithCancel p w = Ok (r, w1)) as (r & w1 & ->); [|eauto].
  destruct p as [| |id]; [destruct Hp| |]; unfold WithCancel, bind, Done.
  - simpl. unfold ready. simpl. eauto.
  - simpl in Hp. destruct (lookup_lt_is_Some_2 _ _ Hp) as [c ->]. simpl.
    unfold ready. simpl.
    destruct (signalled _ _); simpl; [|eauto].
    edestruct (cancel_total (length (ctxs w))) as [w2 ->]; [|eauto].
    simpl. rewrite length_app. simpl. lia.
Qed.

(** A scheduler step either leaves the world as it is (the goroutine stays
    blocked, or there is none) or finds one of the watcher's channels ready,
    calls its cancel function and removes it from the pool. *)
Lemma schedule_Ok i w w' :
  schedule i w = Ok (tt, w') ->
  w' = w \/
  exists g x dch w1,
    gos w !! i = Some g /\ Done (w_ctx g) w = Ok (dch, w) /\
    sigs w !! w_sig g = Some x /\
    signalled (chans w) dch || signalled (chans w) (fieldChan (w_field g) x)
      = true /\
    call (w_cancel g) w = Ok (tt, w1) /\
    w' = set_gos (delete i (gos w1)) w1.
Proof.
  unfold schedule. destruct (gos w !! i) as [g|] eqn:Hg;
    [|intros [= <-]; auto].
  intros H. apply bind_Ok in H as (fin & w1 & HW & H).
  unfold watch in HW. apply bind_Ok in HW as (dch & w0 & HD & HW).
  destruct (Done_Ok _ _ _ _ HD) as (-> & _ & _).
  unfold bind, load, ready in HW.
  destruct (sigs w !! w_sig g) as [x|] eqn:Hx; [|discriminate].
  destruct (signalled (chans w) dch || _) eqn:E.
  - destruct (call (w_cancel g) w) as [[[] w2]|] eqn:Hcall; [|discriminate].
    injection HW as <- <-. unfold exit in H. injection H as <-.
    right. exists g, x, dch, w2. repeat split; assumption || reflexivity.
  - injection HW as <- <-. injection H as <-. auto.
Qed.

(** ** The triggers on a well-formed world *)

Lemma trigger_eq f s w :
  wf w -> is_Some (sigs w !! s) ->
  Do (onceOf f) (setOnce f) s (y <- load s ;; close (fieldChan f y)) w =
  Ok (tt, mark f s w).
Proof.
  intros Hwf [x Hx]. apply (Do_eq f s w x Hx).
  - eapply wf_sig_valid; eassumption.
  - eapply wf_sig_once; eassumption.
Qed.

Lemma Do_valid get set s f w r :
  Do get set s f w = Ok r -> is_Some (sigs w !! s).
Proof.
  unfold Do, bind, load. destruct (sigs w !! s); [eauto | discriminate].
Qed.

Lemma mark_valid f s w s' :
  is_Some (sigs w !! s') -> is_Some (sigs (mark f s w) !! s').
Proof.
  intros H. apply lookup_lt_is_Some. rewrite mark_sigs_length.
  apply lookup_lt_is_Some, H.
Qed.

Create HintDb shutdown.
#[local] Hint Resolve mark_wf mark_valid : shutdown.

Lemma TriggerSoftStop_eq s w :
  wf w -> is_Some (sigs w !! s) ->
  TriggerSoftStop s w = Ok (tt, mark onSoftStop s w).
Proof. apply (trigger_eq onSoftStop). Qed.

Lemma TriggerHasStopped_eq s w :
  wf w -> is_Some (sigs w !! s) ->
  TriggerHasStopped s w = Ok (tt, mark onHasStopped s w).
Proof. apply (trigger_eq onHasStopped). Qed.

Lemma TriggerHardStop_eq s w :
  wf w -> is_Some (sigs w !! s) ->
  TriggerHardStop s w = Ok (tt, mark onHardStop s (mark onSoftStop s w)).
Proof.
  intros Hwf Hs. unfold TriggerHardStop, bind.
  rewrite TriggerSoftStop_eq by assumption.
  apply (trigger_eq onHardStop); [apply mark_wf, Hwf | apply mark_valid, Hs].
Qed.

Lemma TriggerHardStop_valid s w r :
  TriggerHardStop s w = Ok r -> is_Some (sigs w !! s).
Proof.
  unfold TriggerHardStop, bind.
  destruct (TriggerSoftStop s w) as [[[] w1]|] eqn:E; [|discriminate].
  intros _. eapply Do_valid, E.
Qed.

Lemma accessor_Ok f s w c w' :
  (y <- load s ;; ret (fieldChan f y)) w = Ok (c, w') ->
  exists x, sigs w !! s = Some x /\ c = fieldChan f x /\ w' = w.
Proof.
  unfold bind, load, ret. destruct (sigs w !! s) as [x|]; [|discriminate].
  intros [= <- <-]. eauto.
Qed.

Lemma query_Ok f s w b w' :
  (c <- (y <- load s ;; ret (fieldChan f y)) ;;
   r <- ready c ;; if r then ret true else ret false) w = Ok (b, w') ->
  is_Some (sigs w !! s) /\ b = flag f s w /\ w' = w.
Proof.
  intros H. destruct (sigs w !! s) as [x|] eqn:Hx.
  - rewrite (query_eq f s w x Hx) in H. injection H as <- <-. eauto.
  - unfold bind, load in H. rewrite Hx in H. discriminate.
Qed.

Lemma exec_Ok o w w' : wf w -> exec o w = Ok (tt, w') -> effect o w w'.
Proof.
  intros Hwf H. destruct o as [|s|s|s|s|s|s|s|s|s|s p|s p|s p|p|[id]|i];
    simpl in *.
  - apply skip_Ok in H as [a H]. rewrite NewSignaller_eq in H.
    injection H as _ <-. reflexivity.
  - pose proof (Do_valid _ _ _ _ _ _ H) as Hs.
    rewrite TriggerSoftStop_eq in H by assumption. injection H as <-. auto.
  - pose proof (TriggerHardStop_valid _ _ _ H) as Hs.
    rewrite TriggerHardStop_eq in H by assumption. injection H as <-. auto.
  - pose proof (Do_valid _ _ _ _ _ _ H) as Hs.
    rewrite TriggerHasStopped_eq in H by assumption. injection H as <-. auto.
  - apply skip_Ok in H as [a H].
    apply (query_Ok onSoftStop) in H as (? & _ & ?). auto.
  - apply skip_Ok in H as [a H].
    apply (query_Ok onHardStop) in H as (? & _ & ?). auto.
  - apply skip_Ok in H as [a H].
    apply (query_Ok onHasStopped) in H as (? & _ & ?). auto.
  - apply skip_Ok in H as [a H].
    apply (accessor_Ok onSoftStop) in H as (x & ? & _ & ?). eauto.
  - apply skip_Ok in H as [a H].
    apply (accessor_Ok onHardStop) in H as (x & ? & _ & ?). eauto.
  - apply skip_Ok in H as [a H].
    apply (accessor_Ok onHasStopped) in H as (x & ? & _ & ?). eauto.
  - apply skip_Ok in H as [a H].
    apply (stopCtx_Ok onSoftStop) in H as (_ & ? & ?). auto.
  - apply skip_Ok in H as [a H].
    apply (stopCtx_Ok onHardStop) in H as (_ & ? & ?). auto.
  - apply skip_Ok in H as [a H].
    apply (stopCtx_Ok onHasStopped) in H as (_ & ? & ?). auto.
  - apply skip_Ok in H as [a H].
    apply WithCancel_Ok in H as (_ & ? & ?). auto.
  - exact H.
  - apply schedule_Ok in H as [H | (g & x & dch & w1 & Hg & HD & Hx & Hr & Hc & ->)];
      [left; exact H | right].
    destruct (wf_gos _ Hwf g (list_elem_of_lookup_2 _ _ _ Hg))
      as (d & Hctx & Hcan & Hd).
    rewrite Hcan in Hc. simpl in Hc. rewrite Hctx in HD.
    destruct (Done_Ok _ _ _ _ HD) as (_ & Hsig & _).
    exists g, d, w1. repeat split; eauto.
    + unfold flag. rewrite Hx, <- Hsig. exact Hr.
    + rewrite (cp_gos _ _ _ (cancel_Ok _ _ _ Hwf Hc)). reflexivity.
Qed.

Lemma wf_born w : wf w -> wf (born w).
Proof. apply wf_NewSignaller. Qed.

Lemma wf_derived f s p w : wf w -> known w p -> wf (derived f s p w).
Proof.
  intros Hwf Hp. apply wf_set_gos; [apply wf_child; assumption|].
  intros g Hg. simpl. rewrite length_app. simpl.
  apply elem_of_app in Hg as [Hg|Hg].
  - destruct (wf_gos _ Hwf g Hg) as (d & ? & ? & ?). exists d.
    repeat split; auto. lia.
  - apply list_elem_of_singleton in Hg as ->.
    exists (length (ctxs w)). repeat split; auto. lia.
Qed.

Lemma wf_fired i w w' : wf w -> fired i w w' -> wf w'.
Proof.
  intros Hwf (g & d & w1 & Hg & _ & _ & _ & Hc & ->).
  pose proof (cancel_wf _ _ _ Hwf Hc) as Hwf1.
  apply wf_set_gos; [exact Hwf1|]. intros g' Hg'.
  apply list_elem_of_delete_inv in Hg'.
  rewrite <- (cp_gos _ _ _ (cancel_Ok _ _ _ Hwf Hc)) in Hg'.
  apply (wf_gos _ Hwf1 g' Hg').
Qed.

Lemma effect_wf o w w' : wf w -> effect o w w' -> wf w'.
Proof.
  intros Hwf H. destruct o as [|s|s|s|s|s|s|s|s|s|s p|s p|s p|p|[id]|i];
    simpl in H.
  - subst w'. apply wf_born, Hwf.
  - destruct H as [_ ->]. apply mark_wf, Hwf.
  - destruct H as [_ ->]. apply mark_wf, mark_wf, Hwf.
  - destruct H as [_ ->]. apply mark_wf, Hwf.
  - destruct H as [_ ->]. exact Hwf.
  - destruct H as [_ ->]. exact Hwf.
  - destruct H as [_ ->]. exact Hwf.
  - destruct H as [_ ->]. exact Hwf.
  - destruct H as [_ ->]. exact Hwf.
  - destruct H as [_ ->]. exact Hwf.
  - destruct H as [Hp ->]. apply wf_derived; assumption.
  - destruct H as [Hp ->]. apply wf_derived; assumption.
  - destruct H as [Hp ->]. apply wf_derived; assumption.
  - destruct H as [Hp ->]. apply wf_child; assumption.
  - eapply cancel_wf; eassumption.
  - destruct H as [-> | H]; [exact Hwf | eapply wf_fired; eassumption].
Qed.

Lemma exec_wf o w w' : wf w -> exec o w = Ok (tt, w') -> wf w'.
Proof. intros Hwf H. eapply effect_wf, exec_Ok; eassumption. Qed.

Lemma run_wf os w w' : wf w -> run os w = Ok (tt, w') -> wf w'.
Proof.
  revert w. induction os as [|o os IH]; intros w Hwf H.
  - injection H as <-. exact Hwf.
  - apply run_cons in H as (w1 & Ho & Hr). eauto using exec_wf.
Qed.

(** Every world a program reaches from the empty one is well-formed. *)
Lemma reachable_wf os w : run os empty = Ok (tt, w) -> wf w.
Proof. apply run_wf, wf_empty. Qed.

(** ** Flags along a run *)

Lemma flag_born f s w : wf w -> flag f s (born w) = flag f s w.
Proof.
  intros Hwf. unfold flag, born. simpl.
  assert (Hop : Forall (eq Open) [Open; Open; Open]) by (repeat constructor).
  destruct (sigs w !! s) as [x|] eqn:Hx.
  - rewrite lookup_app_l by (eapply lookup_lt_Some, Hx). rewrite Hx.
    apply signalled_app_opens, Hop.
  - destruct ((sigs w ++ _) !! s) as [x|] eqn:Hx'; [|reflexivity].
    apply lookup_snoc_Some in Hx' as [[_ Hx'] | [_ <-]]; [congruence|].
    rewrite signalled_app_opens by exact Hop.
    destruct f; simpl; apply (signalled_ge (chans w)); lia.
Qed.

Lemma flag_child f s p w : wf w -> flag f s (child p w) = flag f s w.
Proof.
  intros Hwf. unfold flag, child. simpl.
  destruct (sigs w !! s) as [x|] eqn:Hx; [|reflexivity].
  apply signalled_app. eapply wf_sig_valid; eassumption.
Qed.

Lemma flag_cancel f s id w w' :
  wf w -> cancel id w = Ok (tt, w') -> flag f s w' = flag f s w.
Proof.
  intros Hwf H. destruct (cancel_Ok _ _ _ Hwf H) as [Hs _ _ _ Hm _ Hnew _].
  unfold flag. rewrite Hs. destruct (sigs w !! s) as [x|] eqn:Hx; [|reflexivity].
  destruct (signalled (chans w) (fieldChan f x)) eqn:E; [apply Hm, E|].
  destruct (signalled (chans w') (fieldChan f x)) eqn:E'; [|reflexivity].
  destruct (Hnew _ E' E) as (j & cj & _ & Hcj & Hd & _).
  exfalso. eapply (wf_sig_ctx _ Hwf); eauto.
Qed.

Lemma flag_set_gos f s l w : flag f s (set_gos l w) = flag f s w.
Proof. reflexivity. Qed.

Lemma flag_fired f s i w w' : wf w -> fired i w w' -> flag f s w' = flag f s w.
Proof.
  intros Hwf (g & d & w1 & _ & _ & _ & _ & Hc & ->).
  rewrite flag_set_gos. eapply flag_cancel; eassumption.
Qed.

(** The central fact about the flags: a step sets exactly the flags it
    fires and changes no other. *)
Lemma effect_flag f s o w w' :
  wf w -> effect o w w' -> flag f s w' = flag f s w || fires f s o.
Proof.
  intros Hwf H. destruct o as [|s'|s'|s'|s'|s'|s'|s'|s'|s'|s' p|s' p|s' p|p|[id]|i];
    simpl in H.
  - subst w'. rewrite flag_born by exact Hwf.
    destruct f; symmetry; apply orb_false_r.
  - destruct H as [Hs ->]. rewrite flag_mark by assumption.
    f_equal. decide_fires f s s'.
  - destruct H as [Hs ->].
    rewrite flag_mark by (auto with shutdown).
    rewrite flag_mark by assumption. rewrite <- orb_assoc. f_equal.
    decide_fires f s s'.
  - destruct H as [Hs ->]. rewrite flag_mark by assumption.
    f_equal. decide_fires f s s'.
  - destruct H as [_ ->]. destruct f; symmetry; apply orb_false_r.
  - destruct H as [_ ->]. destruct f; symmetry; apply orb_false_r.
  - destruct H as [_ ->]. destruct f; symmetry; apply orb_false_r.
  - destruct H as [_ ->]. destruct f; symmetry; apply orb_false_r.
  - destruct H as [_ ->]. destruct f; symmetry; apply orb_false_r.
  - destruct H as [_ ->]. destruct f; symmetry; apply orb_false_r.
  - destruct H as [_ ->]. unfold derived. rewrite flag_set_gos, flag_child by exact Hwf.
    destruct f; symmetry; apply orb_false_r.
  - destruct H as [_ ->]. unfold derived. rewrite flag_set_gos, flag_child by exact Hwf.
    destruct f; symmetry; apply orb_false_r.
  - destruct H as [_ ->]. unfold derived. rewrite flag_set_gos, flag_child by exact Hwf.
    destruct f; symmetry; apply orb_false_r.
  - destruct H as [_ ->]. rewrite flag_child by exact Hwf.
    destruct f; symmetry; apply orb_false_r.
  - rewrite (flag_cancel f s id w w' Hwf H).
    destruct f; symmetry; apply orb_false_r.
  - destruct H as [-> | H].
    + destruct f; symmetry; apply orb_false_r.
    + rewrite (flag_fired f s i w w' Hwf H).
      destruct f; symmetry; apply orb_false_r.
Qed.

Lemma exec_flag f s o w w' :
  wf w -> exec o w = Ok (tt, w') -> flag f s w' = flag f s w || fires f s o.
Proof. intros Hwf H. eapply effect_flag, exec_Ok; eassumption. Qed.

Lemma run_flag f s os w w' :
  wf w -> run os w = Ok (tt, w') ->
  flag f s w' = flag f s w || existsb (fires f s) os.
Proof.
  revert w. induction os as [|o os IH]; intros w Hwf H.
  - injection H as <-. symmetry. apply orb_false_r.
  - apply run_cons in H as (w1 & Ho & Hr). simpl.
    rewrite (IH _ (exec_wf _ _ _ Hwf Ho) Hr), (exec_flag f s _ _ _ Hwf Ho).
    symmetry. apply orb_assoc.
Qed.

(** ** What no step undoes *)

Lemma mark_signalled_mono f s w c :
  signalled (chans w) c = true -> signalled (chans (mark f s w)) c = true.
Proof.
  unfold mark. destruct (sigs w !! s); [|auto]. simpl.
  apply signalled_closed_at_mono.
Qed.

Lemma mark_sigs_keep f s w s' x :
  sigs w !! s' = Some x ->
  exists x', sigs (mark f s w) !! s' = Some x' /\
             forall g, fieldChan g x' = fieldChan g x.
Proof.
  intros Hx. destruct (mark_valid f s w s' (ex_intro _ x Hx)) as [x' Hx'].
  exists x'. split; [exact Hx'|].
  destruct (mark_sigs_lookup _ _ _ _ _ Hx') as (x0 & Hx0 & Hch & _).
  intros g. rewrite Hch. congruence.
Qed.

Lemma effect_signalled o w w' c :
  wf w -> effect o w w' ->
  signalled (chans w) c = true -> signalled (chans w') c = true.
Proof.
  intros Hwf H Hc. destruct o as [|s|s|s|s|s|s|s|s|s|s p|s p|s p|p|[id]|i];
    simpl in H.
  - subst w'. apply signalled_app_mono, Hc.
  - destruct H as [_ ->]. apply mark_signalled_mono, Hc.
  - destruct H as [_ ->]. apply mark_signalled_mono, mark_signalled_mono, Hc.
  - destruct H as [_ ->]. apply mark_signalled_mono, Hc.
  - destruct H as [_ ->]. exact Hc.
  - destruct H as [_ ->]. exact Hc.
  - destruct H as [_ ->]. exact Hc.
  - destruct H as [_ ->]. exact Hc.
  - destruct H as [_ ->]. exact Hc.
  - destruct H as [_ ->]. exact Hc.
  - destruct H as [_ ->]. apply signalled_app_mono, Hc.
  - destruct H as [_ ->]. apply signalled_app_mono, Hc.
  - destruct H as [_ ->]. apply signalled_app_mono, Hc.
  - destruct H as [_ ->]. apply signalled_app_mono, Hc.
  - apply (cp_mono _ _ _ (cancel_Ok _ _ _ Hwf H)), Hc.
  - destruct H as [-> | (g & d & w1 & _ & _ & _ & _ & Hcan & ->)];
      [exact Hc|].
    apply (cp_mono _ _ _ (cancel_Ok _ _ _ Hwf Hcan)), Hc.
Qed.

Lemma effect_sigs o w w' s x :
  wf w -> effect o w w' -> sigs w !! s = Some x ->
  exists x', sigs w' !! s = Some x' /\
             forall g, fieldChan g x' = fieldChan g x.
Proof.
  intros Hwf H Hx.
  assert (Hsame : sigs w' = sigs w ->
            exists x', sigs w' !! s = Some x' /\
                       forall g, fieldChan g x' = fieldChan g x).
  { intros ->. eauto. }
  destruct o as [|s'|s'|s'|s'|s'|s'|s'|s'|s'|s' p|s' p|s' p|p|[id]|i];
    simpl in H.
  - subst w'. exists x. split; [|reflexivity]. simpl.
    rewrite lookup_app_l by (eapply lookup_lt_Some, Hx). exact Hx.
  - destruct H as [_ ->]. apply mark_sigs_keep, Hx.
  - destruct H as [_ ->].
    destruct (mark_sigs_keep onSoftStop s' w s x Hx) as (x1 & Hx1 & H1).
    destruct (mark_sigs_keep onHardStop s' _ s x1 Hx1) as (x2 & Hx2 & H2).
    exists x2. split; [exact Hx2|]. intros g. rewrite H2. apply H1.
  - destruct H as [_ ->]. apply mark_sigs_keep, Hx.
  - destruct H as [_ ->]. apply Hsame. reflexivity.
  - destruct H as [_ ->]. apply Hsame. reflexivity.
  - destruct H as [_ ->]. apply Hsame. reflexivity.
  - destruct H as [_ ->]. apply Hsame. reflexivity.
  - destruct H as [_ ->]. apply Hsame. reflexivity.
  - destruct H as [_ ->]. apply Hsame. reflexivity.
  - destruct H as [_ ->]. apply Hsame. reflexivity.
  - destruct H as [_ ->]. apply Hsame. reflexivity.
  - destruct H as [_ ->]. apply Hsame. reflexivity.
  - destruct H as [_ ->]. apply Hsame. reflexivity.
  - apply Hsame, (cp_sigs _ _ _ (cancel_Ok _ _ _ Hwf H)).
  - destruct H as [-> | (g & d & w1 & _ & _ & _ & _ & Hcan & ->)];
      [apply Hsame; reflexivity|].
    apply Hsame. simpl. apply (cp_sigs _ _ _ (cancel_Ok _ _ _ Hwf Hcan)).
Qed.

Lemma effect_ctxs o w w' j c :
  wf w -> effect o w w' -> ctxs w !! j = Some c -> ctxs w' !! j = Some c.
Proof.
  intros Hwf H Hc.
  assert (Hgrow : forall l, (ctxs w ++ l) !! j = Some c).
  { intros l. rewrite lookup_app_l by (eapply lookup_lt_Some, Hc). exact Hc. }
  destruct o as [|s'|s'|s'|s'|s'|s'|s'|s'|s'|s' p|s' p|s' p|p|[id]|i];
    simpl in H.
  - subst w'. exact Hc.
  - destruct H as [_ ->]. rewrite mark_ctxs. exact Hc.
  - destruct H as [_ ->]. rewrite !mark_ctxs. exact Hc.
  - destruct H as [_ ->]. rewrite mark_ctxs. exact Hc.
  - destruct H as [_ ->]. exact Hc.
  - destruct H as [_ ->]. exact Hc.
  - destruct H as [_ ->]. exact Hc.
  - destruct H as [_ ->]. exact Hc.
  - destruct H as [_ ->]. exact Hc.
  - destruct H as [_ ->]. exact Hc.
  - destruct H as [_ ->]. apply Hgrow.
  - destruct H as [_ ->]. apply Hgrow.
  - destruct H as [_ ->]. apply Hgrow.
  - destruct H as [_ ->]. apply Hgrow.
  - rewrite (cp_ctxs _ _ _ (cancel_Ok _ _ _ Hwf H)). exact Hc.
  - destruct H as [-> | (g & d & w1 & _ & _ & _ & _ & Hcan & ->)];
      [exact Hc|].
    simpl. rewrite (cp_ctxs _ _ _ (cancel_Ok _ _ _ Hwf Hcan)). exact Hc.
Qed.

Lemma run_signalled os w w' c :
  wf w -> run os w = Ok (tt, w') ->
  signalled (chans w) c = true -> signalled (chans w') c = true.
Proof.
  revert w. induction os as [|o os IH]; intros w Hwf H Hc.
  - injection H as <-. exact Hc.
  - apply run_cons in H as (w1 & Ho & Hr).
    apply (IH w1); [eapply exec_wf; eassumption | exact Hr|].
    eapply effect_signalled; [exact Hwf | eapply exec_Ok; eassumption | exact Hc].
Qed.

Lemma run_sigs os w w' s x :
  wf w -> run os w = Ok (tt, w') -> sigs w !! s = Some x ->
  exists x', sigs w' !! s = Some x' /\
             forall g, fieldChan g x' = fieldChan g x.
Proof.
  revert w x. induction os as [|o os IH]; intros w x Hwf H Hx.
  - injection H as <-. eauto.
  - apply run_cons in H as (w1 & Ho & Hr).
    destruct (effect_sigs _ _ _ _ _ Hwf (exec_Ok _ _ _ Hwf Ho) Hx)
      as (x1 & Hx1 & H1).
    destruct (IH w1 x1 (exec_wf _ _ _ Hwf Ho) Hr Hx1) as (x2 & Hx2 & H2).
    exists x2. split; [exact Hx2|]. intros g. rewrite H2. apply H1.
Qed.

(** ** The queries and accessors in terms of the flags *)

Lemma IsSoftStopSignalled_eq s w :
  is_Some (sigs w !! s) ->
  IsSoftStopSignalled s w = Ok (flag onSoftStop s w, w).
Proof. intros [x Hx]. apply (query_eq onSoftStop s w x Hx). Qed.

Lemma IsHardStopSignalled_eq s w :
  is_Some (sigs w !! s) ->
  IsHardStopSignalled s w = Ok (flag onHardStop s w, w).
Proof. intros [x Hx]. apply (query_eq onHardStop s w x Hx). Qed.

Lemma IsHasStoppedSignalled_eq s w :
  is_Some (sigs w !! s) ->
  IsHasStoppedSignalled s w = Ok (flag onHasStopped s w, w).
Proof. intros [x Hx]. apply (query_eq onHasStopped s w x Hx). Qed.

Lemma IsSoftStopSignalled_Ok s w b w' :
  IsSoftStopSignalled s w = Ok (b, w') ->
  is_Some (sigs w !! s) /\ b = flag onSoftStop s w /\ w' = w.
Proof. apply (query_Ok onSoftStop). Qed.

Lemma IsHardStopSignalled_Ok s w b w' :
  IsHardStopSignalled s w = Ok (b, w') ->
  is_Some (sigs w !! s) /\ b = flag onHardStop s w /\ w' = w.
Proof. apply (query_Ok onHardStop). Qed.

Lemma IsHasStoppedSignalled_Ok s w b w' :
  IsHasStoppedSignalled s w = Ok (b, w') ->
  is_Some (sigs w !! s) /\ b = flag onHasStopped s w /\ w' = w.
Proof. apply (query_Ok onHasStopped). Qed.

Lemma accessor_eq f s w x :
  sigs w !! s = Some x ->
  (y <- load s ;; ret (fieldChan f y)) w = Ok (fieldChan f x, w).
Proof. intros Hx. unfold bind, load, ret. rewrite Hx. reflexivity. Qed.

Lemma flag_signalled f s w x :
  sigs w !! s = Some x -> flag f s w = signalled (chans w) (fieldChan f x).
Proof. intros Hx. unfold flag. rewrite Hx. reflexivity. Qed.

(** ** Escalation along a run *)

Lemma fires_hard_soft s o :
  fires onHardStop s o = true -> fires onSoftStop s o = true.
Proof. destruct o; simpl; congruence. Qed.

Lemma escalated_flag w :
  escalated w <->
  forall s, flag onHardStop s w = true -> flag onSoftStop s w = true.
Proof.
  unfold escalated. split; intros H s Hs.
  - destruct (sigs w !! s) as [x|] eqn:Hx;
      [|unfold flag in Hs; rewrite Hx in Hs; discriminate].
    assert (Hv : is_Some (sigs w !! s)) by eauto.
    specialize (H s). rewrite IsHardStopSignalled_eq, Hs in H by exact Hv.
    specialize (H eq_refl). rewrite IsSoftStopSignalled_eq in H by exact Hv.
    congruence.
  - apply IsHardStopSignalled_Ok in Hs as (Hv & Hf & _).
    rewrite IsSoftStopSignalled_eq by exact Hv. rewrite H; auto.
Qed.

Lemma exec_escalated o w w' :
  wf w -> escalated w -> exec o w = Ok (tt, w') -> escalated w'.
Proof.
  rewrite !escalated_flag. intros Hwf He Ho s.
  rewrite !(exec_flag _ s o w w' Hwf Ho), !orb_true_iff.
  intros [H|H]; [left; apply He, H | right; apply fires_hard_soft, H].
Qed.

Lemma escalated_empty : escalated empty.
Proof. apply escalated_flag. intros s. unfold flag. simpl. discriminate. Qed.

Lemma run_escalated os w w' :
  wf w -> escalated w -> run os w = Ok (tt, w') -> escalated w'.
Proof.
  revert w. induction os as [|o os IH]; intros w Hwf He H.
  - injection H as <-. exact He.
  - apply run_cons in H as (w1 & Ho & Hr).
    eauto using exec_wf, exec_escalated.
Qed.

Lemma reachable_escalated os w : run os empty = Ok (tt, w) -> escalated w.
Proof. apply run_escalated; [apply wf_empty | apply escalated_empty]. Qed.

Lemma transitions_run f s os w w' :
  wf w -> run os w = Ok (tt, w') ->
  transitions f s os w =
  if flag f s w then 0 else if existsb (fires f s) os then 1 else 0.
Proof.
  revert w. induction os as [|o os IH]; intros w Hwf H.
  - simpl. destruct (flag f s w); reflexivity.
  - apply run_cons in H as (w1 & Ho & Hr). simpl. rewrite Ho.
    rewrite (IH _ (exec_wf _ _ _ Hwf Ho) Hr), (exec_flag f s _ _ _ Hwf Ho).
    destruct (flag f s w), (fires f s o), (existsb (fires f s) os);
      reflexivity.
Qed.

Lemma trigger_again f s w :
  wf w -> is_Some (sigs w !! s) -> flag f s w = true -> mark f s w = w.
Proof.
  intros Hwf [x Hx] Hf. rewrite (flag_signalled _ _ _ _ Hx) in Hf.
  apply (mark_id f s w x Hx); [|exact Hf].
  rewrite (wf_sig_once _ Hwf s x f Hx). exact Hf.
Qed.

Lemma flag_mark_same f s w :
  wf w -> is_Some (sigs w !! s) -> flag f s (mark f s w) = true.
Proof.
  intros Hwf Hv. rewrite flag_mark by assumption.
  rewrite (bool_decide_eq_true_2 (s = s /\ f = f)) by auto.
  apply orb_true_r.
Qed.

#[local] Hint Resolve flag_mark_same : shutdown.

Lemma run_flag_mono f s os w w' :
  wf w -> run os w = Ok (tt, w') -> flag f s w = true -> flag f s w' = true.
Proof.
  intros Hwf H Hf. rewrite (run_flag f s os w w' Hwf H), Hf. reflexivity.
Qed.

Lemma run_valid os w w' s :
  wf w -> run os w = Ok (tt, w') ->
  is_Some (sigs w !! s) -> is_Some (sigs w' !! s).
Proof.
  intros Hwf H [x Hx]. destruct (run_sigs _ _ _ _ _ Hwf H Hx) as (x' & ? & _).
  eauto.
Qed.

(** ** Sequences of triggers *)

Lemma run_triggers_total s ts w :
  wf w -> is_Some (sigs w !! s) ->
  exists w', run (map (triggerOp s) ts) w = Ok (tt, w').
Proof.
  revert w. induction ts as [|t ts IH]; intros w Hwf Hv; simpl; [eauto|].
  assert (exists w1, exec (triggerOp s t) w = Ok (tt, w1) /\ wf w1 /\
                     is_Some (sigs w1 !! s)) as (w1 & Ho & Hwf1 & Hv1).
  { destruct t; simpl.
    - rewrite TriggerSoftStop_eq by assumption. eexists. split; [reflexivity|].
      auto with shutdown.
    - rewrite TriggerHardStop_eq by assumption. eexists. split; [reflexivity|].
      auto with shutdown.
    - rewrite TriggerHasStopped_eq by assumption. eexists. split; [reflexivity|].
      auto with shutdown. }
  destruct (IH w1 Hwf1 Hv1) as [w' Hr]. exists w'.
  unfold bind. rewrite Ho. exact Hr.
Qed.

Lemma existsb_fires_triggers f s ts :
  existsb (fires f s) (map (triggerOp s) ts) =
  match f with
  | onSoftStop => bool_decide (onSoftStop ∈ ts) || bool_decide (onHardStop ∈ ts)
  | onHardStop => bool_decide (onHardStop ∈ ts)
  | onHasStopped => bool_decide (onHasStopped ∈ ts)
  end.
Proof.
  induction ts as [|t ts IH]; simpl.
  - destruct f; simpl; rewrite ?bool_decide_eq_false_2; auto using not_elem_of_nil.
  - rewrite IH. clear IH.
    assert (Hc : forall u : stopField,
              bool_decide (u ∈ t :: ts) = bool_decide (u = t) || bool_decide (u ∈ ts)).
    { intros u. apply eq_true_iff_eq.
      rewrite orb_true_iff, !bool_decide_eq_true. apply elem_of_cons. }
    rewrite !Hc. destruct f, t; simpl;
      rewrite ?(bool_decide_eq_true_2 (s = s)) by reflexivity;
      rewrite ?(bool_decide_eq_true_2 (onSoftStop = onSoftStop)) by reflexivity;
      rewrite ?(bool_decide_eq_true_2 (onHardStop = onHardStop)) by reflexivity;
      rewrite ?(bool_decide_eq_true_2 (onHasStopped = onHasStopped)) by reflexivity;
      rewrite ?bool_decide_eq_false_2 by discriminate;
      simpl; rewrite ?orb_true_r; reflexivity.
Qed.

(** ** Contexts along a run *)

Lemma cancelled_Some w d :
  cancelled w (cancelCtxRef d) = true ->
  exists c, ctxs w !! d = Some c /\ signalled (chans w) (done c) = true.
Proof.
  unfold cancelled. destruct (ctxs w !! d) as [c|]; [eauto | discriminate].
Qed.

Lemma cancelled_lookup w d c :
  ctxs w !! d = Some c ->
  cancelled w (cancelCtxRef d) = signalled (chans w) (done c).
Proof. intros H. unfold cancelled. rewrite H. reflexivity. Qed.

Lemma parentClosed_cancelled w c :
  parentClosed (ctxs w) (chans w) c = cancelled w (parent c).
Proof. unfold parentClosed, cancelled. destruct (parent c); reflexivity. Qed.

Lemma effect_cancelled o w w' ctx :
  wf w -> effect o w w' -> cancelled w ctx = true -> cancelled w' ctx = true.
Proof.
  intros Hwf H Hc. destruct ctx as [| |d]; try discriminate.
  apply cancelled_Some in Hc as (c & Hd & Hs).
  rewrite (cancelled_lookup _ _ _ (effect_ctxs _ _ _ _ _ Hwf H Hd)).
  eapply effect_signalled; eassumption.
Qed.

(** A cancel function called on another context cancels [d] only if it
    cancels the parent of [d]. *)
Lemma cancel_other id w w' d cd :
  wf w -> cancel id w = Ok (tt, w') -> id <> d ->
  ctxs w !! d = Some cd ->
  cancelled w' (cancelCtxRef d) = true ->
  cancelled w (cancelCtxRef d) = true \/ cancelled w' (parent cd) = true.
Proof.
  intros Hwf H Hne Hd Hc. pose proof (cancel_Ok _ _ _ Hwf H) as Hpost.
  destruct (cancelled w (cancelCtxRef d)) eqn:E; [auto | right].
  rewrite (cancelled_lookup _ _ _ Hd) in E.
  pose proof Hc as Hc'. unfold cancelled in Hc'.
  rewrite (cp_ctxs _ _ _ Hpost), Hd in Hc'.
  destruct (cp_new _ _ _ Hpost _ Hc' E) as (j & cj & _ & Hcj & Hdone & Hor).
  assert (j = d) as -> by (eapply wf_ctx_inj; eassumption).
  assert (cj = cd) as -> by congruence.
  destruct Hor as [->|Hp]; [contradiction|].
  rewrite <- parentClosed_cancelled, (cp_ctxs _ _ _ Hpost). exact Hp.
Qed.

Lemma cancelled_born w ctx : wf w -> cancelled (born w) ctx = cancelled w ctx.
Proof.
  intros Hwf. destruct ctx as [| |d]; try reflexivity.
  unfold cancelled, born. simpl. destruct (ctxs w !! d); [|reflexivity].
  apply signalled_app_opens. repeat constructor.
Qed.

Lemma cancelled_mark f s w ctx :
  wf w -> cancelled (mark f s w) ctx = cancelled w ctx.
Proof.
  intros Hwf. destruct ctx as [| |d]; try reflexivity.
  unfold cancelled. rewrite mark_ctxs.
  destruct (ctxs w !! d) as [c|] eqn:Hd; [|reflexivity].
  eapply mark_signalled_ctx; eassumption.
Qed.

Lemma cancelled_child p w ctx :
  wf w -> known w ctx -> cancelled (child p w) ctx = cancelled w ctx.
Proof.
  intros Hwf Hk. destruct ctx as [| |d]; try reflexivity.
  apply cancelled_child_old; assumption.
Qed.

Lemma cancelled_set_gos l w ctx : cancelled (set_gos l w) ctx = cancelled w ctx.
Proof. reflexivity. Qed.

(** Why a context becomes cancelled (the three ways of the contract): in one
    step, a context that was not cancelled becomes so only if its parent is
    cancelled after the step, or its own cancel function is called, or a
    watcher of it runs and finds its Signaller's flag set. *)
Lemma effect_cancels o w w' d cd :
  wf w -> effect o w w' -> ctxs w !! d = Some cd ->
  cancelled w (cancelCtxRef d) = false ->
  cancelled w' (cancelCtxRef d) = true ->
  cancelled w' (parent cd) = true \/
  o = opCall (cancelOf d) \/
  exists i g, o = opSchedule i /\ gos w !! i = Some g /\
              w_ctx g = cancelCtxRef d /\
              flag (w_field g) (w_sig g) w = true.
Proof.
  intros Hwf H Hd H0 H1.
  assert (Hk : known w (cancelCtxRef d)) by (eapply lookup_lt_Some, Hd).
  destruct o as [|s'|s'|s'|s'|s'|s'|s'|s'|s'|s' p|s' p|s' p|p|[id]|i];
    simpl in H.
  - subst w'. rewrite cancelled_born in H1 by exact Hwf. congruence.
  - destruct H as [_ ->]. rewrite cancelled_mark in H1 by exact Hwf. congruence.
  - destruct H as [_ ->].
    rewrite !cancelled_mark in H1 by auto with shutdown. congruence.
  - destruct H as [_ ->]. rewrite cancelled_mark in H1 by exact Hwf. congruence.
  - destruct H as [_ ->]. congruence.
  - destruct H as [_ ->]. congruence.
  - destruct H as [_ ->]. congruence.
  - destruct H as [_ ->]. congruence.
  - destruct H as [_ ->]. congruence.
  - destruct H as [_ ->]. congruence.
  - destruct H as [_ ->]. unfold derived in H1.
    rewrite cancelled_set_gos, cancelled_child in H1 by assumption. congruence.
  - destruct H as [_ ->]. unfold derived in H1.
    rewrite cancelled_set_gos, cancelled_child in H1 by assumption. congruence.
  - destruct H as [_ ->]. unfold derived in H1.
    rewrite cancelled_set_gos, cancelled_child in H1 by assumption. congruence.
  - destruct H as [_ ->]. rewrite cancelled_child in H1 by assumption.
    congruence.
  - destruct (decide (id = d)) as [->|Hne]; [auto|].
    destruct (cancel_other _ _ _ _ _ Hwf H Hne Hd H1); [congruence | auto].
  - destruct H as [-> | (g & d0 & w1 & Hg & Hctx & _ & Hen & Hcan & ->)];
      [congruence|].
    rewrite cancelled_set_gos in *.
    destruct (decide (d0 = d)) as [->|Hne].
    + right. right. exists i, g. rewrite H0 in Hen. auto.
    + destruct (cancel_other _ _ _ _ _ Hwf Hcan Hne Hd H1); [congruence | auto].
Qed.

(** The goroutines of the pool after a step: those before it, or the
    watcher of the context the step made. *)
Lemma effect_gos o w w' g :
  wf w -> effect o w w' -> g ∈ gos w' ->
  g ∈ gos w \/ exists f s, g = watcherOf f s (length (ctxs w)).
Proof.
  intros Hwf H Hg.
  assert (Hnew : forall f s p,
            g ∈ gos (derived f s p w) ->
            g ∈ gos w \/ exists f s, g = watcherOf f s (length (ctxs w))).
  { intros f s p Hin. unfold derived in Hin. simpl in Hin.
    apply elem_of_app in Hin as [Hin|Hin]; [auto|].
    apply list_elem_of_singleton in Hin. eauto. }
  destruct o as [|s'|s'|s'|s'|s'|s'|s'|s'|s'|s' p|s' p|s' p|p|[id]|i];
    simpl in H.
  - subst w'. auto.
  - destruct H as [_ ->]. rewrite mark_gos in Hg. auto.
  - destruct H as [_ ->]. rewrite !mark_gos in Hg. auto.
  - destruct H as [_ ->]. rewrite mark_gos in Hg. auto.
  - destruct H as [_ ->]. auto.
  - destruct H as [_ ->]. auto.
  - destruct H as [_ ->]. auto.
  - destruct H as [_ ->]. auto.
  - destruct H as [_ ->]. auto.
  - destruct H as [_ ->]. auto.
  - destruct H as [_ ->]. eauto.
  - destruct H as [_ ->]. eauto.
  - destruct H as [_ ->]. eauto.
  - destruct H as [_ ->]. auto.
  - rewrite (cp_gos _ _ _ (cancel_Ok _ _ _ Hwf H)) in Hg. auto.
  - destruct H as [-> | (g0 & d0 & w1 & _ & _ & _ & _ & _ & ->)]; [auto|].
    simpl in Hg. apply list_elem_of_delete_inv in Hg. auto.
Qed.

Lemma elem_of_delete_other {A} (l : list A) i j x :
  l !! j = Some x -> j <> i -> x ∈ delete i l.
Proof.
  intros Hj Hne. apply list_elem_of_lookup.
  destruct (decide (j < i)) as [Hlt|Hge].
  - exists j. rewrite list_lookup_delete_lt by exact Hlt. exact Hj.
  - exists (pred j). rewrite list_lookup_delete_ge by lia.
    replace (S (pred j)) with j by lia. exact Hj.
Qed.

(** A watcher stays in the pool until its context is cancelled. *)
Lemma effect_watcher o w w' g d :
  wf w -> effect o w w' -> g ∈ gos w -> w_ctx g = cancelCtxRef d ->
  g ∈ gos w' \/ cancelled w' (cancelCtxRef d) = true.
Proof.
  intros Hwf H Hg Hctx.
  assert (Hgrow : forall l, g ∈ gos w ++ l).
  { intros l. apply elem_of_app. auto. }
  destruct o as [|s'|s'|s'|s'|s'|s'|s'|s'|s'|s' p|s' p|s' p|p|[id]|i];
    simpl in H.
  - subst w'. auto.
  - destruct H as [_ ->]. rewrite mark_gos. auto.
  - destruct H as [_ ->]. rewrite !mark_gos. auto.
  - destruct H as [_ ->]. rewrite mark_gos. auto.
  - destruct H as [_ ->]. auto.
  - destruct H as [_ ->]. auto.
  - destruct H as [_ ->]. auto.
  - destruct H as [_ ->]. auto.
  - destruct H as [_ ->]. auto.
  - destruct H as [_ ->]. auto.
  - destruct H as [_ ->]. left. apply Hgrow.
  - destruct H as [_ ->]. left. apply Hgrow.
  - destruct H as [_ ->]. left. apply Hgrow.
  - destruct H as [_ ->]. auto.
  - rewrite (cp_gos _ _ _ (cancel_Ok _ _ _ Hwf H)). auto.
  - destruct H as [-> | (g0 & d0 & w1 & Hg0 & Hctx0 & _ & _ & Hcan & ->)];
      [auto|].
    apply list_elem_of_lookup in Hg as [j Hj].
    destruct (decide (j = i)) as [->|Hne].
    + right. assert (g0 = g) as -> by congruence.
      assert (d0 = d) as -> by congruence.
      rewrite cancelled_set_gos.
      destruct (lookup_lt_is_Some_2 (ctxs w) d) as [c Hc].
      { destruct (wf_gos _ Hwf g (list_elem_of_lookup_2 _ _ _ Hj))
          as (d' & Hd' & _ & Hlt). congruence. }
      pose proof (cancel_Ok _ _ _ Hwf Hcan) as Hpost.
      unfold cancelled. rewrite (cp_ctxs _ _ _ Hpost), Hc.
      eapply cp_self; eassumption.
    + left. simpl. eapply elem_of_delete_other; eassumption.
Qed.

(** A cancel function leaves the contexts made before its own as they
    are. *)
Lemma cancel_earlier d w w' j :
  wf w -> cancel d w = Ok (tt, w') -> j < d ->
  cancelled w' (cancelCtxRef j) = cancelled w (cancelCtxRef j).
Proof.
  intros Hwf H Hlt. pose proof (cancel_Ok _ _ _ Hwf H) as Hpost.
  unfold cancelled. rewrite (cp_ctxs _ _ _ Hpost).
  destruct (ctxs w !! j) as [c|] eqn:Hj; [|reflexivity].
  destruct (signalled (chans w) (done c)) eqn:E;
    [eapply cp_mono; eassumption|].
  destruct (signalled (chans w') (done c)) eqn:E'; [|reflexivity].
  destruct (cp_new _ _ _ Hpost _ E' E) as (j' & cj & Hj' & Hcj & Hdone & _).
  pose proof (wf_ctx_inj _ Hwf _ _ _ _ Hcj Hj Hdone). lia.
Qed.

Lemma cancel_parent d cd w w' :
  wf w -> ctxs w !! d = Some cd -> cancel d w = Ok (tt, w') ->
  cancelled w' (parent cd) = cancelled w (parent cd).
Proof.
  intros Hwf Hd H. pose proof (wf_parent _ Hwf _ _ Hd) as Hp.
  destruct (parent cd) as [| |p]; try reflexivity.
  eapply cancel_earlier; eassumption.
Qed.

Lemma run_release_again n d w :
  cancelled w (cancelCtxRef d) = true ->
  run (replicate n (opCall (cancelOf d))) w = Ok (tt, w).
Proof.
  intros Hc. induction n as [|n IH]; simpl; [reflexivity|].
  unfold bind, cancel. apply cancelled_Some in Hc as (c & -> & ->).
  exact IH.
Qed.

Lemma fires_valid f s o w w' :
  fires f s o = true -> effect o w w' -> is_Some (sigs w !! s).
Proof.
  destruct o, f; simpl; try discriminate;
    intros Hs%bool_decide_eq_true [Hv _]; congruence.
Qed.

(** ** A derived context and its watcher *)

Lemma scope_derived f s p w :
  wf w -> known w p ->
  scope f s (length (ctxs w)) (mkCancelCtx p (Some (length (chans w))))
        (derived f s p w).
Proof.
  intros Hwf Hp. split.
  - apply wf_derived; assumption.
  - unfold derived, child. simpl. rewrite lookup_app_r by lia.
    rewrite Nat.sub_diag. reflexivity.
  - intros g Hg Hctx. unfold derived in Hg. simpl in Hg.
    apply elem_of_app in Hg as [Hg|Hg].
    + destruct (wf_gos _ Hwf g Hg) as (d' & Hd' & _ & Hlt).
      rewrite Hd' in Hctx. injection Hctx as ->. lia.
    + apply list_elem_of_singleton in Hg. exact Hg.
  - right. unfold derived. simpl. apply elem_of_app. right.
    apply list_elem_of_singleton. reflexivity.
Qed.

Lemma stopCtx_scope f s p w0 r w1 :
  wf w0 -> stopCtx f s p w0 = Ok (r, w1) ->
  exists d cd,
    r = (cancelCtxRef d, cancelOf d) /\ parent cd = p /\
    scope f s d cd w1 /\
    sigs w1 = sigs w0 /\
    flag f s w1 = flag f s w0 /\
    (cancelled w1 (cancelCtxRef d) = true -> cancelled w1 p = true).
Proof.
  intros Hwf H. apply stopCtx_Ok in H as (-> & -> & Hp).
  exists (length (ctxs w0)), (mkCancelCtx p (Some (length (chans w0)))).
  split; [reflexivity|]. split; [reflexivity|].
  split; [apply scope_derived; assumption|]. split; [reflexivity|].
  split; [unfold derived; rewrite flag_set_gos; apply flag_child, Hwf|].
  unfold derived. rewrite !cancelled_set_gos.
  rewrite (cancelled_child p w0 p Hwf Hp).
  unfold cancelled at 1, child. simpl. rewrite lookup_app_r by lia.
  rewrite Nat.sub_diag. simpl.
  pose proof (signalled_snoc_new (chans w0)
                (if cancelled w0 p then Closed else Open)) as Hn.
  simpl in Hn. rewrite Hn. destruct (cancelled w0 p); auto.
Qed.

Section DerivedScope.

(** The context [d], with record [cd], derived for field [f] of Signaller
    [s]. *)
Variables (f : stopField) (s : ptr) (d : nat) (cd : cancelCtx).

Lemma scope_effect o w w' :
  scope f s d cd w -> effect o w w' -> scope f s d cd w'.
Proof.
  intros [Hwf Hd Honly Hpool] H. split.
  - eapply effect_wf; eassumption.
  - eapply effect_ctxs; eassumption.
  - intros g Hg Hctx.
    destruct (effect_gos _ _ _ _ Hwf H Hg) as [Hin | (f' & s' & ->)];
      [auto|].
    simpl in Hctx. injection Hctx as <-. apply lookup_lt_Some in Hd. lia.
  - destruct Hpool as [Hc|Hin].
    + left. eapply effect_cancelled; eassumption.
    + destruct (effect_watcher _ _ _ _ d Hwf H Hin eq_refl); auto.
Qed.

Lemma scope_run os w w' :
  scope f s d cd w -> run os w = Ok (tt, w') -> scope f s d cd w'.
Proof.
  revert w. induction os as [|o os IH]; intros w Hsc H.
  - injection H as <-. exact Hsc.
  - apply run_cons in H as (w1 & Ho & Hr). apply (IH w1); [|exact Hr].
    eapply scope_effect; [exact Hsc|]. apply exec_Ok; [apply Hsc | exact Ho].
Qed.

(** While its flag is not set and its cancel function is not called, a
    derived context is cancelled only if its parent is. *)
Lemma live_effect o w w' :
  scope f s d cd w -> effect o w w' ->
  quiet f s (cancelOf d) o = true ->
  flag f s w = false ->
  (cancelled w (cancelCtxRef d) = true -> cancelled w (parent cd) = true) ->
  flag f s w' = false /\
  (cancelled w' (cancelCtxRef d) = true -> cancelled w' (parent cd) = true).
Proof.
  intros [Hwf Hd Honly _] H Hq Hf Hlive.
  apply andb_true_iff in Hq as [Hq1 Hq2].
  apply negb_true_iff in Hq1, Hq2. split.
  - rewrite (effect_flag f s o w w' Hwf H), Hf, Hq1. reflexivity.
  - intros Hc. destruct (cancelled w (cancelCtxRef d)) eqn:E.
    + eapply effect_cancelled; eauto.
    + destruct (effect_cancels _ _ _ _ _ Hwf H Hd E Hc)
        as [Hp | [-> | (i & g & -> & Hg & Hctx & Hfl)]]; [exact Hp | |].
      * simpl in Hq2. rewrite bool_decide_eq_true_2 in Hq2 by reflexivity.
        discriminate.
      * rewrite (Honly g (list_elem_of_lookup_2 _ _ _ Hg) Hctx) in Hfl.
        simpl in Hfl. congruence.
Qed.

Lemma live_run os w w' :
  scope f s d cd w -> run os w = Ok (tt, w') ->
  forallb (quiet f s (cancelOf d)) os = true ->
  flag f s w = false ->
  (cancelled w (cancelCtxRef d) = true -> cancelled w (parent cd) = true) ->
  flag f s w' = false /\
  (cancelled w' (cancelCtxRef d) = true -> cancelled w' (parent cd) = true).
Proof.
  revert w. induction os as [|o os IH]; intros w Hsc H Hq Hf Hlive.
  - injection H as <-. auto.
  - apply run_cons in H as (w1 & Ho & Hr). simpl in Hq.
    apply andb_true_iff in Hq as [Hq1 Hq2].
    pose proof (exec_Ok _ _ _ (sc_wf _ _ _ _ _ Hsc) Ho) as He.
    destruct (live_effect _ _ _ Hsc He Hq1 Hf Hlive) as [Hf1 Hl1].
    apply (IH w1); auto. eapply scope_effect; eassumption.
Qed.

Lemma watch_fires w :
  ctxs w !! d = Some cd -> is_Some (sigs w !! s) -> flag f s w = true ->
  exists w1, cancel d w = Ok (tt, w1) /\
             watch (watcherOf f s d) w = Ok (true, w1).
Proof.
  intros Hd [x Hx] Hf.
  destruct (cancel_total d w (lookup_lt_Some _ _ _ Hd)) as [w1 Hc].
  exists w1. split; [exact Hc|].
  unfold watch, bind, Done, load, ready. simpl. rewrite Hd, Hx.
  rewrite (flag_signalled _ _ _ _ Hx) in Hf. rewrite Hf, orb_true_r.
  rewrite Hc. reflexivity.
Qed.

(** Once its flag is set, a derived context is cancelled or its watcher is
    in the pool with its select ready, and running it cancels the context;
    when all goroutines are blocked the context is cancelled. *)
Lemma scope_fires w :
  scope f s d cd w -> is_Some (sigs w !! s) -> flag f s w = true ->
  (cancelled w (cancelCtxRef d) = true \/
   exists i w', gos w !! i = Some (watcherOf f s d) /\
                schedule i w = Ok (tt, w') /\
                cancelled w' (cancelCtxRef d) = true) /\
  (quiescent w -> cancelled w (cancelCtxRef d) = true).
Proof.
  intros [Hwf Hd _ Hpool] Hv Hf.
  destruct (watch_fires w Hd Hv Hf) as (w1 & Hc & Hw).
  destruct Hpool as [Hcan|Hin]; [auto|].
  split.
  - right. apply list_elem_of_lookup in Hin as [i Hi].
    exists i, (set_gos (delete i (gos w1)) w1). split; [exact Hi|].
    split.
    + unfold schedule. rewrite Hi. unfold bind. rewrite Hw. reflexivity.
    + rewrite cancelled_set_gos.
      pose proof (cancel_Ok _ _ _ Hwf Hc) as Hpost.
      unfold cancelled. rewrite (cp_ctxs _ _ _ Hpost), Hd.
      eapply cp_self; eassumption.
  - intros Hq. specialize (Hq _ Hin). congruence.
Qed.

(** After a step that sets its flag, and whatever follows. *)
Lemma scope_cancelled w o w' post w3 :
  scope f s d cd w -> exec o w = Ok (tt, w') -> fires f s o = true ->
  run post w' = Ok (tt, w3) ->
  (cancelled w3 (cancelCtxRef d) = true \/
   exists i w4, gos w3 !! i = Some (watcherOf f s d) /\
                schedule i w3 = Ok (tt, w4) /\
                cancelled w4 (cancelCtxRef d) = true) /\
  (quiescent w3 -> cancelled w3 (cancelCtxRef d) = true).
Proof.
  intros Hsc Ho Hf Hpost. pose proof (sc_wf _ _ _ _ _ Hsc) as Hwf.
  pose proof (exec_Ok _ _ _ Hwf Ho) as He.
  pose proof (exec_wf _ _ _ Hwf Ho) as Hwf'.
  assert (Hrun : run (o :: post) w = Ok (tt, w3)).
  { apply run_cons. eauto. }
  apply scope_fires.
  - eapply scope_run; eassumption.
  - eapply run_valid; [exact Hwf | exact Hrun|]. eapply fires_valid; eassumption.
  - eapply run_flag_mono; [exact Hwf' | exact Hpost|].
    rewrite (effect_flag f s o w w' Hwf He), Hf. apply orb_true_r.
Qed.

End DerivedScope.

Lemma forallb_quiet_app f s r os1 o os2 :
  forallb (quiet f s r) (os1 ++ os2) = true -> quiet f s r o = true ->
  forallb (quiet f s r) (os1 ++ o :: os2) = true.
Proof.
  rewrite !forallb_app. simpl. intros [H1 H2]%andb_true_iff Ho.
  rewrite H1, H2, Ho. reflexivity.
Qed.

(** * The claims *)

(** ** Claims about the flags *)

(** C1. Escalation: on any Signaller of any world a program can reach,
    TriggerHardStop does not panic; it is TriggerSoftStop followed by the
    Once of the hard-stop channel; afterwards IsSoftStopSignalled and
    IsHardStopSignalled return true, and the channels SoftStopChan and
    HardStopChan return, the same before and after the call, are both
    closed.  The two queries return true as well when other steps run
    between the two halves of TriggerHardStop and after it. *)
Theorem TriggerHardStop_escalates pre w s :
  run pre empty = Ok (tt, w) -> s < length (sigs w) ->
  exists w1 w',
    TriggerSoftStop s w = Ok (tt, w1) /\
    Do hardStopOnce set_hardStopOnce s
       (x <- load s ;; close (hardStopChan x)) w1 = Ok (tt, w') /\
    TriggerHardStop s w = Ok (tt, w') /\
    IsSoftStopSignalled s w' = Ok (true, w') /\
    IsHardStopSignalled s w' = Ok (true, w') /\
    (exists c, SoftStopChan s w = Ok (c, w) /\
               SoftStopChan s w' = Ok (c, w') /\
               signalled (chans w') c = true) /\
    (exists c, HardStopChan s w = Ok (c, w) /\
               HardStopChan s w' = Ok (c, w') /\
               signalled (chans w') c = true) /\
    (forall os w2, run os w1 = Ok (tt, w2) ->
       exists w3,
         Do hardStopOnce set_hardStopOnce s
            (x <- load s ;; close (hardStopChan x)) w2 = Ok (tt, w3) /\
         forall post w4, run post w3 = Ok (tt, w4) ->
           IsSoftStopSignalled s w4 = Ok (true, w4) /\
           IsHardStopSignalled s w4 = Ok (true, w4)).
Proof.
  intros Hrun Hs. pose proof (reachable_wf _ _ Hrun) as Hwf.
  apply lookup_lt_is_Some in Hs. destruct Hs as [x Hx].
  assert (Hv : is_Some (sigs w !! s)) by eauto.
  pose proof (mark_wf onSoftStop s w Hwf) as Hwf1.
  pose proof (mark_valid onSoftStop s w s Hv) as Hv1.
  pose proof (mark_valid onHardStop s _ s Hv1) as Hv2.
  exists (mark onSoftStop s w), (mark onHardStop s (mark onSoftStop s w)).
  assert (Hsoft : flag onSoftStop s (mark onHardStop s (mark onSoftStop s w))
                  = true).
  { rewrite !flag_mark by assumption.
    rewrite (bool_decide_eq_true_2 (s = s /\ onSoftStop = onSoftStop)) by auto.
    rewrite orb_true_r. reflexivity. }
  assert (Hhard : flag onHardStop s (mark onHardStop s (mark onSoftStop s w))
                  = true).
  { rewrite flag_mark by assumption.
    rewrite (bool_decide_eq_true_2 (s = s /\ onHardStop = onHardStop)) by auto.
    apply orb_true_r. }
  destruct (mark_sigs_keep onSoftStop s w s x Hx) as (x1 & Hx1 & H1).
  destruct (mark_sigs_keep onHardStop s _ s x1 Hx1) as (x2 & Hx2 & H2).
  split; [apply TriggerSoftStop_eq; assumption|].
  split; [apply (trigger_eq onHardStop); assumption|].
  split; [apply TriggerHardStop_eq; assumption|].
  split; [rewrite IsSoftStopSignalled_eq, Hsoft by assumption; reflexivity|].
  split; [rewrite IsHardStopSignalled_eq, Hhard by assumption; reflexivity|].
  split; [|split].
  - exists (softStopChan x). split; [apply (accessor_eq onSoftStop), Hx|].
    rewrite (flag_signalled _ _ _ _ Hx2), H2, H1 in Hsoft.
    split; [|exact Hsoft].
    pose proof (accessor_eq onSoftStop _ _ _ Hx2) as Ha.
    rewrite H2, H1 in Ha. exact Ha.
  - exists (hardStopChan x). split; [apply (accessor_eq onHardStop), Hx|].
    rewrite (flag_signalled _ _ _ _ Hx2), H2, H1 in Hhard.
    split; [|exact Hhard].
    pose proof (accessor_eq onHardStop _ _ _ Hx2) as Ha.
    rewrite H2, H1 in Ha. exact Ha.
  - intros os w2 Hos.
    pose proof (run_wf _ _ _ Hwf1 Hos) as Hwf2.
    pose proof (run_valid _ _ _ s Hwf1 Hos Hv1) as Hv'.
    exists (mark onHardStop s w2).
    split; [apply (trigger_eq onHardStop); assumption|].
    intros post w4 Hpost.
    pose proof (mark_wf onHardStop s w2 Hwf2) as Hwf3.
    pose proof (run_valid _ _ _ s Hwf3 Hpost
                  (mark_valid onHardStop s w2 s Hv')) as Hv4.
    rewrite IsSoftStopSignalled_eq, IsHardStopSignalled_eq by exact Hv4.
    rewrite !(run_flag_mono _ s post _ w4 Hwf3 Hpost); [auto| |].
    + apply flag_mark_same; assumption.
    + rewrite flag_mark by assumption.
      rewrite (run_flag_mono _ s os _ w2 Hwf1 Hos); [reflexivity|].
      apply flag_mark_same; assumption.
Qed.

Lemma TriggerHardStop_escalates_witness :
  run [opNewSignaller; opTriggerHasStopped 0] empty = Ok (tt, w_stopped) /\
  0 < length (sigs w_stopped) /\
  exists w',
    TriggerHardStop 0 w_stopped = Ok (tt, w') /\
    IsSoftStopSignalled 0 w' = Ok (true, w') /\
    IsHardStopSignalled 0 w' = Ok (true, w').
Proof.
  assert (H0 : run [opNewSignaller; opTriggerHasStopped 0] empty
               = Ok (tt, w_stopped)) by (vm_compute; reflexivity).
  assert (H1 : 0 < length (sigs w_stopped)) by (vm_compute; lia).
  split; [exact H0|]. split; [exact H1|].
  destruct (TriggerHardStop_escalates _ _ _ H0 H1)
    as (w1 & w' & _ & _ & H & Hs & Hh & _).
  exists w'. auto.
Defined.

(** C2. Idempotence: in every world a program can reach, a trigger whose
    flag is set already returns with the world as it was; hence calling a
    trigger a second time changes nothing; and along any further run the
    number of steps that set a given flag is 0 if the flag was set, else 1
    if a trigger of that flag is called, else 0: never more than one. *)
Theorem triggers_idempotent pre w s :
  run pre empty = Ok (tt, w) ->
  (IsSoftStopSignalled s w = Ok (true, w) ->
   TriggerSoftStop s w = Ok (tt, w)) /\
  (IsHardStopSignalled s w = Ok (true, w) ->
   TriggerHardStop s w = Ok (tt, w)) /\
  (IsHasStoppedSignalled s w = Ok (true, w) ->
   TriggerHasStopped s w = Ok (tt, w)) /\
  (forall w1, TriggerSoftStop s w = Ok (tt, w1) ->
     TriggerSoftStop s w1 = Ok (tt, w1)) /\
  (forall w1, TriggerHardStop s w = Ok (tt, w1) ->
     TriggerHardStop s w1 = Ok (tt, w1)) /\
  (forall w1, TriggerHasStopped s w = Ok (tt, w1) ->
     TriggerHasStopped s w1 = Ok (tt, w1)) /\
  (forall f os w', run os w = Ok (tt, w') ->
     transitions f s os w =
       (if flag f s w then 0 else if existsb (fires f s) os then 1 else 0) /\
     transitions f s os w <= 1).
Proof.
  intros Hrun. pose proof (reachable_wf _ _ Hrun) as Hwf.
  pose proof (proj1 (escalated_flag w) (reachable_escalated _ _ Hrun)) as Hesc.
  assert (Hsoft : forall w0, wf w0 -> is_Some (sigs w0 !! s) ->
            flag onSoftStop s w0 = true -> TriggerSoftStop s w0 = Ok (tt, w0)).
  { intros w0 Hwf0 Hv Hf. rewrite TriggerSoftStop_eq by assumption.
    rewrite trigger_again by assumption. reflexivity. }
  assert (Hhas : forall w0, wf w0 -> is_Some (sigs w0 !! s) ->
            flag onHasStopped s w0 = true ->
            TriggerHasStopped s w0 = Ok (tt, w0)).
  { intros w0 Hwf0 Hv Hf. rewrite TriggerHasStopped_eq by assumption.
    rewrite trigger_again by assumption. reflexivity. }
  assert (Hhard : forall w0, wf w0 -> is_Some (sigs w0 !! s) ->
            flag onSoftStop s w0 = true -> flag onHardStop s w0 = true ->
            TriggerHardStop s w0 = Ok (tt, w0)).
  { intros w0 Hwf0 Hv Hf Hf'. rewrite TriggerHardStop_eq by assumption.
    rewrite (trigger_again onSoftStop) by assumption.
    rewrite trigger_again by assumption. reflexivity. }
  split; [|split; [|split; [|split; [|split; [|split]]]]].
  - intros H. apply IsSoftStopSignalled_Ok in H as (Hv & Hf & _). auto.
  - intros H. apply IsHardStopSignalled_Ok in H as (Hv & Hf & _). auto.
  - intros H. apply IsHasStoppedSignalled_Ok in H as (Hv & Hf & _). auto.
  - intros w1 H. pose proof (Do_valid _ _ _ _ _ _ H) as Hv.
    rewrite TriggerSoftStop_eq in H by assumption. injection H as <-.
    apply Hsoft; auto with shutdown.
  - intros w1 H. pose proof (TriggerHardStop_valid _ _ _ H) as Hv.
    rewrite TriggerHardStop_eq in H by assumption. injection H as <-.
    apply Hhard; auto with shutdown.
    rewrite flag_mark by auto with shutdown.
    rewrite flag_mark_same by assumption. reflexivity.
  - intros w1 H. pose proof (Do_valid _ _ _ _ _ _ H) as Hv.
    rewrite TriggerHasStopped_eq in H by assumption. injection H as <-.
    apply Hhas; auto with shutdown.
  - intros f os w' Hos. rewrite (transitions_run f s os w w') by assumption.
    split; [reflexivity|].
    destruct (flag f s w), (existsb (fires f s) os); lia.
Qed.

Lemma triggers_idempotent_witness :
  run [opNewSignaller; opTriggerHardStop 0] empty = Ok (tt, w_hard) /\
  TriggerSoftStop 0 w_hard = Ok (tt, w_hard) /\
  TriggerHardStop 0 w_hard = Ok (tt, w_hard) /\
  transitions onHardStop 0 [opTriggerHardStop 0; opTriggerHardStop 0] w_hard
    <= 1.
Proof.
  assert (H0 : run [opNewSignaller; opTriggerHardStop 0] empty
               = Ok (tt, w_hard)) by (vm_compute; reflexivity).
  destruct (triggers_idempotent _ _ 0 H0) as (Hs & Hh & _ & _ & _ & _ & Ht).
  split; [exact H0|].
  split; [apply Hs; vm_compute; reflexivity|].
  split; [apply Hh; vm_compute; reflexivity|].
  apply (Ht onHardStop [opTriggerHardStop 0; opTriggerHardStop 0] w_hard).
  vm_compute. reflexivity.
Defined.

(** C3. Escalation invariant: in every world a program can reach, a
    Signaller whose hard-stop query returns true has its soft-stop query
    return true; every step from such a world (each trigger, query, accessor
    and derived-context constructor, as well as WithCancel, cancel functions
    and watcher steps) leads to a world where this holds again; a new
    Signaller has neither flag set; and it holds after the second half of
    TriggerHardStop also when other steps ran since the first half. *)
Theorem escalation_invariant os w :
  run os empty = Ok (tt, w) ->
  escalated w /\
  (forall o w', exec o w = Ok (tt, w') -> escalated w') /\
  (forall s w', NewSignaller w = Ok (s, w') ->
     IsHardStopSignalled s w' = Ok (false, w') /\
     IsSoftStopSignalled s w' = Ok (false, w') /\
     escalated w') /\
  (forall s w1 mid w2,
     TriggerSoftStop s w = Ok (tt, w1) -> run mid w1 = Ok (tt, w2) ->
     exists w3,
       Do hardStopOnce set_hardStopOnce s
          (x <- load s ;; close (hardStopChan x)) w2 = Ok (tt, w3) /\
       escalated w3).
Proof.
  intros Hrun. pose proof (reachable_wf _ _ Hrun) as Hwf.
  pose proof (reachable_escalated _ _ Hrun) as Hesc.
  split; [exact Hesc|]. split; [|split].
  - intros o w' Ho. eapply exec_escalated; eassumption.
  - intros s w' Hnew.
    assert (Ho : exec opNewSignaller w = Ok (tt, w')).
    { apply skip_Ok. eauto. }
    rewrite NewSignaller_eq in Hnew. injection Hnew as <- <-.
    assert (Hv : is_Some (sigs (born w) !! length (sigs w))).
    { apply lookup_lt_is_Some. unfold born. simpl. rewrite length_app.
      simpl. lia. }
    assert (Hf : forall f, flag f (length (sigs w)) (born w) = false).
    { intros f. rewrite flag_born by exact Hwf. unfold flag.
      rewrite lookup_ge_None_2 by lia. reflexivity. }
    fold (born w).
    rewrite IsHardStopSignalled_eq, IsSoftStopSignalled_eq, !Hf by exact Hv.
    split; [reflexivity|]. split; [reflexivity|].
    eapply exec_escalated; eassumption.
  - intros s w1 mid w2 Hsoft Hos.
    pose proof (Do_valid _ _ _ _ _ _ Hsoft) as Hv.
    rewrite TriggerSoftStop_eq in Hsoft by assumption. injection Hsoft as <-.
    pose proof (mark_wf onSoftStop s w Hwf) as Hwf1.
    pose proof (run_wf _ _ _ Hwf1 Hos) as Hwf2.
    pose proof (run_valid _ _ _ s Hwf1 Hos (mark_valid _ _ _ _ Hv)) as Hv2.
    exists (mark onHardStop s w2).
    split; [apply (trigger_eq onHardStop); assumption|].
    assert (He2 : escalated w2).
    { eapply run_escalated; [exact Hwf1 | | exact Hos].
      eapply (exec_escalated (opTriggerSoftStop s)); [exact Hwf | exact Hesc|].
      apply TriggerSoftStop_eq; assumption. }
    apply escalated_flag. intros s'. rewrite !flag_mark by assumption.
    rewrite (bool_decide_eq_false_2 (s' = s /\ onSoftStop = onHardStop))
      by (intros [_ ?]; discriminate).
    rewrite orb_false_r, orb_true_iff, bool_decide_eq_true.
    intros [H | [-> _]]; [apply (proj1 (escalated_flag w2) He2), H|].
    apply (run_flag_mono _ s mid _ w2 Hwf1 Hos), flag_mark_same; assumption.
Qed.

Lemma escalation_invariant_witness :
  run [opNewSignaller; opTriggerHardStop 0; opNewSignaller] empty
    = Ok (tt, w_two) /\
  escalated w_two.
Proof.
  assert (H0 : run [opNewSignaller; opTriggerHardStop 0; opNewSignaller] empty
               = Ok (tt, w_two)) by (vm_compute; reflexivity).
  split; [exact H0|]. exact (proj1 (escalation_invariant _ _ H0)).
Defined.

(** C6. Query and handle agree: for every Signaller of every world, each
    query returns true exactly when the channel its accessor returns is
    closed, that is when a receive on it proceeds. *)
Theorem query_handle_consistent w s :
  s < length (sigs w) ->
  (exists c b, SoftStopChan s w = Ok (c, w) /\
     IsSoftStopSignalled s w = Ok (b, w) /\
     (b = true <-> signalled (chans w) c = true)) /\
  (exists c b, HardStopChan s w = Ok (c, w) /\
     IsHardStopSignalled s w = Ok (b, w) /\
     (b = true <-> signalled (chans w) c = true)) /\
  (exists c b, HasStoppedChan s w = Ok (c, w) /\
     IsHasStoppedSignalled s w = Ok (b, w) /\
     (b = true <-> signalled (chans w) c = true)).
Proof.
  intros Hs. apply lookup_lt_is_Some in Hs. destruct Hs as [x Hx].
  assert (Hv : is_Some (sigs w !! s)) by eauto.
  split; [|split].
  - exists (softStopChan x), (flag onSoftStop s w).
    split; [apply (accessor_eq onSoftStop), Hx|].
    split; [apply IsSoftStopSignalled_eq, Hv|].
    rewrite (flag_signalled _ _ _ _ Hx). reflexivity.
  - exists (hardStopChan x), (flag onHardStop s w).
    split; [apply (accessor_eq onHardStop), Hx|].
    split; [apply IsHardStopSignalled_eq, Hv|].
    rewrite (flag_signalled _ _ _ _ Hx). reflexivity.
  - exists (hasStoppedChan x), (flag onHasStopped s w).
    split; [apply (accessor_eq onHasStopped), Hx|].
    split; [apply IsHasStoppedSignalled_eq, Hv|].
    rewrite (flag_signalled _ _ _ _ Hx). reflexivity.
Qed.

Lemma query_handle_consistent_witness :
  0 < length (sigs w_soft) /\
  exists c b, SoftStopChan 0 w_soft = Ok (c, w_soft) /\
    IsSoftStopSignalled 0 w_soft = Ok (b, w_soft) /\
    (b = true <-> signalled (chans w_soft) c = true).
Proof.
  assert (H0 : 0 < length (sigs w_soft)) by (vm_compute; lia).
  split; [exact H0|]. exact (proj1 (query_handle_consistent w_soft 0 H0)).
Defined.

(** C7. Monotonicity: from a world a program can reach, along any further
    run of calls and scheduler steps, a query that returned true returns
    true, each accessor returns the same channel as before, and a channel
    that was closed is closed: no flag goes back to unset and no handle is
    un-signalled. *)
Theorem flags_monotonic pre w os w' s :
  run pre empty = Ok (tt, w) -> run os w = Ok (tt, w') ->
  (IsSoftStopSignalled s w = Ok (true, w) ->
   IsSoftStopSignalled s w' = Ok (true, w')) /\
  (IsHardStopSignalled s w = Ok (true, w) ->
   IsHardStopSignalled s w' = Ok (true, w')) /\
  (IsHasStoppedSignalled s w = Ok (true, w) ->
   IsHasStoppedSignalled s w' = Ok (true, w')) /\
  (forall c, SoftStopChan s w = Ok (c, w) -> SoftStopChan s w' = Ok (c, w')) /\
  (forall c, HardStopChan s w = Ok (c, w) -> HardStopChan s w' = Ok (c, w')) /\
  (forall c, HasStoppedChan s w = Ok (c, w) ->
     HasStoppedChan s w' = Ok (c, w')) /\
  (forall c, signalled (chans w) c = true -> signalled (chans w') c = true).
Proof.
  intros Hrun Hos. pose proof (reachable_wf _ _ Hrun) as Hwf.
  assert (Hq : forall f, is_Some (sigs w !! s) -> true = flag f s w ->
            is_Some (sigs w' !! s) /\ flag f s w' = true).
  { intros f Hv Hf. split; [eapply run_valid; eassumption|].
    eapply run_flag_mono; eauto. }
  assert (Ha : forall f c,
            (y <- load s ;; ret (fieldChan f y)) w = Ok (c, w) ->
            (y <- load s ;; ret (fieldChan f y)) w' = Ok (c, w')).
  { intros f c H. apply accessor_Ok in H as (x & Hx & -> & _).
    destruct (run_sigs _ _ _ _ _ Hwf Hos Hx) as (x' & Hx' & Hch).
    rewrite (accessor_eq f _ _ _ Hx'), Hch. reflexivity. }
  split; [|split; [|split; [|split; [|split; [|split]]]]].
  - intros H. apply IsSoftStopSignalled_Ok in H as (Hv & Hf & _).
    destruct (Hq _ Hv Hf) as [Hv' Hf'].
    rewrite IsSoftStopSignalled_eq, Hf' by exact Hv'. reflexivity.
  - intros H. apply IsHardStopSignalled_Ok in H as (Hv & Hf & _).
    destruct (Hq _ Hv Hf) as [Hv' Hf'].
    rewrite IsHardStopSignalled_eq, Hf' by exact Hv'. reflexivity.
  - intros H. apply IsHasStoppedSignalled_Ok in H as (Hv & Hf & _).
    destruct (Hq _ Hv Hf) as [Hv' Hf'].
    rewrite IsHasStoppedSignalled_eq, Hf' by exact Hv'. reflexivity.
  - apply (Ha onSoftStop).
  - apply (Ha onHardStop).
  - apply (Ha onHasStopped).
  - intros c. eapply run_signalled; eassumption.
Qed.

Lemma flags_monotonic_witness :
  run [opNewSignaller; opTriggerSoftStop 0] empty = Ok (tt, w_soft) /\
  run [opTriggerHasStopped 0; opWithCancel Background;
       opSoftStopCtx 0 (cancelCtxRef 0); opSchedule 0;
       opTriggerHardStop 0; opNewSignaller] w_soft = Ok (tt, w_later) /\
  IsSoftStopSignalled 0 w_soft = Ok (true, w_soft) /\
  IsSoftStopSignalled 0 w_later = Ok (true, w_later).
Proof.
  assert (H0 : run [opNewSignaller; opTriggerSoftStop 0] empty
               = Ok (tt, w_soft)) by (vm_compute; reflexivity).
  assert (H1 : run [opTriggerHasStopped 0; opWithCancel Background;
                    opSoftStopCtx 0 (cancelCtxRef 0); opSchedule 0;
                    opTriggerHardStop 0; opNewSignaller] w_soft
               = Ok (tt, w_later)) by (vm_compute; reflexivity).
  assert (H2 : IsSoftStopSignalled 0 w_soft = Ok (true, w_soft))
    by (vm_compute; reflexivity).
  split; [exact H0|]. split; [exact H1|]. split; [exact H2|].
  exact (proj1 (flags_monotonic _ _ _ _ 0 H0 H1) H2).
Defined.

(** C8. Independence: on every Signaller of every world a program can
    reach, TriggerHasStopped sets the has-stopped flag and leaves the answers
    of the soft-stop and hard-stop queries as they were (false stays false);
    TriggerSoftStop and TriggerHardStop leave the answer of the has-stopped
    query as it was. *)
Theorem TriggerHasStopped_independent pre w s :
  run pre empty = Ok (tt, w) -> s < length (sigs w) ->
  (exists w', TriggerHasStopped s w = Ok (tt, w') /\
     IsHasStoppedSignalled s w' = Ok (true, w') /\
     (forall b, IsSoftStopSignalled s w = Ok (b, w) ->
        IsSoftStopSignalled s w' = Ok (b, w')) /\
     (forall b, IsHardStopSignalled s w = Ok (b, w) ->
        IsHardStopSignalled s w' = Ok (b, w'))) /\
  (exists w', TriggerSoftStop s w = Ok (tt, w') /\
     forall b, IsHasStoppedSignalled s w = Ok (b, w) ->
       IsHasStoppedSignalled s w' = Ok (b, w')) /\
  (exists w', TriggerHardStop s w = Ok (tt, w') /\
     forall b, IsHasStoppedSignalled s w = Ok (b, w) ->
       IsHasStoppedSignalled s w' = Ok (b, w')).
Proof.
  intros Hrun Hs. pose proof (reachable_wf _ _ Hrun) as Hwf.
  apply lookup_lt_is_Some in Hs.
  pose proof (mark_wf onSoftStop s w Hwf) as Hwf1.
  pose proof (mark_valid onSoftStop s w s Hs) as Hv1.
  assert (Hne : forall f g, f <> g -> flag g s (mark f s w) = flag g s w).
  { intros f g Hfg. rewrite flag_mark by assumption.
    rewrite bool_decide_eq_false_2 by (intros [_ ->]; congruence).
    apply orb_false_r. }
  split; [|split].
  - exists (mark onHasStopped s w).
    split; [apply TriggerHasStopped_eq; assumption|].
    pose proof (mark_valid onHasStopped s w s Hs) as Hv.
    split; [|split].
    + rewrite IsHasStoppedSignalled_eq, flag_mark_same by assumption.
      reflexivity.
    + intros b H. apply IsSoftStopSignalled_Ok in H as (_ & -> & _).
      rewrite IsSoftStopSignalled_eq, Hne by (assumption || discriminate).
      reflexivity.
    + intros b H. apply IsHardStopSignalled_Ok in H as (_ & -> & _).
      rewrite IsHardStopSignalled_eq, Hne by (assumption || discriminate).
      reflexivity.
  - exists (mark onSoftStop s w).
    split; [apply TriggerSoftStop_eq; assumption|].
    intros b H. apply IsHasStoppedSignalled_Ok in H as (_ & -> & _).
    rewrite IsHasStoppedSignalled_eq, Hne by (assumption || discriminate).
    reflexivity.
  - exists (mark onHardStop s (mark onSoftStop s w)).
    split; [apply TriggerHardStop_eq; assumption|].
    intros b H. apply IsHasStoppedSignalled_Ok in H as (_ & -> & _).
    rewrite IsHasStoppedSignalled_eq by (apply mark_valid; assumption).
    rewrite flag_mark by assumption.
    rewrite bool_decide_eq_false_2 by (intros [_ ?]; discriminate).
    rewrite orb_false_r, Hne by discriminate. reflexivity.
Qed.

Lemma TriggerHasStopped_independent_witness :
  run [opNewSignaller] empty = Ok (tt, w_new) /\
  0 < length (sigs w_new) /\
  exists w', TriggerHasStopped 0 w_new = Ok (tt, w') /\
    IsHasStoppedSignalled 0 w' = Ok (true, w') /\
    IsSoftStopSignalled 0 w' = Ok (false, w') /\
    IsHardStopSignalled 0 w' = Ok (false, w').
Proof.
  assert (H0 : run [opNewSignaller] empty = Ok (tt, w_new))
    by (vm_compute; reflexivity).
  assert (H1 : 0 < length (sigs w_new)) by (vm_compute; lia).
  split; [exact H0|]. split; [exact H1|].
  destruct (TriggerHasStopped_independent _ _ 0 H0 H1)
    as ((w' & Ht & Hh & Hsoft & Hhard) & _).
  exists w'. split; [exact Ht|]. split; [exact Hh|].
  split; [apply Hsoft | apply Hhard]; vm_compute; reflexivity.
Defined.

(** C10. The triggers commute: on a Signaller of a world a program can
    reach, two triggers called in either order both return and leave the
    three queries with the same answers; more generally the answers after any
    sequence of triggers are those before it, or true for the flags fired:
    soft-stop by TriggerSoftStop or TriggerHardStop, hard-stop by
    TriggerHardStop, has-stopped by TriggerHasStopped, so that two sequences
    with the same set of triggers end with the same flags. *)
Theorem triggers_commute pre w s :
  run pre empty = Ok (tt, w) -> s < length (sigs w) ->
  (forall ts, exists w',
     run (map (triggerOp s) ts) w = Ok (tt, w') /\
     IsSoftStopSignalled s w' =
       Ok (flag onSoftStop s w || bool_decide (onSoftStop ∈ ts)
             || bool_decide (onHardStop ∈ ts), w') /\
     IsHardStopSignalled s w' =
       Ok (flag onHardStop s w || bool_decide (onHardStop ∈ ts), w') /\
     IsHasStoppedSignalled s w' =
       Ok (flag onHasStopped s w || bool_decide (onHasStopped ∈ ts), w')) /\
  (forall ts1 ts2, (forall t, t ∈ ts1 <-> t ∈ ts2) ->
     exists w1 w2 soft hard stopped,
       run (map (triggerOp s) ts1) w = Ok (tt, w1) /\
       run (map (triggerOp s) ts2) w = Ok (tt, w2) /\
       IsSoftStopSignalled s w1 = Ok (soft, w1) /\
       IsSoftStopSignalled s w2 = Ok (soft, w2) /\
       IsHardStopSignalled s w1 = Ok (hard, w1) /\
       IsHardStopSignalled s w2 = Ok (hard, w2) /\
       IsHasStoppedSignalled s w1 = Ok (stopped, w1) /\
       IsHasStoppedSignalled s w2 = Ok (stopped, w2)) /\
  (forall t1 t2,
     exists w1 w2 soft hard stopped,
       run [triggerOp s t1; triggerOp s t2] w = Ok (tt, w1) /\
       run [triggerOp s t2; triggerOp s t1] w = Ok (tt, w2) /\
       IsSoftStopSignalled s w1 = Ok (soft, w1) /\
       IsSoftStopSignalled s w2 = Ok (soft, w2) /\
       IsHardStopSignalled s w1 = Ok (hard, w1) /\
       IsHardStopSignalled s w2 = Ok (hard, w2) /\
       IsHasStoppedSignalled s w1 = Ok (stopped, w1) /\
       IsHasStoppedSignalled s w2 = Ok (stopped, w2)).
Proof.
  intros Hrun Hs. pose proof (reachable_wf _ _ Hrun) as Hwf.
  apply lookup_lt_is_Some in Hs.
  assert (H1 : forall ts, exists w',
     run (map (triggerOp s) ts) w = Ok (tt, w') /\
     IsSoftStopSignalled s w' =
       Ok (flag onSoftStop s w || bool_decide (onSoftStop ∈ ts)
             || bool_decide (onHardStop ∈ ts), w') /\
     IsHardStopSignalled s w' =
       Ok (flag onHardStop s w || bool_decide (onHardStop ∈ ts), w') /\
     IsHasStoppedSignalled s w' =
       Ok (flag onHasStopped s w || bool_decide (onHasStopped ∈ ts), w')).
  { intros ts. destruct (run_triggers_total s ts w Hwf Hs) as [w' Hr].
    exists w'. split; [exact Hr|].
    pose proof (run_valid _ _ _ s Hwf Hr Hs) as Hv'.
    rewrite IsSoftStopSignalled_eq, IsHardStopSignalled_eq,
      IsHasStoppedSignalled_eq by exact Hv'.
    rewrite !(run_flag _ s _ w w' Hwf Hr), !existsb_fires_triggers.
    rewrite orb_assoc. auto. }
  assert (H2 : forall ts1 ts2, (forall t, t ∈ ts1 <-> t ∈ ts2) ->
     exists w1 w2 soft hard stopped,
       run (map (triggerOp s) ts1) w = Ok (tt, w1) /\
       run (map (triggerOp s) ts2) w = Ok (tt, w2) /\
       IsSoftStopSignalled s w1 = Ok (soft, w1) /\
       IsSoftStopSignalled s w2 = Ok (soft, w2) /\
       IsHardStopSignalled s w1 = Ok (hard, w1) /\
       IsHardStopSignalled s w2 = Ok (hard, w2) /\
       IsHasStoppedSignalled s w1 = Ok (stopped, w1) /\
       IsHasStoppedSignalled s w2 = Ok (stopped, w2)).
  { intros ts1 ts2 Hset.
    destruct (H1 ts1) as (w1 & Hr1 & Hs1 & Hh1 & Hp1).
    destruct (H1 ts2) as (w2 & Hr2 & Hs2 & Hh2 & Hp2).
    assert (Hb : forall t, bool_decide (t ∈ ts1) = bool_decide (t ∈ ts2)).
    { intros t. apply bool_decide_ext, Hset. }
    rewrite !Hb in *.
    exists w1, w2. do 3 eexists. repeat split; eassumption. }
  split; [exact H1|]. split; [exact H2|].
  intros t1 t2. apply (H2 [t1; t2] [t2; t1]).
  intros t. rewrite !elem_of_cons. tauto.
Qed.

Lemma triggers_commute_witness :
  run [opNewSignaller] empty = Ok (tt, w_new) /\
  0 < length (sigs w_new) /\
  exists w1 w2 soft hard stopped,
    run [opTriggerHardStop 0; opTriggerHasStopped 0] w_new = Ok (tt, w1) /\
    run [opTriggerHasStopped 0; opTriggerHardStop 0] w_new = Ok (tt, w2) /\
    IsSoftStopSignalled 0 w1 = Ok (soft, w1) /\
    IsSoftStopSignalled 0 w2 = Ok (soft, w2) /\
    IsHardStopSignalled 0 w1 = Ok (hard, w1) /\
    IsHardStopSignalled 0 w2 = Ok (hard, w2) /\
    IsHasStoppedSignalled 0 w1 = Ok (stopped, w1) /\
    IsHasStoppedSignalled 0 w2 = Ok (stopped, w2).
Proof.
  assert (H0 : run [opNewSignaller] empty = Ok (tt, w_new))
    by (vm_compute; reflexivity).
  assert (H1 : 0 < length (sigs w_new)) by (vm_compute; lia).
  split; [exact H0|]. split; [exact H1|].
  exact (proj2 (proj2 (triggers_commute _ _ 0 H0 H1)) onHardStop onHasStopped).
Defined.

(** ** Claims about derived contexts *)

(** C4. HardStopCtx and the two stop triggers.  Let a derived context be
    made by HardStopCtx on a Signaller of a world a program can reach.
    (1) If hard-stop is not signalled, then after a run that calls
    TriggerSoftStop, with any other steps before and after it except
    TriggerHardStop on this Signaller and the release function, the derived
    context is not cancelled as long as its parent is not.
    (2) After any run, TriggerHardStop returns, and in every world reached
    from there the derived context is cancelled or its watcher is in the pool
    with its select ready and one scheduler step of it cancels the context;
    whenever all goroutines are blocked, the context is cancelled.
    (3) After any run, the call of TriggerSoftStop itself changes neither
    whether the derived context is cancelled, nor the hard-stop flag its
    watcher waits for, nor the pool. *)
Theorem HardStopCtx_soft_then_hard pre w0 s p ctx release w1 :
  run pre empty = Ok (tt, w0) ->
  HardStopCtx s p w0 = Ok ((ctx, release), w1) ->
  s < length (sigs w0) ->
  (forall before after w2,
     IsHardStopSignalled s w0 = Ok (false, w0) ->
     forallb (quiet onHardStop s release) (before ++ after) = true ->
     run (before ++ opTriggerSoftStop s :: after) w1 = Ok (tt, w2) ->
     cancelled w2 p = false -> cancelled w2 ctx = false) /\
  (forall mid w2,
     run mid w1 = Ok (tt, w2) ->
     exists w',
       TriggerHardStop s w2 = Ok (tt, w') /\
       forall post w3, run post w' = Ok (tt, w3) ->
         (cancelled w3 ctx = true \/
          exists i w4,
            gos w3 !! i = Some (mkWatcher ctx s onHardStop release) /\
            schedule i w3 = Ok (tt, w4) /\ cancelled w4 ctx = true) /\
         (quiescent w3 -> cancelled w3 ctx = true)) /\
  (forall mid w2,
     run mid w1 = Ok (tt, w2) ->
     exists w',
       TriggerSoftStop s w2 = Ok (tt, w') /\
       cancelled w' ctx = cancelled w2 ctx /\
       flag onHardStop s w' = flag onHardStop s w2 /\
       gos w' = gos w2).
Proof.
  intros Hpre Hctx Hs. pose proof (reachable_wf _ _ Hpre) as Hwf0.
  apply lookup_lt_is_Some in Hs.
  destruct (stopCtx_scope onHardStop s p w0 _ w1 Hwf0 Hctx)
    as (d & cd & [= -> ->] & Hpar & Hsc & Hsigs & Hflag & Hlive).
  rewrite <- Hsigs in Hs. split; [|split].
  - intros before after w2 Hq Hquiet Hrun Hp.
    apply IsHardStopSignalled_Ok in Hq as (_ & Hf & _).
    assert (Hall : forallb (quiet onHardStop s (cancelOf d))
                     (before ++ opTriggerSoftStop s :: after) = true).
    { apply forallb_quiet_app; [exact Hquiet | reflexivity]. }
    destruct (live_run _ _ _ _ _ _ _ Hsc Hrun Hall) as [_ Hl].
    + congruence.
    + rewrite Hpar. exact Hlive.
    + rewrite Hpar in Hl. destruct (cancelled w2 (cancelCtxRef d)); [|reflexivity].
      rewrite Hl in Hp by reflexivity. discriminate.
  - intros mid w2 Hrun.
    pose proof (scope_run _ _ _ _ _ _ _ Hsc Hrun) as Hsc2.
    pose proof (run_valid _ _ _ s (sc_wf _ _ _ _ _ Hsc) Hrun Hs) as Hs2.
    exists (mark onHardStop s (mark onSoftStop s w2)).
    pose proof (TriggerHardStop_eq s w2 (sc_wf _ _ _ _ _ Hsc2) Hs2) as Ht.
    split; [exact Ht|]. intros post w3 Hpost.
    apply (scope_cancelled onHardStop s d cd w2 (opTriggerHardStop s) _ post w3
             Hsc2 Ht); [|exact Hpost].
    simpl. apply bool_decide_eq_true_2. reflexivity.
  - intros mid w2 Hrun.
    pose proof (run_wf _ _ _ (sc_wf _ _ _ _ _ Hsc) Hrun) as Hwf2.
    pose proof (run_valid _ _ _ s (sc_wf _ _ _ _ _ Hsc) Hrun Hs) as Hs2.
    exists (mark onSoftStop s w2).
    split; [apply TriggerSoftStop_eq; assumption|].
    split; [apply cancelled_mark, Hwf2|].
    split; [|apply mark_gos].
    rewrite flag_mark by assumption.
    rewrite bool_decide_eq_false_2 by (intros [_ ?]; discriminate).
    apply orb_false_r.
Qed.

Lemma HardStopCtx_soft_then_hard_witness :
  run [opNewSignaller; opWithCancel Background] empty = Ok (tt, w_parent) /\
  HardStopCtx 0 (cancelCtxRef 0) w_parent
    = Ok ((cancelCtxRef 1, cancelOf 1), w_hardctx) /\
  0 < length (sigs w_parent) /\
  IsHardStopSignalled 0 w_parent = Ok (false, w_parent) /\
  forallb (quiet onHardStop 0 (cancelOf 1)) ([] ++ [opSchedule 0]) = true /\
  run ([] ++ opTriggerSoftStop 0 :: [opSchedule 0]) w_hardctx
    = Ok (tt, w_hardctx_soft) /\
  cancelled w_hardctx_soft (cancelCtxRef 0) = false /\
  cancelled w_hardctx_soft (cancelCtxRef 1) = false /\
  exists w', TriggerHardStop 0 w_hardctx_soft = Ok (tt, w').
Proof.
  assert (H0 : run [opNewSignaller; opWithCancel Background] empty
               = Ok (tt, w_parent)) by (vm_compute; reflexivity).
  assert (H1 : HardStopCtx 0 (cancelCtxRef 0) w_parent
               = Ok ((cancelCtxRef 1, cancelOf 1), w_hardctx))
    by (vm_compute; reflexivity).
  assert (H2 : 0 < length (sigs w_parent)) by (vm_compute; lia).
  assert (H3 : IsHardStopSignalled 0 w_parent = Ok (false, w_parent))
    by (vm_compute; reflexivity).
  assert (H4 : forallb (quiet onHardStop 0 (cancelOf 1))
                 ([] ++ [opSchedule 0]) = true) by (vm_compute; reflexivity).
  assert (H5 : run ([] ++ opTriggerSoftStop 0 :: [opSchedule 0]) w_hardctx
               = Ok (tt, w_hardctx_soft)) by (vm_compute; reflexivity).
  assert (H6 : cancelled w_hardctx_soft (cancelCtxRef 0) = false)
    by (vm_compute; reflexivity).
  destruct (HardStopCtx_soft_then_hard _ _ _ _ _ _ _ H0 H1 H2)
    as (P1 & P2 & _).
  destruct (P2 _ _ H5) as (w' & Ht & _).
  split; [exact H0|]. split; [exact H1|]. split; [exact H2|].
  split; [exact H3|]. split; [exact H4|]. split; [exact H5|].
  split; [exact H6|].
  split; [exact (P1 _ _ _ H3 H4 H5 H6) | exists w'; exact Ht].
Defined.

(** C5. SoftStopCtx, TriggerHardStop and TriggerHasStopped.  Let a derived
    context be made by SoftStopCtx on a Signaller of a world a program can
    reach; its watcher selects on the soft-stop channel.
    (1) After any run, TriggerHardStop returns, and in every world reached
    from there the derived context is cancelled or its watcher is in the pool
    with its select ready and one scheduler step of it cancels the context;
    whenever all goroutines are blocked, the context is cancelled.
    (2) If soft-stop is not signalled, then after a run that calls
    TriggerHasStopped, with any other steps before and after it except
    TriggerSoftStop and TriggerHardStop on this Signaller and the release
    function, the derived context is not cancelled as long as its parent is
    not.
    (3) After any run, the call of TriggerHasStopped itself changes neither
    whether the derived context is cancelled, nor the soft-stop flag its
    watcher waits for, nor the pool. *)
Theorem SoftStopCtx_hard_not_has_stopped pre w0 s p ctx release w1 :
  run pre empty = Ok (tt, w0) ->
  SoftStopCtx s p w0 = Ok ((ctx, release), w1) ->
  s < length (sigs w0) ->
  (forall mid w2,
     run mid w1 = Ok (tt, w2) ->
     exists w',
       TriggerHardStop s w2 = Ok (tt, w') /\
       forall post w3, run post w' = Ok (tt, w3) ->
         (cancelled w3 ctx = true \/
          exists i w4,
            gos w3 !! i = Some (mkWatcher ctx s onSoftStop release) /\
            schedule i w3 = Ok (tt, w4) /\ cancelled w4 ctx = true) /\
         (quiescent w3 -> cancelled w3 ctx = true)) /\
  (forall before after w2,
     IsSoftStopSignalled s w0 = Ok (false, w0) ->
     forallb (quiet onSoftStop s release) (before ++ after) = true ->
     run (before ++ opTriggerHasStopped s :: after) w1 = Ok (tt, w2) ->
     cancelled w2 p = false -> cancelled w2 ctx = false) /\
  (forall mid w2,
     run mid w1 = Ok (tt, w2) ->
     exists w',
       TriggerHasStopped s w2 = Ok (tt, w') /\
       cancelled w' ctx = cancelled w2 ctx /\
       flag onSoftStop s w' = flag onSoftStop s w2 /\
       gos w' = gos w2).
Proof.
  intros Hpre Hctx Hs. pose proof (reachable_wf _ _ Hpre) as Hwf0.
  apply lookup_lt_is_Some in Hs.
  destruct (stopCtx_scope onSoftStop s p w0 _ w1 Hwf0 Hctx)
    as (d & cd & [= -> ->] & Hpar & Hsc & Hsigs & Hflag & Hlive).
  rewrite <- Hsigs in Hs. split; [|split].
  - intros mid w2 Hrun.
    pose proof (scope_run _ _ _ _ _ _ _ Hsc Hrun) as Hsc2.
    pose proof (run_valid _ _ _ s (sc_wf _ _ _ _ _ Hsc) Hrun Hs) as Hs2.
    exists (mark onHardStop s (mark onSoftStop s w2)).
    pose proof (TriggerHardStop_eq s w2 (sc_wf _ _ _ _ _ Hsc2) Hs2) as Ht.
    split; [exact Ht|]. intros post w3 Hpost.
    apply (scope_cancelled onSoftStop s d cd w2 (opTriggerHardStop s) _ post w3
             Hsc2 Ht); [|exact Hpost].
    simpl. apply bool_decide_eq_true_2. reflexivity.
  - intros before after w2 Hq Hquiet Hrun Hp.
    apply IsSoftStopSignalled_Ok in Hq as (_ & Hf & _).
    assert (Hall : forallb (quiet onSoftStop s (cancelOf d))
                     (before ++ opTriggerHasStopped s :: after) = true).
    { apply forallb_quiet_app; [exact Hquiet | reflexivity]. }
    destruct (live_run _ _ _ _ _ _ _ Hsc Hrun Hall) as [_ Hl].
    + congruence.
    + rewrite Hpar. exact Hlive.
    + rewrite Hpar in Hl. destruct (cancelled w2 (cancelCtxRef d)); [|reflexivity].
      rewrite Hl in Hp by reflexivity. discriminate.
  - intros mid w2 Hrun.
    pose proof (run_wf _ _ _ (sc_wf _ _ _ _ _ Hsc) Hrun) as Hwf2.
    pose proof (run_valid _ _ _ s (sc_wf _ _ _ _ _ Hsc) Hrun Hs) as Hs2.
    exists (mark onHasStopped s w2).
    split; [apply TriggerHasStopped_eq; assumption|].
    split; [apply cancelled_mark, Hwf2|].
    split; [|apply mark_gos].
    rewrite flag_mark by assumption.
    rewrite bool_decide_eq_false_2 by (intros [_ ?]; discriminate).
    apply orb_false_r.
Qed.

Lemma SoftStopCtx_hard_not_has_stopped_witness :
  run [opNewSignaller; opWithCancel Background] empty = Ok (tt, w_parent) /\
  SoftStopCtx 0 (cancelCtxRef 0) w_parent
    = Ok ((cancelCtxRef 1, cancelOf 1), w_softctx) /\
  0 < length (sigs w_parent) /\
  IsSoftStopSignalled 0 w_parent = Ok (false, w_parent) /\
  forallb (quiet onSoftStop 0 (cancelOf 1)) ([] ++ [opSchedule 0]) = true /\
  run ([] ++ opTriggerHasStopped 0 :: [opSchedule 0]) w_softctx
    = Ok (tt, w_softctx_stopped) /\
  cancelled w_softctx_stopped (cancelCtxRef 0) = false /\
  cancelled w_softctx_stopped (cancelCtxRef 1) = false /\
  exists w', TriggerHardStop 0 w_softctx_stopped = Ok (tt, w').
Proof.
  assert (H0 : run [opNewSignaller; opWithCancel Background] empty
               = Ok (tt, w_parent)) by (vm_compute; reflexivity).
  assert (H1 : SoftStopCtx 0 (cancelCtxRef 0) w_parent
               = Ok ((cancelCtxRef 1, cancelOf 1), w_softctx))
    by (vm_compute; reflexivity).
  assert (H2 : 0 < length (sigs w_parent)) by (vm_compute; lia).
  assert (H3 : IsSoftStopSignalled 0 w_parent = Ok (false, w_parent))
    by (vm_compute; reflexivity).
  assert (H4 : forallb (quiet onSoftStop 0 (cancelOf 1))
                 ([] ++ [opSchedule 0]) = true) by (vm_compute; reflexivity).
  assert (H5 : run ([] ++ opTriggerHasStopped 0 :: [opSchedule 0]) w_softctx
               = Ok (tt, w_softctx_stopped)) by (vm_compute; reflexivity).
  assert (H6 : cancelled w_softctx_stopped (cancelCtxRef 0) = false)
    by (vm_compute; reflexivity).
  destruct (SoftStopCtx_hard_not_has_stopped _ _ _ _ _ _ _ H0 H1 H2)
    as (P1 & P2 & _).
  destruct (P1 _ _ H5) as (w' & Ht & _).
  split; [exact H0|]. split; [exact H1|]. split; [exact H2|].
  split; [exact H3|]. split; [exact H4|]. split; [exact H5|].
  split; [exact H6|].
  split; [exact (P2 _ _ _ H3 H4 H5 H6) | exists w'; exact Ht].
Defined.

(** C9. The release function: for the context and release function returned
    by SoftStopCtx, HardStopCtx or HasStoppedCtx in a world a program can
    reach, and after any run from there (parent cancelled, triggers, watcher
    steps, earlier releases or none of these), calling release returns
    without panic; the context is cancelled afterwards; the parent is
    cancelled exactly if it was before; no flag of any Signaller changes; if
    the context was cancelled already the world is unchanged; and any number
    of further calls of release return and change nothing. *)
Theorem release_idempotent pre w0 s p ctx release w1 mid w2 :
  run pre empty = Ok (tt, w0) ->
  SoftStopCtx s p w0 = Ok ((ctx, release), w1) \/
  HardStopCtx s p w0 = Ok ((ctx, release), w1) \/
  HasStoppedCtx s p w0 = Ok ((ctx, release), w1) ->
  run mid w1 = Ok (tt, w2) ->
  exists w3,
    call release w2 = Ok (tt, w3) /\
    cancelled w3 ctx = true /\
    cancelled w3 p = cancelled w2 p /\
    (forall f s', flag f s' w3 = flag f s' w2) /\
    (cancelled w2 ctx = true -> w3 = w2) /\
    forall n, run (replicate n (opCall release)) w3 = Ok (tt, w3).
Proof.
  intros Hpre Hctx Hrun. pose proof (reachable_wf _ _ Hpre) as Hwf0.
  assert (exists f d cd, ctx = cancelCtxRef d /\ release = cancelOf d /\
            parent cd = p /\ scope f s d cd w1)
    as (f & d & cd & -> & -> & Hpar & Hsc).
  { destruct Hctx as [H | [H | H]];
      [ destruct (stopCtx_scope onSoftStop s p w0 _ w1 Hwf0 H)
          as (d & cd & [= -> ->] & Hpar & Hsc & _)
      | destruct (stopCtx_scope onHardStop s p w0 _ w1 Hwf0 H)
          as (d & cd & [= -> ->] & Hpar & Hsc & _)
      | destruct (stopCtx_scope onHasStopped s p w0 _ w1 Hwf0 H)
          as (d & cd & [= -> ->] & Hpar & Hsc & _) ];
      eauto 10. }
  destruct (scope_run _ _ _ _ _ _ _ Hsc Hrun) as [Hwf2 Hd _ _].
  destruct (cancel_total d w2 (lookup_lt_Some _ _ _ Hd)) as [w3 Hc].
  pose proof (cancel_Ok _ _ _ Hwf2 Hc) as Hpost.
  assert (Hcan : cancelled w3 (cancelCtxRef d) = true).
  { unfold cancelled. rewrite (cp_ctxs _ _ _ Hpost), Hd.
    eapply cp_self; eassumption. }
  exists w3. split; [exact Hc|]. split; [exact Hcan|].
  split; [rewrite <- Hpar; eapply cancel_parent; eassumption|].
  split; [intros f' s'; eapply flag_cancel; eassumption|].
  split; [apply (cp_again _ _ _ Hpost)|].
  intros n. apply run_release_again, Hcan.
Qed.

Lemma release_idempotent_witness :
  run [opNewSignaller; opWithCancel Background] empty = Ok (tt, w_parent) /\
  SoftStopCtx 0 (cancelCtxRef 0) w_parent
    = Ok ((cancelCtxRef 1, cancelOf 1), w_softctx) /\
  run [opTriggerSoftStop 0; opSchedule 0; opCall (cancelOf 1)] w_softctx
    = Ok (tt, w_softctx_released) /\
  exists w3,
    call (cancelOf 1) w_softctx_released = Ok (tt, w3) /\
    cancelled w3 (cancelCtxRef 1) = true /\
    cancelled w3 (cancelCtxRef 0)
      = cancelled w_softctx_released (cancelCtxRef 0) /\
    run (replicate 2 (opCall (cancelOf 1))) w3 = Ok (tt, w3).
Proof.
  assert (H0 : run [opNewSignaller; opWithCancel Background] empty
               = Ok (tt, w_parent)) by (vm_compute; reflexivity).
  assert (H1 : SoftStopCtx 0 (cancelCtxRef 0) w_parent
               = Ok ((cancelCtxRef 1, cancelOf 1), w_softctx))
    by (vm_compute; reflexivity).
  assert (H2 : run [opTriggerSoftStop 0; opSchedule 0; opCall (cancelOf 1)]
                 w_softctx = Ok (tt, w_softctx_released))
    by (vm_compute; reflexivity).
  destruct (release_idempotent _ _ _ _ _ _ _ _ _ H0 (or_introl H1) H2)
    as (w3 & Hc & Hcan & Hp & _ & _ & Hn).
  split; [exact H0|]. split; [exact H1|]. split; [exact H2|].
  exists w3. split; [exact Hc|]. split; [exact Hcan|]. split; [exact Hp|].
  apply Hn.
Defined.


(** * Further properties of the code *)

(** ** Helpers *)

Lemma derives_stopCtx f s p w0 ctx release w1 :
  derives f s p w0 ctx release w1 <->
  stopCtx f s p w0 = Ok ((ctx, release), w1).
Proof. destruct f; reflexivity. Qed.

Lemma run_app os1 os2 w w2 :
  run (os1 ++ os2) w = Ok (tt, w2) <->
  exists w1, run os1 w = Ok (tt, w1) /\ run os2 w1 = Ok (tt, w2).
Proof.
  revert w. induction os1 as [|o os1 IH]; intros w.
  - simpl. split; [eauto|]. intros (w1 & [= <-] & H). exact H.
  - change ((o :: os1) ++ os2) with (o :: (os1 ++ os2)).
    rewrite run_cons. split.
    + intros (w0 & Ho & (w1 & H1 & H2)%IH). exists w1.
      split; [apply run_cons; exists w0; split; [exact Ho | exact H1]
             | exact H2].
    + intros (w1 & (w0 & Ho & H1)%run_cons & H2). exists w0.
      split; [exact Ho|].
      apply IH. exists w1. split; [exact H1 | exact H2].
Qed.

Lemma exec_stopCtxOp f s p w ctx release w' :
  derives f s p w ctx release w' -> exec (stopCtxOp f s p) w = Ok (tt, w').
Proof.
  intros H. destruct f; simpl in *; unfold skip, bind; rewrite H; reflexivity.
Qed.

Lemma is_call_stopCtxOp r f s p : is_call r (stopCtxOp f s p) = false.
Proof. destruct f; reflexivity. Qed.

(** A run, a constructor call and a further run, as one run. *)
Lemma run_derives os1 f s p ctx release os2 w w1 w2 w3 :
  run os1 w = Ok (tt, w1) -> derives f s p w1 ctx release w2 ->
  run os2 w2 = Ok (tt, w3) ->
  run (os1 ++ stopCtxOp f s p :: os2) w = Ok (tt, w3).
Proof.
  intros H1 Hd H2. apply run_app. exists w1. split; [exact H1|].
  apply run_cons. exists w2. split; [|exact H2].
  eapply exec_stopCtxOp, Hd.
Qed.


Lemma quiet_all f s r os :
  existsb (fires f s) os = false -> existsb (is_call r) os = false ->
  forallb (quiet f s r) os = true.
Proof.
  induction os as [|o os IH]; simpl; [reflexivity|].
  intros [H1 H2]%orb_false_iff [H3 H4]%orb_false_iff.
  unfold quiet at 1. rewrite H1, H3, IH by assumption. reflexivity.
Qed.

Lemma query_flag f s w :
  is_Some (sigs w !! s) -> query f s w = Ok (flag f s w, w).
Proof.
  intros Hv. destruct f; simpl;
    [apply IsSoftStopSignalled_eq | apply IsHardStopSignalled_eq
    | apply IsHasStoppedSignalled_eq]; exact Hv.
Qed.

Lemma query_inv f s w b w' :
  query f s w = Ok (b, w') ->
  is_Some (sigs w !! s) /\ b = flag f s w /\ w' = w.
Proof.
  intros H. destruct f;
    [exact (query_Ok onSoftStop s w b w' H)
    | exact (query_Ok onHardStop s w b w' H)
    | exact (query_Ok onHasStopped s w b w' H)].
Qed.

Lemma accessor_field f s w x :
  sigs w !! s = Some x -> accessor f s w = Ok (fieldChan f x, w).
Proof.
  intros Hx. destruct f;
    [exact (accessor_eq onSoftStop s w x Hx)
    | exact (accessor_eq onHardStop s w x Hx)
    | exact (accessor_eq onHasStopped s w x Hx)].
Qed.

Lemma accessor_inv f s w c w' :
  accessor f s w = Ok (c, w') ->
  exists x, sigs w !! s = Some x /\ c = fieldChan f x /\ w' = w.
Proof.
  intros H. destruct f;
    [exact (accessor_Ok onSoftStop s w c w' H)
    | exact (accessor_Ok onHardStop s w c w' H)
    | exact (accessor_Ok onHasStopped s w c w' H)].
Qed.

Lemma trigger_triggered f s w :
  wf w -> is_Some (sigs w !! s) ->
  trigger f s w = Ok (tt, triggered f s w).
Proof.
  intros Hwf Hv. destruct f; simpl;
    [apply TriggerSoftStop_eq | apply TriggerHardStop_eq
    | apply TriggerHasStopped_eq]; assumption.
Qed.

Lemma triggered_wf f s w : wf w -> wf (triggered f s w).
Proof. intros Hwf. destruct f; simpl; auto with shutdown. Qed.

Lemma triggered_valid f s w s' :
  is_Some (sigs w !! s') -> is_Some (sigs (triggered f s w) !! s').
Proof. intros Hv. destruct f; simpl; auto with shutdown. Qed.

Lemma exec_triggerOp s t : exec (triggerOp s t) = trigger t s.
Proof. destruct t; reflexivity. Qed.

(** A derived context made later keeps the invariant of an earlier one. *)
Lemma scope_derives f0 s0 d cd f s p w ctx release w' :
  scope f0 s0 d cd w -> derives f s p w ctx release w' ->
  scope f0 s0 d cd w'.
Proof.
  intros Hsc H. apply derives_stopCtx in H.
  apply stopCtx_Ok in H as (_ & -> & Hp).
  destruct f.
  - apply (scope_effect _ _ _ _ (opSoftStopCtx s p) w); [exact Hsc|].
    simpl. auto.
  - apply (scope_effect _ _ _ _ (opHardStopCtx s p) w); [exact Hsc|].
    simpl. auto.
  - apply (scope_effect _ _ _ _ (opHasStoppedCtx s p) w); [exact Hsc|].
    simpl. auto.
Qed.

(** What is known of a derived context after any run. *)
Lemma derives_scope pre w0 f s p ctx release w1 mid w2 :
  run pre empty = Ok (tt, w0) -> derives f s p w0 ctx release w1 ->
  run mid w1 = Ok (tt, w2) ->
  exists d cd,
    ctx = cancelCtxRef d /\ release = cancelOf d /\ parent cd = p /\
    d = length (ctxs w0) /\
    scope f s d cd w1 /\ scope f s d cd w2 /\
    sigs w1 = sigs w0 /\ flag f s w1 = flag f s w0 /\
    (cancelled w1 (cancelCtxRef d) = true -> cancelled w1 p = true).
Proof.
  intros Hpre H Hmid. pose proof (reachable_wf _ _ Hpre) as Hwf0.
  apply derives_stopCtx in H. pose proof H as H'.
  apply stopCtx_Ok in H' as ([= -> ->] & _ & _).
  destruct (stopCtx_scope f s p w0 _ w1 Hwf0 H)
    as (d & cd & [= <-] & Hpar & Hsc & Hsigs & Hflag & Hlive).
  exists (length (ctxs w0)), cd.
  split; [reflexivity|]. split; [reflexivity|]. split; [exact Hpar|].
  split; [reflexivity|]. split; [exact Hsc|].
  split; [exact (scope_run _ _ _ _ _ _ _ Hsc Hmid)|].
  split; [exact Hsigs|]. split; [exact Hflag | exact Hlive].
Qed.

(** Why a derived context is cancelled after a run. *)
Lemma scope_why f s d cd w os w' :
  scope f s d cd w -> run os w = Ok (tt, w') ->
  (cancelled w (cancelCtxRef d) = true -> cancelled w (parent cd) = true) ->
  cancelled w' (cancelCtxRef d) = true ->
  cancelled w' (parent cd) = true \/
  existsb (is_call (cancelOf d)) os = true \/
  flag f s w' = true.
Proof.
  intros Hsc Hrun Hlive Hc.
  destruct (flag f s w') eqn:Hf2; [auto|].
  destruct (existsb (is_call (cancelOf d)) os) eqn:Hcall; [auto|].
  left.
  pose proof (run_flag f s _ _ _ (sc_wf _ _ _ _ _ Hsc) Hrun) as Hfl.
  rewrite Hf2 in Hfl. symmetry in Hfl.
  apply orb_false_iff in Hfl as [Hf1 Hfires].
  destruct (live_run _ _ _ _ _ _ _ Hsc Hrun (quiet_all _ _ _ _ Hfires Hcall)
              Hf1 Hlive) as [_ Hl].
  exact (Hl Hc).
Qed.

(** A context of a well-formed world is cancelled if its parent is. *)
Lemma cancelled_follows w d cd :
  wf w -> ctxs w !! d = Some cd ->
  cancelled w (parent cd) = true -> cancelled w (cancelCtxRef d) = true.
Proof.
  intros Hwf Hl Hp. rewrite (cancelled_lookup _ _ _ Hl).
  apply (wf_propagated _ Hwf d cd Hl).
  rewrite parentClosed_cancelled. exact Hp.
Qed.

(** ** Derived contexts *)

(** X1. The context of HasStoppedCtx follows the has-stopped flag only:
    for the context and release function HasStoppedCtx returns in a world a
    program can reach, on a Signaller of that world,
    (1) after any run, TriggerHasStopped returns, and in every world reached
    from there the derived context is cancelled or its watcher is in the pool
    and one scheduler step of it cancels the context; whenever all goroutines
    are blocked, the context is cancelled;
    (2) if has-stopped is not signalled, then after a run that calls
    TriggerSoftStop and TriggerHardStop, with any other steps before and
    after them except TriggerHasStopped on this Signaller and the release
    function, the derived context is not cancelled as long as its parent is
    not. *)
Theorem HasStoppedCtx_triggers pre w0 s p ctx release w1 :
  run pre empty = Ok (tt, w0) ->
  HasStoppedCtx s p w0 = Ok ((ctx, release), w1) ->
  s < length (sigs w0) ->
  (forall mid w2,
     run mid w1 = Ok (tt, w2) ->
     exists w',
       TriggerHasStopped s w2 = Ok (tt, w') /\
       forall post w3, run post w' = Ok (tt, w3) ->
         (cancelled w3 ctx = true \/
          exists i w4,
            gos w3 !! i = Some (mkWatcher ctx s onHasStopped release) /\
            schedule i w3 = Ok (tt, w4) /\ cancelled w4 ctx = true) /\
         (quiescent w3 -> cancelled w3 ctx = true)) /\
  (forall before after w2,
     IsHasStoppedSignalled s w0 = Ok (false, w0) ->
     forallb (quiet onHasStopped s release) (before ++ after) = true ->
     run (before ++ opTriggerSoftStop s :: opTriggerHardStop s :: after) w1
       = Ok (tt, w2) ->
     cancelled w2 p = false -> cancelled w2 ctx = false).
Proof.
  intros Hpre Hctx Hs. pose proof (reachable_wf _ _ Hpre) as Hwf0.
  apply lookup_lt_is_Some in Hs.
  destruct (stopCtx_scope onHasStopped s p w0 _ w1 Hwf0 Hctx)
    as (d & cd & [= -> ->] & Hpar & Hsc & Hsigs & Hflag & Hlive).
  rewrite <- Hsigs in Hs. split.
  - intros mid w2 Hrun.
    pose proof (scope_run _ _ _ _ _ _ _ Hsc Hrun) as Hsc2.
    pose proof (run_valid _ _ _ s (sc_wf _ _ _ _ _ Hsc) Hrun Hs) as Hs2.
    exists (mark onHasStopped s w2).
    pose proof (TriggerHasStopped_eq s w2 (sc_wf _ _ _ _ _ Hsc2) Hs2) as Ht.
    split; [exact Ht|]. intros post w3 Hpost.
    apply (scope_cancelled onHasStopped s d cd w2 (opTriggerHasStopped s) _
             post w3 Hsc2 Ht); [|exact Hpost].
    simpl. apply bool_decide_eq_true_2. reflexivity.
  - intros before after w2 Hq Hquiet Hrun Hp.
    apply IsHasStoppedSignalled_Ok in Hq as (_ & Hf & _).
    assert (Hall : forallb (quiet onHasStopped s (cancelOf d))
                     (before ++ opTriggerSoftStop s :: opTriggerHardStop s
                        :: after) = true).
    { apply forallb_quiet_app; [|reflexivity].
      apply forallb_quiet_app; [exact Hquiet | reflexivity]. }
    destruct (live_run _ _ _ _ _ _ _ Hsc Hrun Hall) as [_ Hl].
    + congruence.
    + rewrite Hpar. exact Hlive.
    + rewrite Hpar in Hl.
      destruct (cancelled w2 (cancelCtxRef d)); [|reflexivity].
      rewrite Hl in Hp by reflexivity. discriminate.
Qed.

Lemma HasStoppedCtx_triggers_witness :
  run [opNewSignaller; opWithCancel Background] empty = Ok (tt, w_parent) /\
  HasStoppedCtx 0 (cancelCtxRef 0) w_parent
    = Ok ((cancelCtxRef 1, cancelOf 1), w_hasctx) /\
  0 < length (sigs w_parent) /\
  IsHasStoppedSignalled 0 w_parent = Ok (false, w_parent) /\
  forallb (quiet onHasStopped 0 (cancelOf 1)) ([] ++ [opSchedule 0]) = true /\
  run ([] ++ opTriggerSoftStop 0 :: opTriggerHardStop 0 :: [opSchedule 0])
      w_hasctx = Ok (tt, w_hasctx_stops) /\
  cancelled w_hasctx_stops (cancelCtxRef 0) = false /\
  cancelled w_hasctx_stops (cancelCtxRef 1) = false /\
  exists w', TriggerHasStopped 0 w_hasctx_stops = Ok (tt, w').
Proof.
  assert (H0 : run [opNewSignaller; opWithCancel Background] empty
               = Ok (tt, w_parent)) by (vm_compute; reflexivity).
  assert (H1 : HasStoppedCtx 0 (cancelCtxRef 0) w_parent
               = Ok ((cancelCtxRef 1, cancelOf 1), w_hasctx))
    by (vm_compute; reflexivity).
  assert (H2 : 0 < length (sigs w_parent)) by (vm_compute; lia).
  assert (H3 : IsHasStoppedSignalled 0 w_parent = Ok (false, w_parent))
    by (vm_compute; reflexivity).
  assert (H4 : forallb (quiet onHasStopped 0 (cancelOf 1))
                 ([] ++ [opSchedule 0]) = true) by (vm_compute; reflexivity).
  assert (H5 : run ([] ++ opTriggerSoftStop 0 :: opTriggerHardStop 0
                       :: [opSchedule 0]) w_hasctx
               = Ok (tt, w_hasctx_stops)) by (vm_compute; reflexivity).
  assert (H6 : cancelled w_hasctx_stops (cancelCtxRef 0) = false)
    by (vm_compute; reflexivity).
  destruct (HasStoppedCtx_triggers _ _ _ _ _ _ _ H0 H1 H2) as (P1 & P2).
  destruct (P1 _ _ H5) as (w' & Ht & _).
  split; [exact H0|]. split; [exact H1|]. split; [exact H2|].
  split; [exact H3|]. split; [exact H4|]. split; [exact H5|].
  split; [exact H6|].
  split; [exact (P2 _ _ _ H3 H4 H5 H6) | exists w'; exact Ht].
Defined.






Lemma watch_cancelled f s d cd w :
  ctxs w !! d = Some cd -> is_Some (sigs w !! s) ->
  cancelled w (cancelCtxRef d) = true ->
  watch (watcherOf f s d) w = Ok (true, w).
Proof.
  intros Hd [x Hx] Hc. rewrite (cancelled_lookup _ _ _ Hd) in Hc.
  unfold watch, bind, Done, load, ready. simpl. rewrite Hd, Hx, Hc. simpl.
  unfold cancel. rewrite Hd, Hc. reflexivity.
Qed.

(** X4. The watcher goroutine of a derived context: for the context and
    release function returned by SoftStopCtx, HardStopCtx or HasStoppedCtx
    in a world a program can reach, on a Signaller of that world, after any
    run: while the context is not cancelled its goroutine is in the pool;
    once it is cancelled (by its parent, by the release function or by the
    flag), every step of its goroutine returns from the select, changes
    neither channels, Signallers nor contexts, and leaves the pool; and
    when all goroutines are blocked, the goroutine is gone. *)
Theorem watcher_exits pre w0 f s p ctx release w1 mid w2 :
  run pre empty = Ok (tt, w0) ->
  derives f s p w0 ctx release w1 ->
  s < length (sigs w0) ->
  run mid w1 = Ok (tt, w2) ->
  (cancelled w2 ctx = false -> mkWatcher ctx s f release ∈ gos w2) /\
  (cancelled w2 ctx = true ->
     (forall i, gos w2 !! i = Some (mkWatcher ctx s f release) ->
        schedule i w2 = Ok (tt, set_gos (delete i (gos w2)) w2)) /\
     (quiescent w2 -> mkWatcher ctx s f release ∉ gos w2)).
Proof.
  intros Hpre Hd Hs Hrun.
  destruct (derives_scope _ _ _ _ _ _ _ _ _ _ Hpre Hd Hrun)
    as (d & cd & -> & -> & Hpar & _ & Hsc & Hsc2 & Hsigs & _).
  apply lookup_lt_is_Some in Hs. rewrite <- Hsigs in Hs.
  pose proof (run_valid _ _ _ s (sc_wf _ _ _ _ _ Hsc) Hrun Hs) as Hs2.
  destruct Hsc2 as [Hwf2 Hcd _ Hpool]. split.
  - intros Hc. destruct Hpool as [Hc'|Hin]; [congruence | exact Hin].
  - intros Hc.
    pose proof (watch_cancelled f s d cd w2 Hcd Hs2 Hc) as Hw. split.
    + intros i Hi. unfold schedule. rewrite Hi. unfold bind.
      change (mkWatcher (cancelCtxRef d) s f (cancelOf d))
        with (watcherOf f s d).
      rewrite Hw. reflexivity.
    + intros Hq Hin. specialize (Hq _ Hin).
      change (mkWatcher (cancelCtxRef d) s f (cancelOf d))
        with (watcherOf f s d) in Hq.
      rewrite Hw in Hq. discriminate.
Qed.

Lemma watcher_exits_witness :
  run [opNewSignaller; opWithCancel Background] empty = Ok (tt, w_parent) /\
  derives onSoftStop 0 (cancelCtxRef 0) w_parent
    (cancelCtxRef 1) (cancelOf 1) w_softctx /\
  0 < length (sigs w_parent) /\
  run [opCall (cancelOf 1)] w_softctx = Ok (tt, w_softctx_cut) /\
  cancelled w_softctx_cut (cancelCtxRef 1) = true /\
  gos w_softctx_cut !! 0
    = Some (mkWatcher (cancelCtxRef 1) 0 onSoftStop (cancelOf 1)) /\
  schedule 0 w_softctx_cut
    = Ok (tt, set_gos (delete 0 (gos w_softctx_cut)) w_softctx_cut).
Proof.
  assert (H0 : run [opNewSignaller; opWithCancel Background] empty
               = Ok (tt, w_parent)) by (vm_compute; reflexivity).
  assert (H1 : derives onSoftStop 0 (cancelCtxRef 0) w_parent
                 (cancelCtxRef 1) (cancelOf 1) w_softctx)
    by (vm_compute; reflexivity).
  assert (H2 : 0 < length (sigs w_parent)) by (vm_compute; lia).
  assert (H3 : run [opCall (cancelOf 1)] w_softctx = Ok (tt, w_softctx_cut))
    by (vm_compute; reflexivity).
  assert (H4 : cancelled w_softctx_cut (cancelCtxRef 1) = true)
    by (vm_compute; reflexivity).
  assert (H5 : gos w_softctx_cut !! 0
               = Some (mkWatcher (cancelCtxRef 1) 0 onSoftStop (cancelOf 1)))
    by (vm_compute; reflexivity).
  split; [exact H0|]. split; [exact H1|]. split; [exact H2|].
  split; [exact H3|]. split; [exact H4|]. split; [exact H5|].
  exact (proj1 (proj2 (watcher_exits _ _ _ _ _ _ _ _ _ _ H0 H1 H2 H3) H4)
           0 H5).
Defined.



(** X6. When the constructors return: in any world, SoftStopCtx, HardStopCtx
    and HasStoppedCtx return for every parent that is Background or a
    context of the store, whatever the flags; they return a context that
    was not in the store before and its cancel function, start exactly one
    goroutine, which holds that context and cancel function, and leave the
    Signallers, the other contexts and the other goroutines as they were.
    With a nil parent each of them panics as context.WithCancel does. *)
Theorem constructors_return f s p w :
  (known w p ->
   exists ctx release w1,
     derives f s p w ctx release w1 /\
     ctx = cancelCtxRef (length (ctxs w)) /\
     release = cancelOf (length (ctxs w)) /\
     sigs w1 = sigs w /\
     ctxs w1 = ctxs w ++ [mkCancelCtx p (Some (length (chans w)))] /\
     gos w1 = gos w ++ [mkWatcher ctx s f release]) /\
  (p = nilContext ->
   SoftStopCtx s p w = Panic NilParentContext /\
   HardStopCtx s p w = Panic NilParentContext /\
   HasStoppedCtx s p w = Panic NilParentContext).
Proof.
  split.
  - intros Hp. destruct (stopCtx_total f s p w Hp) as ([ctx release] & w1 & H).
    pose proof H as H'. apply stopCtx_Ok in H' as ([= -> ->] & -> & _).
    eexists _, _, _. split; [apply derives_stopCtx; exact H|].
    repeat split.
  - intros ->. repeat split.
Qed.

Lemma constructors_return_witness :
  known w_parent (cancelCtxRef 0) /\
  exists ctx release w1,
    derives onHardStop 0 (cancelCtxRef 0) w_parent ctx release w1 /\
    gos w1 = gos w_parent ++ [mkWatcher ctx 0 onHardStop release].
Proof.
  assert (H0 : known w_parent (cancelCtxRef 0)) by (vm_compute; lia).
  split; [exact H0|].
  destruct (proj1 (constructors_return onHardStop 0 (cancelCtxRef 0) w_parent)
              H0) as (ctx & release & w1 & Hd & _ & _ & _ & _ & Hg).
  exists ctx, release, w1. split; [exact Hd | exact Hg].
Defined.

(** ** Flags, channels and Onces *)

(** X7. What a flag is after any run: for a Signaller of a world a program
    can reach and any run from there (triggers, queries and accessors on any
    Signaller, NewSignaller, the three constructors, WithCancel, cancel
    functions, scheduler steps), the query of a flag returns afterwards
    what it returned before, or true if the run held a trigger of that flag
    on that Signaller (TriggerHardStop counting for soft-stop too).  So no
    call on another Signaller, no other trigger, no constructor, no cancel
    function and no watcher goroutine changes a flag. *)
Theorem flag_after_run pre w os w' f s :
  run pre empty = Ok (tt, w) ->
  run os w = Ok (tt, w') ->
  s < length (sigs w) ->
  exists b,
    query f s w = Ok (b, w) /\
    query f s w' = Ok (b || existsb (fires f s) os, w').
Proof.
  intros Hpre Hrun Hs. pose proof (reachable_wf _ _ Hpre) as Hwf.
  apply lookup_lt_is_Some in Hs.
  exists (flag f s w). split; [apply query_flag, Hs|].
  rewrite <- (run_flag f s os w w' Hwf Hrun).
  apply query_flag. eapply run_valid; eassumption.
Qed.

Lemma flag_after_run_witness :
  run [opNewSignaller] empty = Ok (tt, w_new) /\
  run [opNewSignaller; opTriggerHardStop 1; opWithCancel Background;
       opSoftStopCtx 1 (cancelCtxRef 0); opCall (cancelOf 0); opSchedule 0]
      w_new = Ok (tt, w_busy) /\
  0 < length (sigs w_new) /\
  query onSoftStop 0 w_busy = Ok (false, w_busy).
Proof.
  assert (H0 : run [opNewSignaller] empty = Ok (tt, w_new))
    by (vm_compute; reflexivity).
  assert (H1 : run [opNewSignaller; opTriggerHardStop 1;
                    opWithCancel Background;
                    opSoftStopCtx 1 (cancelCtxRef 0); opCall (cancelOf 0);
                    opSchedule 0] w_new = Ok (tt, w_busy))
    by (vm_compute; reflexivity).
  assert (H2 : 0 < length (sigs w_new)) by (vm_compute; lia).
  split; [exact H0|]. split; [exact H1|]. split; [exact H2|].
  destruct (flag_after_run _ _ _ _ onSoftStop 0 H0 H1 H2) as (b & Hb & Hq).
  assert (Hb' : query onSoftStop 0 w_new = Ok (false, w_new))
    by (vm_compute; reflexivity).
  rewrite Hb' in Hb. injection Hb as <-. exact Hq.
Defined.

(** X8. NewSignaller makes a fresh Signaller: in a world a program can
    reach, NewSignaller returns a pointer that no Signaller of the world
    has; on it the three queries return false; each of its three accessors
    returns a channel that is not nil and was not in the world before; and
    for every Signaller that was there, the queries and the accessors return
    what they returned before; no context is cancelled by it and no
    goroutine is started. *)
Theorem NewSignaller_fresh pre w :
  run pre empty = Ok (tt, w) ->
  exists s w',
    NewSignaller w = Ok (s, w') /\
    sigs w !! s = None /\
    queries s w' = Ok ((false, false, false), w') /\
    (forall f, exists c,
       accessor f s w' = Ok (c, w') /\
       valid (chans w') c /\ ~ valid (chans w) c) /\
    (forall f s0 b, query f s0 w = Ok (b, w) -> query f s0 w' = Ok (b, w')) /\
    (forall f s0 c,
       accessor f s0 w = Ok (c, w) -> accessor f s0 w' = Ok (c, w')) /\
    (forall ctx, cancelled w' ctx = cancelled w ctx) /\
    gos w' = gos w.
Proof.
  intros Hpre. pose proof (reachable_wf _ _ Hpre) as Hwf.
  exists (length (sigs w)), (born w).
  assert (Hnew : sigs (born w) !! length (sigs w) =
            Some (mkSignaller (Some (length (chans w))) false
                    (Some (S (length (chans w)))) false
                    (Some (S (S (length (chans w))))) false)).
  { unfold born. simpl. rewrite lookup_app_r by lia.
    rewrite Nat.sub_diag. reflexivity. }
  assert (Hfl : forall f s0, flag f s0 (born w) = flag f s0 w).
  { intros f s0. apply flag_born, Hwf. }
  assert (Hno : forall f, flag f (length (sigs w)) w = false).
  { intros f. unfold flag. rewrite lookup_ge_None_2 by lia. reflexivity. }
  split; [apply NewSignaller_eq|].
  split; [apply lookup_ge_None_2; lia|].
  split; [|split; [|split; [|split; [|split]]]].
  - unfold queries, bind.
    rewrite IsSoftStopSignalled_eq, IsHardStopSignalled_eq,
      IsHasStoppedSignalled_eq by eauto.
    rewrite !Hfl, !Hno. reflexivity.
  - intros f. eexists. split; [apply (accessor_field f _ _ _ Hnew)|].
    unfold valid, born. simpl. rewrite length_app. simpl.
    split.
    + destruct f; simpl; eexists; (split; [reflexivity | lia]).
    + intros (n & Hn & Hlt). destruct f; simpl in Hn;
        injection Hn as <-; lia.
  - intros f s0 b H. apply query_inv in H as (Hv & -> & _).
    rewrite <- Hfl. apply query_flag.
    destruct Hv as [x Hx]. exists x. unfold born. simpl.
    apply lookup_app_l_Some, Hx.
  - intros f s0 c H. apply accessor_inv in H as (x & Hx & -> & _).
    apply accessor_field. unfold born. simpl.
    apply lookup_app_l_Some, Hx.
  - intros ctx. apply cancelled_born, Hwf.
  - reflexivity.
Qed.

Lemma NewSignaller_fresh_witness :
  run [opNewSignaller; opTriggerHardStop 0] empty = Ok (tt, w_hard) /\
  exists s w',
    NewSignaller w_hard = Ok (s, w') /\
    queries s w' = Ok ((false, false, false), w') /\
    query onHardStop 0 w' = Ok (true, w').
Proof.
  assert (H0 : run [opNewSignaller; opTriggerHardStop 0] empty
               = Ok (tt, w_hard)) by (vm_compute; reflexivity).
  assert (H1 : query onHardStop 0 w_hard = Ok (true, w_hard))
    by (vm_compute; reflexivity).
  split; [exact H0|].
  destruct (NewSignaller_fresh _ _ H0)
    as (s & w' & Hn & _ & Hq & _ & Hold & _).
  exists s, w'. split; [exact Hn|]. split; [exact Hq|].
  exact (Hold onHardStop 0 true H1).
Defined.

(** X9. The channels of the Signallers are their own: in a world a program
    can reach, the channel an accessor returns is not nil, is returned by
    no other accessor of the same Signaller and by no accessor of another
    Signaller, and is the Done channel of no context: closing it signals
    exactly one flag of one Signaller and cancels nothing. *)
Theorem channels_distinct pre w s s' f f' c c' :
  run pre empty = Ok (tt, w) ->
  accessor f s w = Ok (c, w) ->
  accessor f' s' w = Ok (c', w) ->
  valid (chans w) c /\
  (c = c' -> s = s' /\ f = f') /\
  (forall ctx d, Done ctx w = Ok (d, w) -> c <> d).
Proof.
  intros Hpre H H'. pose proof (reachable_wf _ _ Hpre) as Hwf.
  apply accessor_inv in H as (x & Hx & -> & _).
  apply accessor_inv in H' as (x' & Hx' & -> & _).
  pose proof (wf_sig_valid _ Hwf s x f Hx) as Hv.
  split; [exact Hv|]. split.
  - apply (wf_sig_inj _ Hwf s s' x x' f f' Hx Hx').
  - intros ctx d Hd. apply Done_Ok in Hd as (_ & _ & Hd).
    destruct ctx as [| |id]; [destruct Hd | |].
    + subst d. destruct Hv as (n & -> & _). discriminate.
    + destruct Hd as (cd & Hcd & ->).
      apply (wf_sig_ctx _ Hwf s x f id cd Hx Hcd).
Qed.

Lemma channels_distinct_witness :
  run [opNewSignaller; opTriggerHardStop 0; opNewSignaller] empty
    = Ok (tt, w_two) /\
  accessor onSoftStop 0 w_two = Ok (Some 0, w_two) /\
  accessor onHasStopped 1 w_two = Ok (Some 5, w_two) /\
  valid (chans w_two) (Some 0) /\
  (Some 0 = Some 5 -> 0 = 1 /\ onSoftStop = onHasStopped).
Proof.
  assert (H0 : run [opNewSignaller; opTriggerHardStop 0; opNewSignaller] empty
               = Ok (tt, w_two)) by (vm_compute; reflexivity).
  assert (H1 : accessor onSoftStop 0 w_two = Ok (Some 0, w_two))
    by (vm_compute; reflexivity).
  assert (H2 : accessor onHasStopped 1 w_two = Ok (Some 5, w_two))
    by (vm_compute; reflexivity).
  split; [exact H0|]. split; [exact H1|]. split; [exact H2|].
  destruct (channels_distinct _ _ _ _ _ _ _ _ H0 H1 H2) as (P1 & P2 & _).
  split; [exact P1 | exact P2].
Defined.

(** X10. Each Once guards its close: on a Signaller of a world a program
    can reach, a Once is done exactly if the query of its flag returns true.
    If it is done, the close of the trigger's closure would panic with a
    close of a closed channel, and Do skips its closure, whatever it is, and
    returns with the world unchanged.  If it is not done, the closure
    returns and closes the channel. *)
Theorem once_guards_close pre w s x f :
  run pre empty = Ok (tt, w) ->
  sigs w !! s = Some x ->
  (onceOf f x = true <-> query f s w = Ok (true, w)) /\
  (onceOf f x = true ->
     (y <- load s ;; close (fieldChan f y)) w = Panic CloseOfClosedChannel /\
     forall m, Do (onceOf f) (setOnce f) s m w = Ok (tt, w)) /\
  (onceOf f x = false ->
     exists w',
       (y <- load s ;; close (fieldChan f y)) w = Ok (tt, w') /\
       signalled (chans w') (fieldChan f x) = true /\
       sigs w' = sigs w).
Proof.
  intros Hpre Hx. pose proof (reachable_wf _ _ Hpre) as Hwf.
  pose proof (wf_sig_once _ Hwf s x f Hx) as Ho.
  destruct (wf_sig_valid _ Hwf s x f Hx) as (n & Hn & Hlt).
  rewrite (query_flag f s w (ex_intro _ x Hx)).
  rewrite (flag_signalled _ _ _ _ Hx), <- Ho.
  split; [split; [intros ->; reflexivity | intros [= ->]; reflexivity]|].
  rewrite Hn in Ho. simpl in Ho. unfold isClosed in Ho.
  destruct (lookup_lt_is_Some_2 _ _ Hlt) as [st Hst]. rewrite Hst in Ho.
  split.
  - intros Hd. rewrite Hd in Ho. destruct st; [discriminate|]. split.
    + unfold bind, load, close. rewrite Hx, Hn, Hst. reflexivity.
    + intros m. unfold Do, bind, load. rewrite Hx, Hd. reflexivity.
  - intros Hd. rewrite Hd in Ho. destruct st; [|discriminate].
    eexists. split; [unfold bind, load, close; rewrite Hx, Hn, Hst;
                     reflexivity|].
    split; [|reflexivity]. rewrite Hn. simpl. unfold isClosed.
    rewrite list_lookup_insert_eq by exact Hlt. reflexivity.
Qed.

Lemma once_guards_close_witness :
  run [opNewSignaller; opTriggerSoftStop 0] empty = Ok (tt, w_soft) /\
  sigs w_soft !! 0
    = Some (mkSignaller (Some 0) true (Some 1) false (Some 2) false) /\
  (x <- load 0 ;; close (softStopChan x)) w_soft
    = Panic CloseOfClosedChannel /\
  TriggerSoftStop 0 w_soft = Ok (tt, w_soft).
Proof.
  assert (H0 : run [opNewSignaller; opTriggerSoftStop 0] empty
               = Ok (tt, w_soft)) by (vm_compute; reflexivity).
  assert (H1 : sigs w_soft !! 0
               = Some (mkSignaller (Some 0) true (Some 1) false
                         (Some 2) false)) by (vm_compute; reflexivity).
  split; [exact H0|]. split; [exact H1|].
  destruct (proj1 (proj2 (once_guards_close _ _ _ _ onSoftStop H0 H1))
              eq_refl) as [P1 P2].
  split; [exact P1 | exact (P2 _)].
Defined.

(** ** Signallers not made by NewSignaller *)

(** X11. The zero value of the struct: on a Signaller whose channels are nil
    and whose Onces are not done (a [Signaller] not made by NewSignaller),
    in any world, the three queries return false, the accessors return the
    nil channel, and each of the three triggers panics with a close of a nil
    channel. *)
Theorem zero_value_signaller w s :
  sigs w !! s = Some zeroSignaller ->
  queries s w = Ok ((false, false, false), w) /\
  (forall f, accessor f s w = Ok (None, w)) /\
  (forall f, trigger f s w = Panic CloseOfNilChannel).
Proof.
  intros Hs. split; [|split].
  - unfold queries, bind.
    rewrite IsSoftStopSignalled_eq, IsHardStopSignalled_eq,
      IsHasStoppedSignalled_eq by eauto.
    unfold flag. rewrite Hs. reflexivity.
  - intros f. rewrite (accessor_field f s w _ Hs). destruct f; reflexivity.
  - intros f. unfold zeroSignaller in Hs. destruct f; simpl;
      unfold TriggerHardStop, TriggerSoftStop, TriggerHasStopped, Do, bind,
        load, close; rewrite Hs; simpl; rewrite Hs; reflexivity.
Qed.

Lemma zero_value_signaller_witness :
  sigs w_zero !! 0 = Some zeroSignaller /\
  queries 0 w_zero = Ok ((false, false, false), w_zero) /\
  TriggerHardStop 0 w_zero = Panic CloseOfNilChannel.
Proof.
  assert (H0 : sigs w_zero !! 0 = Some zeroSignaller)
    by (vm_compute; reflexivity).
  destruct (zero_value_signaller _ _ H0) as (P1 & _ & P3).
  split; [exact H0|]. split; [exact P1 | exact (P3 onHardStop)].
Defined.

(** X12. A nil Signaller pointer: on a pointer to no Signaller, in any
    world, every trigger, query and accessor panics with a nil dereference;
    the three constructors do not: with a parent that is Background or a
    context of the store they return a context and a cancel function, and
    the panic happens in the goroutine they started, at its first step. *)
Theorem nil_signaller_pointer w s f p :
  sigs w !! s = None ->
  trigger f s w = Panic NilDereference /\
  query f s w = Panic NilDereference /\
  accessor f s w = Panic NilDereference /\
  (known w p ->
   exists ctx release w1,
     derives f s p w ctx release w1 /\
     gos w1 !! length (gos w) = Some (mkWatcher ctx s f release) /\
     schedule (length (gos w)) w1 = Panic NilDereference).
Proof.
  intros Hs. split; [|split; [|split]].
  - destruct f; simpl;
      unfold TriggerHardStop, TriggerSoftStop, TriggerHasStopped, Do, bind,
        load; rewrite Hs; reflexivity.
  - destruct f; simpl;
      unfold IsSoftStopSignalled, IsHardStopSignalled, IsHasStoppedSignalled,
        SoftStopChan, HardStopChan, HasStoppedChan, bind, load;
      rewrite Hs; reflexivity.
  - destruct f; simpl;
      unfold SoftStopChan, HardStopChan, HasStoppedChan, bind, load;
      rewrite Hs; reflexivity.
  - intros Hp. destruct (stopCtx_total f s p w Hp) as ([ctx release] & w1 & H).
    pose proof H as H'. apply stopCtx_Ok in H' as ([= -> ->] & -> & _).
    eexists _, _, _. split; [apply derives_stopCtx; exact H|].
    assert (Hg : (gos w ++ [watcherOf f s (length (ctxs w))]) !! length (gos w)
                 = Some (watcherOf f s (length (ctxs w)))).
    { rewrite lookup_app_r by lia. rewrite Nat.sub_diag. reflexivity. }
    split; [exact Hg|].
    unfold schedule. simpl. rewrite Hg.
    unfold watch, Done, bind, load. simpl.
    rewrite lookup_app_r by lia. rewrite Nat.sub_diag. simpl.
    rewrite Hs. reflexivity.
Qed.

Lemma nil_signaller_pointer_witness :
  sigs empty !! 0 = None /\
  TriggerSoftStop 0 empty = Panic NilDereference /\
  exists ctx release w1,
    SoftStopCtx 0 Background empty = Ok ((ctx, release), w1) /\
    schedule 0 w1 = Panic NilDereference.
Proof.
  assert (H0 : sigs empty !! 0 = None) by (vm_compute; reflexivity).
  destruct (nil_signaller_pointer empty 0 onSoftStop Background H0)
    as (P1 & _ & _ & P4).
  split; [exact H0|]. split; [exact P1|].
  destruct (P4 I) as (ctx & release & w1 & Hd & _ & Hp).
  exists ctx, release, w1. split; [exact Hd | exact Hp].
Defined.

(** ** Several derived contexts *)

(** X13. Releasing one derived context leaves its siblings alone: for two
    contexts derived from the same parent, by any of the three constructors
    and on any Signallers, the second after any run from the first, in a
    world a program can reach: the two contexts differ, and after any
    further run, calling the release function of either returns and does not
    change whether the other is cancelled. *)
Theorem release_leaves_siblings pre w0 p f1 s1 ctx1 rel1 w1 mid1 w1'
    f2 s2 ctx2 rel2 w2 mid w3 :
  run pre empty = Ok (tt, w0) ->
  derives f1 s1 p w0 ctx1 rel1 w1 ->
  run mid1 w1 = Ok (tt, w1') ->
  derives f2 s2 p w1' ctx2 rel2 w2 ->
  run mid w2 = Ok (tt, w3) ->
  ctx1 <> ctx2 /\
  (exists w4, call rel1 w3 = Ok (tt, w4) /\
              cancelled w4 ctx2 = cancelled w3 ctx2) /\
  (exists w4, call rel2 w3 = Ok (tt, w4) /\
              cancelled w4 ctx1 = cancelled w3 ctx1).
Proof.
  intros Hpre Hd1 Hmid1 Hd2 Hmid.
  destruct (derives_scope _ _ _ _ _ _ _ _ _ _ Hpre Hd1 Hmid1)
    as (d1 & cd1 & -> & -> & Hpar1 & _ & _ & Hsc1 & _).
  pose proof (scope_run _ _ _ _ _ _ _
                (scope_derives _ _ _ _ _ _ _ _ _ _ _ Hsc1 Hd2) Hmid) as Hsc13.
  pose proof (run_derives _ _ _ _ _ _ _ _ _ _ _ Hpre Hd1 Hmid1) as Hpre'.
  destruct (derives_scope _ _ _ _ _ _ _ _ _ _ Hpre' Hd2 Hmid)
    as (d2 & cd2 & -> & -> & Hpar2 & Hlen & _ & Hsc23 & _).
  destruct Hsc13 as [Hwf3 Hcd1 _ _]. destruct Hsc23 as [_ Hcd2 _ _].
  assert (Hlt : d1 < d2).
  { rewrite Hlen. eapply lookup_lt_Some, (sc_ctx _ _ _ _ _ Hsc1). }
  split; [intros [= ?]; lia|]. split.
  - destruct (cancel_total d1 w3 (lookup_lt_Some _ _ _ Hcd1)) as [w4 Hc].
    exists w4. split; [exact Hc|].
    pose proof (cancel_Ok _ _ _ Hwf3 Hc) as Hpost.
    destruct (cancelled w3 (cancelCtxRef d2)) eqn:E2.
    + apply cancelled_Some in E2 as (c & Hl & Hsg).
      unfold cancelled. rewrite (cp_ctxs _ _ _ Hpost), Hl.
      apply (cp_mono _ _ _ Hpost), Hsg.
    + destruct (cancelled w4 (cancelCtxRef d2)) eqn:E4; [|reflexivity].
      exfalso.
      destruct (cancel_other d1 w3 w4 d2 cd2 Hwf3 Hc ltac:(lia) Hcd2 E4)
        as [H|H]; [congruence|].
      rewrite Hpar2, <- Hpar1 in H.
      rewrite (cancel_parent d1 cd1 w3 w4 Hwf3 Hcd1 Hc) in H.
      rewrite (cancelled_lookup _ _ _ Hcd2) in E2.
      rewrite (wf_propagated _ Hwf3 d2 cd2 Hcd2) in E2; [discriminate|].
      rewrite parentClosed_cancelled, Hpar2, <- Hpar1. exact H.
  - destruct (cancel_total d2 w3 (lookup_lt_Some _ _ _ Hcd2)) as [w4 Hc].
    exists w4. split; [exact Hc|].
    apply (cancel_earlier d2 w3 w4 d1 Hwf3 Hc Hlt).
Qed.

Lemma release_leaves_siblings_witness :
  run [opNewSignaller; opWithCancel Background] empty = Ok (tt, w_parent) /\
  derives onSoftStop 0 (cancelCtxRef 0) w_parent
    (cancelCtxRef 1) (cancelOf 1) w_softctx /\
  run [opTriggerHasStopped 0] w_softctx
    = Ok (tt, mark onHasStopped 0 w_softctx) /\
  derives onHardStop 0 (cancelCtxRef 0) (mark onHasStopped 0 w_softctx)
    (cancelCtxRef 2) (cancelOf 2)
    (derived onHardStop 0 (cancelCtxRef 0) (mark onHasStopped 0 w_softctx)) /\
  exists w4,
    call (cancelOf 1)
      (derived onHardStop 0 (cancelCtxRef 0) (mark onHasStopped 0 w_softctx))
      = Ok (tt, w4) /\
    cancelled w4 (cancelCtxRef 2) = false.
Proof.
  assert (H0 : run [opNewSignaller; opWithCancel Background] empty
               = Ok (tt, w_parent)) by (vm_compute; reflexivity).
  assert (H1 : derives onSoftStop 0 (cancelCtxRef 0) w_parent
                 (cancelCtxRef 1) (cancelOf 1) w_softctx)
    by (vm_compute; reflexivity).
  assert (H2 : run [opTriggerHasStopped 0] w_softctx
               = Ok (tt, mark onHasStopped 0 w_softctx))
    by (vm_compute; reflexivity).
  assert (H3 : derives onHardStop 0 (cancelCtxRef 0)
                 (mark onHasStopped 0 w_softctx)
                 (cancelCtxRef 2) (cancelOf 2)
                 (derived onHardStop 0 (cancelCtxRef 0)
                    (mark onHasStopped 0 w_softctx)))
    by (vm_compute; reflexivity).
  assert (H4 : run [] (derived onHardStop 0 (cancelCtxRef 0)
                         (mark onHasStopped 0 w_softctx))
               = Ok (tt, derived onHardStop 0 (cancelCtxRef 0)
                           (mark onHasStopped 0 w_softctx)))
    by reflexivity.
  assert (H5 : cancelled (derived onHardStop 0 (cancelCtxRef 0)
                            (mark onHasStopped 0 w_softctx))
                 (cancelCtxRef 2) = false) by (vm_compute; reflexivity).
  split; [exact H0|]. split; [exact H1|]. split; [exact H2|].
  split; [exact H3|].
  destruct (proj1 (proj2 (release_leaves_siblings
                            _ _ _ _ _ _ _ _ _ _ _ _ _ _ _ _ _
                            H0 H1 H2 H3 H4)))
    as (w4 & Hc & He).
  exists w4. split; [exact Hc|]. rewrite He. exact H5.
Defined.

(** ** Triggers as transformations of the whole world *)

Lemma closed_at_comm a b h :
  closed_at a (closed_at b h) = closed_at b (closed_at a h).
Proof.
  destruct a as [n|], b as [m|]; simpl; try reflexivity.
  destruct (decide (n = m)) as [->|Hne]; [reflexivity|].
  apply list_insert_insert_ne. exact Hne.
Qed.

Lemma setOnce_comm f g x :
  setOnce f true (setOnce g true x) = setOnce g true (setOnce f true x).
Proof. destruct f, g, x; reflexivity. Qed.

Lemma mark_None f s w : sigs w !! s = None -> mark f s w = w.
Proof. intros H. unfold mark. rewrite H. reflexivity. Qed.

Lemma mark_sigs_None f s w s' :
  sigs w !! s' = None -> sigs (mark f s w) !! s' = None.
Proof.
  intros H. apply lookup_ge_None. rewrite mark_sigs_length.
  apply lookup_ge_None, H.
Qed.

(** Two Onces, of any fields of any Signallers, in either order. *)
Lemma mark_comm f s g s' w :
  mark f s (mark g s' w) = mark g s' (mark f s w).
Proof.
  destruct (sigs w !! s) as [x|] eqn:Hx;
    [|rewrite (mark_None f s w Hx),
        (mark_None f s _ (mark_sigs_None g s' w s Hx)); reflexivity].
  destruct (sigs w !! s') as [x'|] eqn:Hx';
    [|rewrite (mark_None g s' w Hx'),
        (mark_None g s' _ (mark_sigs_None f s w s' Hx')); reflexivity].
  pose proof (lookup_lt_Some _ _ _ Hx) as Hlt.
  destruct (decide (s = s')) as [<-|Hne].
  - assert (x' = x) as -> by congruence.
    unfold mark. rewrite Hx. simpl.
    rewrite !list_lookup_insert_eq by exact Hlt.
    rewrite !fieldChan_setOnce, !list_insert_insert_eq.
    rewrite closed_at_comm, setOnce_comm. reflexivity.
  - unfold mark. rewrite Hx, Hx'. simpl.
    rewrite !list_lookup_insert_ne by congruence. rewrite Hx, Hx'.
    rewrite closed_at_comm.
    rewrite (list_insert_insert_ne _ s s') by exact Hne. reflexivity.
Qed.

Lemma mark_triggered_comm f s t s' w :
  mark f s (triggered t s' w) = triggered t s' (mark f s w).
Proof.
  destruct t; simpl.
  - apply mark_comm.
  - rewrite (mark_comm f s onHardStop s'), (mark_comm f s onSoftStop s').
    reflexivity.
  - apply mark_comm.
Qed.

Lemma triggered_comm t s t' s' w :
  triggered t s (triggered t' s' w) = triggered t' s' (triggered t s w).
Proof.
  destruct t; simpl; rewrite !mark_triggered_comm; reflexivity.
Qed.

Lemma mark_idem f s w :
  wf w -> is_Some (sigs w !! s) -> mark f s (mark f s w) = mark f s w.
Proof.
  intros Hwf Hv. apply trigger_again; auto with shutdown.
Qed.

Lemma run_two_triggers s1 t1 s2 t2 w :
  wf w -> is_Some (sigs w !! s1) -> is_Some (sigs w !! s2) ->
  run [triggerOp s1 t1; triggerOp s2 t2] w =
  Ok (tt, triggered t2 s2 (triggered t1 s1 w)).
Proof.
  intros Hwf H1 H2. apply run_cons. exists (triggered t1 s1 w). split.
  - rewrite exec_triggerOp. apply trigger_triggered; assumption.
  - apply run_cons. exists (triggered t2 s2 (triggered t1 s1 w)).
    split; [|reflexivity].
    rewrite exec_triggerOp.
    apply trigger_triggered; [apply triggered_wf, Hwf|].
    apply triggered_valid, H2.
Qed.

(** X14. Triggers commute and TriggerHardStop absorbs TriggerSoftStop, on
    the whole world: in a world a program can reach, two triggers, of any
    flags, on the same Signaller or on two Signallers, return in either
    order and lead to the same world (channels, Onces, contexts and
    goroutines); and TriggerSoftStop before or after TriggerHardStop on the
    same Signaller leads to the world TriggerHardStop alone leads to. *)
Theorem triggers_compose pre w s1 t1 s2 t2 :
  run pre empty = Ok (tt, w) ->
  s1 < length (sigs w) -> s2 < length (sigs w) ->
  (exists w',
     run [triggerOp s1 t1; triggerOp s2 t2] w = Ok (tt, w') /\
     run [triggerOp s2 t2; triggerOp s1 t1] w = Ok (tt, w')) /\
  (exists w',
     TriggerHardStop s1 w = Ok (tt, w') /\
     run [opTriggerSoftStop s1; opTriggerHardStop s1] w = Ok (tt, w') /\
     run [opTriggerHardStop s1; opTriggerSoftStop s1] w = Ok (tt, w')).
Proof.
  intros Hpre H1 H2. pose proof (reachable_wf _ _ Hpre) as Hwf.
  apply lookup_lt_is_Some in H1, H2. split.
  - exists (triggered t2 s2 (triggered t1 s1 w)). split.
    + apply run_two_triggers; assumption.
    + rewrite triggered_comm. apply run_two_triggers; assumption.
  - exists (triggered onHardStop s1 w).
    split; [apply (trigger_triggered onHardStop); assumption|]. split.
    + change (run [triggerOp s1 onSoftStop; triggerOp s1 onHardStop] w
              = Ok (tt, triggered onHardStop s1 w)).
      rewrite (run_two_triggers s1 onSoftStop s1 onHardStop w Hwf H1 H1).
      unfold triggered. rewrite mark_idem by assumption. reflexivity.
    + change (run [triggerOp s1 onHardStop; triggerOp s1 onSoftStop] w
              = Ok (tt, triggered onHardStop s1 w)).
      rewrite (run_two_triggers s1 onHardStop s1 onSoftStop w Hwf H1 H1).
      unfold triggered. rewrite (mark_comm onSoftStop s1 onHardStop s1).
      rewrite mark_idem by assumption. reflexivity.
Qed.

Lemma triggers_compose_witness :
  run [opNewSignaller; opTriggerHardStop 0; opNewSignaller] empty
    = Ok (tt, w_two) /\
  0 < length (sigs w_two) /\ 1 < length (sigs w_two) /\
  exists w',
    run [triggerOp 0 onHasStopped; triggerOp 1 onHardStop] w_two
      = Ok (tt, w') /\
    run [triggerOp 1 onHardStop; triggerOp 0 onHasStopped] w_two
      = Ok (tt, w').
Proof.
  assert (H0 : run [opNewSignaller; opTriggerHardStop 0; opNewSignaller] empty
               = Ok (tt, w_two)) by (vm_compute; reflexivity).
  assert (H1 : 0 < length (sigs w_two)) by (vm_compute; lia).
  assert (H2 : 1 < length (sigs w_two)) by (vm_compute; lia).
  split; [exact H0|]. split; [exact H1|]. split; [exact H2|].
  exact (proj1 (triggers_compose _ _ 0 onHasStopped 1 onHardStop H0 H1 H2)).
Defined.

(** ** Nested derived contexts and the pool of goroutines *)

(** X15. A context derived from a derived context follows both flags: for
    a context [ctx1] derived from [p] for one flag, and a context [ctx2]
    derived from [ctx1] for another flag (any constructors, any Signallers
    of the world), after any run:
    (1) if either flag is set then [ctx2] is cancelled whenever all
    goroutines are blocked;
    (2) if [ctx2] is cancelled then one of the two flags is set, or [p] is
    cancelled, or one of the two release functions was called. *)
Theorem nested_contexts pre w0 p f1 s1 ctx1 rel1 w1 mid1 w1'
    f2 s2 ctx2 rel2 w2 mid w3 :
  run pre empty = Ok (tt, w0) ->
  derives f1 s1 p w0 ctx1 rel1 w1 ->
  s1 < length (sigs w0) ->
  run mid1 w1 = Ok (tt, w1') ->
  derives f2 s2 ctx1 w1' ctx2 rel2 w2 ->
  s2 < length (sigs w1') ->
  run mid w2 = Ok (tt, w3) ->
  (flag f1 s1 w3 = true \/ flag f2 s2 w3 = true ->
   quiescent w3 -> cancelled w3 ctx2 = true) /\
  (cancelled w3 ctx2 = true ->
   flag f1 s1 w3 = true \/ flag f2 s2 w3 = true \/ cancelled w3 p = true \/
   existsb (is_call rel1) (mid1 ++ mid) = true \/
   existsb (is_call rel2) mid = true).
Proof.
  intros Hpre Hd1 Hs1 Hmid1 Hd2 Hs2 Hmid.
  pose proof (run_derives _ _ _ _ _ _ _ _ _ _ _ Hpre Hd1 Hmid1) as Hpre'.
  pose proof (run_derives _ _ _ _ _ _ _ _ _ _ _ Hmid1 Hd2 Hmid) as Hrun13.
  destruct (derives_scope _ _ _ _ _ _ _ _ _ _ Hpre Hd1 Hrun13)
    as (d1 & cd1 & -> & -> & Hpar1 & _ & Hsc1 & Hsc13 & Hsigs1 & _ & Hlive1).
  destruct (derives_scope _ _ _ _ _ _ _ _ _ _ Hpre' Hd2 Hmid)
    as (d2 & cd2 & -> & -> & Hpar2 & _ & Hsc2 & Hsc23 & Hsigs2 & _ & Hlive2).
  apply lookup_lt_is_Some in Hs1, Hs2.
  rewrite <- Hsigs1 in Hs1. rewrite <- Hsigs2 in Hs2.
  pose proof (run_valid _ _ _ s1 (sc_wf _ _ _ _ _ Hsc1) Hrun13 Hs1) as Hv1.
  pose proof (run_valid _ _ _ s2 (sc_wf _ _ _ _ _ Hsc2) Hmid Hs2) as Hv2.
  split.
  - intros [Hf|Hf] Hq.
    + apply (cancelled_follows w3 d2 cd2 (sc_wf _ _ _ _ _ Hsc23)
               (sc_ctx _ _ _ _ _ Hsc23)).
      rewrite Hpar2.
      exact (proj2 (scope_fires f1 s1 d1 cd1 w3 Hsc13 Hv1 Hf) Hq).
    + exact (proj2 (scope_fires f2 s2 d2 cd2 w3 Hsc23 Hv2 Hf) Hq).
  - intros Hc. rewrite <- Hpar2 in Hlive2. rewrite <- Hpar1 in Hlive1.
    destruct (scope_why f2 s2 d2 cd2 w2 mid w3 Hsc2 Hmid Hlive2 Hc)
      as [H|[H|H]]; [|auto 6|auto].
    rewrite Hpar2 in H.
    destruct (scope_why f1 s1 d1 cd1 w1 _ w3 Hsc1 Hrun13 Hlive1 H)
      as [H'|[H'|H']]; [rewrite Hpar1 in H'; auto| |auto].
    rewrite existsb_app in H'. simpl in H'.
    rewrite is_call_stopCtxOp in H'. simpl in H'.
    rewrite <- existsb_app in H'. auto 6.
Qed.

Lemma nested_contexts_witness :
  run [opNewSignaller; opWithCancel Background] empty = Ok (tt, w_parent) /\
  derives onSoftStop 0 (cancelCtxRef 0) w_parent
    (cancelCtxRef 1) (cancelOf 1) w_softctx /\
  0 < length (sigs w_parent) /\
  run [] w_softctx = Ok (tt, w_softctx) /\
  derives onHardStop 0 (cancelCtxRef 1) w_softctx
    (cancelCtxRef 2) (cancelOf 2) w_nested /\
  0 < length (sigs w_softctx) /\
  run [opTriggerSoftStop 0; opSchedule 0; opSchedule 0] w_nested
    = Ok (tt, w_nested_soft) /\
  flag onSoftStop 0 w_nested_soft = true /\
  (quiescent w_nested_soft ->
   cancelled w_nested_soft (cancelCtxRef 2) = true).
Proof.
  assert (H0 : run [opNewSignaller; opWithCancel Background] empty
               = Ok (tt, w_parent)) by (vm_compute; reflexivity).
  assert (H1 : derives onSoftStop 0 (cancelCtxRef 0) w_parent
                 (cancelCtxRef 1) (cancelOf 1) w_softctx)
    by (vm_compute; reflexivity).
  assert (H2 : 0 < length (sigs w_parent)) by (vm_compute; lia).
  assert (H3 : run [] w_softctx = Ok (tt, w_softctx)) by reflexivity.
  assert (H4 : derives onHardStop 0 (cancelCtxRef 1) w_softctx
                 (cancelCtxRef 2) (cancelOf 2) w_nested)
    by (vm_compute; reflexivity).
  assert (H5 : 0 < length (sigs w_softctx)) by (vm_compute; lia).
  assert (H6 : run [opTriggerSoftStop 0; opSchedule 0; opSchedule 0] w_nested
               = Ok (tt, w_nested_soft)) by (vm_compute; reflexivity).
  assert (H7 : flag onSoftStop 0 w_nested_soft = true)
    by (vm_compute; reflexivity).
  split; [exact H0|]. split; [exact H1|]. split; [exact H2|].
  split; [exact H3|]. split; [exact H4|]. split; [exact H5|].
  split; [exact H6|]. split; [exact H7|].
  exact (proj1 (nested_contexts _ _ _ _ _ _ _ _ _ _ _ _ _ _ _ _ _
                  H0 H1 H2 H3 H4 H5 H6) (or_introl H7)).
Defined.







(** ** Cancellation, step by step *)


(** X17. The three ways a context is cancelled, for one step: in a world a
    program can reach, if a step (any call of the package, WithCancel, a
    cancel function or a scheduler step) returns and a context of the store
    that was not cancelled before is cancelled after it, then its parent is
    cancelled after the step, or the step is the call of its own cancel
    function, or the step runs a goroutine of the pool that holds this
    context and its cancel function and whose flag is set on its
    Signaller. *)
Theorem step_cancels_why pre w o w' d cd :
  run pre empty = Ok (tt, w) ->
  exec o w = Ok (tt, w') ->
  ctxs w !! d = Some cd ->
  cancelled w (cancelCtxRef d) = false ->
  cancelled w' (cancelCtxRef d) = true ->
  cancelled w' (parent cd) = true \/
  o = opCall (cancelOf d) \/
  exists i g, o = opSchedule i /\ gos w !! i = Some g /\
              w_ctx g = cancelCtxRef d /\ w_cancel g = cancelOf d /\
              flag (w_field g) (w_sig g) w = true.
Proof.
  intros Hpre Ho Hd H0 H1. pose proof (reachable_wf _ _ Hpre) as Hwf.
  destruct (effect_cancels o w w' d cd Hwf (exec_Ok _ _ _ Hwf Ho) Hd H0 H1)
    as [H | [H | (i & g & -> & Hg & Hctx & Hf)]]; [auto | auto |].
  right. right. exists i, g.
  destruct (wf_gos _ Hwf g (list_elem_of_lookup_2 _ _ _ Hg))
    as (d' & Hctx' & Hcan & _).
  rewrite Hctx in Hctx'. injection Hctx' as <-. auto 6.
Qed.

Lemma step_cancels_why_witness :
  run [opNewSignaller; opWithCancel Background;
       opSoftStopCtx 0 (cancelCtxRef 0); opTriggerSoftStop 0] empty
    = Ok (tt, w_softctx_ready) /\
  exec (opSchedule 0) w_softctx_ready = Ok (tt, w_softctx_fired) /\
  ctxs w_softctx_ready !! 1 = Some (mkCancelCtx (cancelCtxRef 0) (Some 4)) /\
  cancelled w_softctx_ready (cancelCtxRef 1) = false /\
  cancelled w_softctx_fired (cancelCtxRef 1) = true /\
  (cancelled w_softctx_fired (cancelCtxRef 0) = true \/
   opSchedule 0 = opCall (cancelOf 1) \/
   exists i g, opSchedule 0 = opSchedule i /\
               gos w_softctx_ready !! i = Some g /\
               w_ctx g = cancelCtxRef 1 /\ w_cancel g = cancelOf 1 /\
               flag (w_field g) (w_sig g) w_softctx_ready = true).
Proof.
  assert (H0 : run [opNewSignaller; opWithCancel Background;
                    opSoftStopCtx 0 (cancelCtxRef 0); opTriggerSoftStop 0]
                 empty = Ok (tt, w_softctx_ready))
    by (vm_compute; reflexivity).
  assert (H1 : exec (opSchedule 0) w_softctx_ready
               = Ok (tt, w_softctx_fired)) by (vm_compute; reflexivity).
  assert (H2 : ctxs w_softctx_ready !! 1
               = Some (mkCancelCtx (cancelCtxRef 0) (Some 4)))
    by (vm_compute; reflexivity).
  assert (H3 : cancelled w_softctx_ready (cancelCtxRef 1) = false)
    by (vm_compute; reflexivity).
  assert (H4 : cancelled w_softctx_fired (cancelCtxRef 1) = true)
    by (vm_compute; reflexivity).
  split; [exact H0|]. split; [exact H1|]. split; [exact H2|].
  split; [exact H3|]. split; [exact H4|].
  exact (step_cancels_why _ _ _ _ _ _ H0 H1 H2 H3 H4).
Defined.


